(** * One-Wire Interface (OWI): bus transaction engine and ROM search

    A shallow embedding of [src/OWI.h].  The class [OWI] is abstract: its
    three virtual members [reset], [read(bits)] and [write(value, bits)]
    belong to the physical layer.  The members defined in the header are
    embedded as programs of a small command monad whose commands are exactly
    those three virtual calls plus the accesses to the field [m_crc]; a
    physical layer is a handler that interprets the commands on its own
    state, and running a program also yields the list of bus operations it
    performed. *)

From Stdlib Require Import ZArith List Bool Lia Permutation.
Import ListNotations.
Local Open Scope Z_scope.

Set Implicit Arguments.

(** ** Integer types and buffers *)

(** Value of a C expression converted to [uint8_t]. *)
Definition u8 (z : Z) : Z := z mod 256.

(** [buf[i]] for a caller-owned byte buffer. *)
Definition get (buf : list Z) (i : nat) : Z := nth i buf 0.

(** [buf[i] = v].  The source never checks the index (a C pointer); an index
    outside the buffer is undefined there and leaves the list as it is here. *)
Fixpoint upd (buf : list Z) (i : nat) (v : Z) : list Z :=
  match buf, i with
  | [], _ => []
  | _ :: t, O => v :: t
  | x :: t, S i' => x :: upd t i' v
  end.

(** [memcpy(dst, src, n)]. *)
Definition memcpy (dst src : list Z) (n : nat) : list Z :=
  firstn n src ++ skipn n dst.

(** ** Bus operations and the command monad *)

(** A bus operation as seen on the wire, with the value it produced. *)
Inductive event : Type :=
| EvReset (presence : bool)
| EvRead (bits value : Z)
| EvWrite (value bits : Z).

(** Programs over the virtual members of [OWI] and the field [m_crc]. *)
Inductive prog (A : Type) : Type :=
| Ret (a : A)
| Reset (k : bool -> prog A)
| Read (bits : Z) (k : Z -> prog A)
| Write (value bits : Z) (k : prog A)
| GetCrc (k : Z -> prog A)
| SetCrc (v : Z) (k : prog A).

Arguments Ret {A} a.
Arguments Reset {A} k.
Arguments Read {A} bits k.
Arguments Write {A} value bits k.
Arguments GetCrc {A} k.
Arguments SetCrc {A} v k.

Fixpoint bind {A B : Type} (m : prog A) (f : A -> prog B) : prog B :=
  match m with
  | Ret a => f a
  | Reset k => Reset (fun ok => bind (k ok) f)
  | Read bits k => Read bits (fun v => bind (k v) f)
  | Write value bits k => Write value bits (bind k f)
  | GetCrc k => GetCrc (fun c => bind (k c) f)
  | SetCrc v k => SetCrc v (bind k f)
  end.

Declare Scope owi_scope.
Delimit Scope owi_scope with owi.
Notation "x <- m ;; k" := (bind m (fun x => k))
  (at level 61, m at next level, right associativity) : owi_scope.
Notation "m ;;; k" := (bind m (fun _ => k))
  (at level 61, right associativity) : owi_scope.
Local Open Scope owi_scope.

Definition reset : prog bool := Reset (fun ok => Ret ok).
Definition read (bits : Z) : prog Z := Read bits (fun v => Ret v).
Definition write (value bits : Z) : prog unit := Write value bits (Ret tt).
Definition get_crc : prog Z := GetCrc (fun c => Ret c).
Definition set_crc (v : Z) : prog unit := SetCrc v (Ret tt).

(** [for (i = i0; i < i0 + n; i++) body]: the body either leaves the
    enclosing function with a value ([inl], a [return] inside the loop) or
    goes on with the updated locals ([inr]). *)
Fixpoint for_loop {R St : Type} (n : nat) (i : nat)
    (body : nat -> St -> prog (R + St)) (st : St) : prog (R + St) :=
  match n with
  | O => Ret (inr st)
  | S n' =>
      r <- body i st ;;
      match r with
      | inl v => Ret (inl v)
      | inr st' => for_loop n' (S i) body st'
      end
  end.

(** ** Physical layer *)

(** The object state: the field [m_crc] of the base class and the state [D]
    of the derived class that implements the virtual members.  The virtual
    members are members of the object, so they see and may change both. *)
Record owi (D : Type) : Type := mkOwi { m_crc : Z; dev : D }.

Definition with_crc {D} (c : Z) (s : owi D) : owi D := mkOwi c (dev s).

Record phy (D : Type) : Type := mkPhy {
  phy_reset : owi D -> bool * owi D;
  phy_read : Z -> owi D -> Z * owi D;
  phy_write : Z -> Z -> owi D -> owi D
}.

(** Run a program on a physical layer: result, final state, and the bus
    operations in the order they were performed.  [read] returns a
    [uint8_t]. *)
Fixpoint exec {D A : Type} (h : phy D) (p : prog A) (s : owi D)
  : A * owi D * list event :=
  match p with
  | Ret a => (a, s, [])
  | Reset k =>
      let '(ok, s1) := phy_reset h s in
      let '(a, s2, t) := exec h (k ok) s1 in
      (a, s2, EvReset ok :: t)
  | Read bits k =>
      let '(v, s1) := phy_read h bits s in
      let '(a, s2, t) := exec h (k (u8 v)) s1 in
      (a, s2, EvRead bits (u8 v) :: t)
  | Write value bits k =>
      let s1 := phy_write h value bits s in
      let '(a, s2, t) := exec h k s1 in
      (a, s2, EvWrite value bits :: t)
  | GetCrc k => exec h (k (m_crc s)) s
  | SetCrc v k => exec h k (with_crc v s)
  end.

(** ** The engine *)

Module OWI.

(** ROM size in bytes and in bits. *)
Definition ROM_MAX : nat := 8.
Definition CHARBITS : Z := 8.
Definition ROMBITS : Z := Z.of_nat ROM_MAX * CHARBITS.

(** Search positions. *)
Definition FIRST : Z := -1.
Definition ERROR : Z := -1.
Definition LAST : Z := ROMBITS.

(** Standard ROM commands. *)
Definition SEARCH_ROM : Z := 0xF0.
Definition READ_ROM : Z := 0x33.
Definition MATCH_ROM : Z := 0x55.
Definition SKIP_ROM : Z := 0xCC.
Definition ALARM_SEARCH : Z := 0xEC.

(** [bool read(void* buf, size_t count)]:
    [m_crc = 0; while (count--) *bp++ = read(); return (m_crc == 0);] *)
Fixpoint read_loop (count : nat) (bp : nat) (buf : list Z) : prog (list Z) :=
  match count with
  | O => Ret buf
  | S count' =>
      v <- read CHARBITS ;;
      read_loop count' (S bp) (upd buf bp v)
  end.

Definition read_buf (buf : list Z) (count : nat) : prog (bool * list Z) :=
  set_crc 0 ;;;
  buf' <- read_loop count 0 buf ;;
  c <- get_crc ;;
  Ret (c =? 0, buf').

(** [void write(uint8_t value, const void* buf, size_t count)]:
    [write(value); while (count--) write( *bp++);] *)
Fixpoint write_loop (count : nat) (bp : nat) (buf : list Z) : prog unit :=
  match count with
  | O => Ret tt
  | S count' => write (get buf bp) CHARBITS ;;; write_loop count' (S bp) buf
  end.

Definition write_buf (value : Z) (buf : list Z) (count : nat) : prog unit :=
  write value CHARBITS ;;; write_loop count 0 buf.

(** Locals of [search] that live across iterations of the inner loop. *)
Record regs : Type := mkRegs { pos : Z; next : Z; last : Z; data : Z }.

(** One iteration of the inner loop of [search], for byte [i] and bit [j]:
    [data >>= 1; switch (read(2)) { ... } pos += 1;].  [inl tt] is the
    [return (ERROR)] of case [0b11]; a value that matches no case label
    falls out of the [switch]. *)
Definition search_bit (code : list Z) (i j : nat) (r : regs)
  : prog (unit + regs) :=
  let data1 := Z.shiftr (data r) 1 in
  let pos1 := u8 (pos r + 1) in
  v <- read 2 ;;
  if v =? 0 then
    if pos r =? last r then
      write 1 1 ;;;
      Ret (inr (mkRegs pos1 (next r) FIRST (u8 (Z.lor data1 0x80))))
    else if pos r >? last r then
      write 0 1 ;;;
      Ret (inr (mkRegs pos1 (pos r) (last r) data1))
    else if negb (Z.land (get code i) (Z.shiftl 1 (Z.of_nat j)) =? 0) then
      write 1 1 ;;;
      Ret (inr (mkRegs pos1 (next r) (last r) (u8 (Z.lor data1 0x80))))
    else
      write 0 1 ;;;
      Ret (inr (mkRegs pos1 (pos r) (last r) data1))
  else if v =? 1 then
    write 1 1 ;;;
    Ret (inr (mkRegs pos1 (next r) (last r) (u8 (Z.lor data1 0x80))))
  else if v =? 2 then
    write 0 1 ;;;
    Ret (inr (mkRegs pos1 (next r) (last r) data1))
  else if v =? 3 then
    Ret (inl tt)
  else
    Ret (inr (mkRegs pos1 (next r) (last r) data1)).

(** One iteration of the outer loop, for byte [i]:
    [uint8_t data = 0; for (j ...) { ... } code[i] = data;].  The locals that
    live across iterations are the buffer and [pos], [next], [last]; a
    [return (ERROR)] leaves the buffer as it is at that point. *)
Definition search_byte (i : nat) (st : list Z * regs)
  : prog (Z * list Z + list Z * regs) :=
  let '(code, r) := st in
  r8 <- for_loop 8 0 (search_bit code i)
          (mkRegs (pos r) (next r) (last r) 0) ;;
  match r8 with
  | inl _ => Ret (inl (ERROR, code))
  | inr r' => Ret (inr (upd code i (data r'), r'))
  end.

(** [int8_t search(uint8_t* code, int8_t last = FIRST)]: the returned
    position and the buffer as the pass leaves it. *)
Definition search (code : list Z) (last : Z) : prog (Z * list Z) :=
  r <- for_loop 8 0 search_byte (code, mkRegs 0 LAST last 0) ;;
  match r with
  | inl res => Ret res
  | inr (code', r') => Ret (next r', code')
  end.

(** [int8_t search_rom(uint8_t family, uint8_t* code, int8_t last)].  The
    [do ... while] loop has no bound of its own, so the embedding takes the
    number of iterations it may run; [None] as position means the loop was
    still running when they were used up. *)
Fixpoint search_rom (fuel : nat) (family : Z) (code : list Z) (last : Z)
  : prog (option Z * list Z) :=
  match fuel with
  | O => Ret (None, code)
  | S fuel' =>
      ok <- reset ;;
      if negb ok then Ret (Some ERROR, code)
      else
        write SEARCH_ROM CHARBITS ;;;
        res <- search code last ;;
        let '(last', code') := res in
        if negb (last' =? LAST) && negb (family =? 0)
           && negb (get code' 0 =? family)
        then search_rom fuel' family code' last'
        else Ret (Some last', code')
  end.

(** [bool read_rom(uint8_t* code)]. *)
Definition read_rom (code : list Z) : prog (bool * list Z) :=
  ok <- reset ;;
  if negb ok then Ret (false, code)
  else
    write READ_ROM CHARBITS ;;;
    read_buf code ROM_MAX.

(** [bool match_rom(uint8_t* code)]. *)
Definition match_rom (code : list Z) : prog bool :=
  ok <- reset ;;
  if negb ok then Ret false
  else
    write_buf MATCH_ROM code ROM_MAX ;;;
    Ret true.

(** [bool skip_rom()]. *)
Definition skip_rom : prog bool :=
  ok <- reset ;;
  if negb ok then Ret false
  else
    write SKIP_ROM CHARBITS ;;;
    Ret true.

(** [int8_t alarm_search(uint8_t* code, int8_t last = FIRST)]. *)
Definition alarm_search (code : list Z) (last : Z) : prog (Z * list Z) :=
  ok <- reset ;;
  if negb ok then Ret (ERROR, code)
  else
    write ALARM_SEARCH CHARBITS ;;;
    search code last.

(** *** [OWI::Device] *)

(** A device driver object: the reference [m_owi] to its bus manager (an
    object identity, of any type [O]) and the array [m_rom[ROM_MAX]]. *)
Record Device (O : Type) : Type := mkDevice { m_owi : O; m_rom : list Z }.

(** The constructor [Device(OWI& owi, const uint8_t* rom = NULL)], run on
    storage whose array part holds [raw]: the array is written only when
    [rom] is not [NULL]. *)
Definition Device_new {O} (raw : list Z) (owi : O) (rom : option (list Z))
  : prog (Device O) :=
  match rom with
  | Some code => Ret (mkDevice owi (memcpy raw code ROM_MAX))
  | None => Ret (mkDevice owi raw)
  end.

(** [void rom(const uint8_t* rom)]. *)
Definition Device_set_rom {O} (d : Device O) (code : list Z)
  : prog (Device O) :=
  Ret (mkDevice (m_owi d) (memcpy (m_rom d) code ROM_MAX)).

(** [const uint8_t* rom()]. *)
Definition Device_rom {O} (d : Device O) : prog (list Z) :=
  Ret (m_rom d).

End OWI.

(** ** The enumeration protocol *)

(** The caller's loop, as the demonstration program runs it:
    [last = FIRST; do { last = search_rom(family, rom, last);
                        if (last == ERROR) break;  visit rom;
                   } while (last != LAST);]
    The result is how the loop ended ([None]: still running after [calls]
    calls, or a call that did not return within [fuel]), the codes visited
    in order, and the shared buffer.  What the program does with a code it
    visits is left out: those are transactions of the device driver, and
    every [search_rom] starts with a reset of its own. *)
Fixpoint enumerate (calls fuel : nat) (family : Z) (code : list Z) (last : Z)
  : prog (option Z * list (list Z) * list Z) :=
  match calls with
  | O => Ret (None, [], code)
  | S calls' =>
      res <- OWI.search_rom fuel family code last ;;
      let '(r, code') := res in
      match r with
      | None => Ret (None, [], code')
      | Some l =>
          if l =? OWI.ERROR then Ret (Some l, [], code')
          else if negb (l =? OWI.LAST) then
            rest <- enumerate calls' fuel family code' l ;;
            let '(e, visited, code'') := rest in
            Ret (e, code' :: visited, code'')
          else Ret (Some l, [code'], code')
      end
  end.

(** ** Projections of a run *)

Definition result {A D} (x : A * owi D * list event) : A := fst (fst x).
Definition final {A D} (x : A * owi D * list event) : owi D := snd (fst x).
Definition trace {A D} (x : A * owi D * list event) : list event := snd x.


(** ** Rounds of a search pass on the wire *)

(** A round is one bit position of a pass: the 2-bit pair read and, unless
    the pair matches no case label, the direction bit written. *)
Definition block (rd : Z * option Z) : list event :=
  match rd with
  | (v, Some b) => [EvRead 2 v; EvWrite b 1]
  | (v, None) => [EvRead 2 v]
  end.

(** Positions of the discrepancies at which the 0-branch was taken, in
    ascending order. *)
Fixpoint zero_branches (p : Z) (rds : list (Z * option Z)) : list Z :=
  match rds with
  | [] => []
  | (0, Some 0) :: t => p :: zero_branches (p + 1) t
  | _ :: t => zero_branches (p + 1) t
  end.

(** The rounds of a trace of a pass. *)
Fixpoint rounds_of (t : list event) : list (Z * option Z) :=
  match t with
  | EvRead _ v :: EvWrite b _ :: t' => (v, Some b) :: rounds_of t'
  | EvRead _ v :: t' => (v, None) :: rounds_of t'
  | _ :: t' => rounds_of t'
  | [] => []
  end.

(** ** ROM codes as bit sequences *)

(** Bits of a byte, least significant first. *)
Definition byte_bits (z : Z) : list bool :=
  map (Z.testbit z) [0; 1; 2; 3; 4; 5; 6; 7].

(** The 64 bits of a ROM code in wire order: bytes ascending, each least
    significant bit first. *)
Definition rom_bits (d : list Z) : list bool := flat_map byte_bits d.

(** Value of a bit sequence, least significant first. *)
Fixpoint bits_value (bs : list bool) : Z :=
  match bs with
  | [] => 0
  | b :: t => Z.b2z b + 2 * bits_value t
  end.

(** [n] bytes from a bit sequence in wire order. *)
Fixpoint bytes_of_bits (n : nat) (bs : list bool) : list Z :=
  match n with
  | O => []
  | S n' => bits_value (firstn 8 bs) :: bytes_of_bits n' (skipn 8 bs)
  end.

(** A ROM code as a device holds it: eight bytes. *)
Definition rom_wf (d : list Z) : Prop :=
  length d = OWI.ROM_MAX /\ Forall (fun x => 0 <= x < 256) d.

(** ** A simulated bus *)

(** The physical layer (the derived classes that implement [reset], [read]
    and [write]) and the devices on the wire are not part of the header.
    This module models them from the description of the protocol: the
    presence check of [reset] (section 4.1), the least-significant-bit-first
    order of [read] and [write] (sections 4.1 and 6), the meaning of the
    2-bit pair of a search position (section 4.2), and [m_crc] updated once
    per bit read (section 3). *)
Module Sim.

(** Modelled from the spec: where the devices are in the transaction.  In a
    search every bit position takes three slots: the devices send their bit,
    then its complement (the pair the master reads with [read(2)]), then
    read the direction the master writes. *)
Inductive mode : Type :=
| Idle | RomCommand | SearchId | SearchCmp | SearchDir | ReadRom.

(** Modelled from the spec: the wire.  [devices] are the ROM codes present;
    [active] holds, for each device still taking part in the current
    transaction, the bits it has yet to send. *)
Record bus : Type := mkBus {
  devices : list (list Z);
  active : list (list bool);
  phase : mode
}.

(** Modelled from the spec: the devices that carry bit [b] at the current
    position, moved on to the next position; the others drop out of the
    search. *)
Definition sel (b : bool) (act : list (list bool)) : list (list bool) :=
  map (@tl bool) (filter (fun d => Bool.eqb (hd true d) b) act).

(** Modelled from the spec: the two bits of the pair.  The wire is a wired
    AND, so the first reads 1 only if every active device carries 1 here and
    the second only if every active device carries 0; both read 1 when no
    device is active (section 4.2: both 1 is no device, one of them 1 is
    agreement, both 0 is a discrepancy). *)
Definition all1 (act : list (list bool)) : bool :=
  forallb (hd true) act.
Definition all0 (act : list (list bool)) : bool :=
  forallb (fun d => negb (hd false d)) act.

(** Modelled from the spec: one read slot.  An idle wire reads 1. *)
Definition read_slot (b : bus) : bool * bus :=
  match phase b with
  | SearchId => (all1 (active b), mkBus (devices b) (active b) SearchCmp)
  | SearchCmp => (all0 (active b), mkBus (devices b) (active b) SearchDir)
  | ReadRom =>
      (all1 (active b), mkBus (devices b) (map (@tl bool) (active b)) ReadRom)
  | _ => (true, b)
  end.

(** Modelled from the spec: one write slot. *)
Definition write_slot (bit : bool) (b : bus) : bus :=
  match phase b with
  | SearchDir => mkBus (devices b) (sel bit (active b)) SearchId
  | _ => b
  end.

Section Handler.
(** Modelled from the spec: the check function that [read] applies to
    [m_crc] once per bit read (section 3, CRCAccumulator). *)
Variable crc_bit : Z -> bool -> Z.

(** Modelled from the spec: [n] read slots, first bit first, with the check
    function applied to each bit. *)
Fixpoint read_slots (n : nat) (c : Z) (b : bus) : list bool * Z * bus :=
  match n with
  | O => ([], c, b)
  | S n' =>
      let '(x, b1) := read_slot b in
      let '(xs, c2, b2) := read_slots n' (crc_bit c x) b1 in
      (x :: xs, c2, b2)
  end.

(** Modelled from the spec: the [n] low-order bits of [v] written, least
    significant first. *)
Fixpoint write_slots (n : nat) (v : Z) (b : bus) : bus :=
  match n with
  | O => b
  | S n' => write_slots n' (Z.shiftr v 1) (write_slot (Z.odd v) b)
  end.

(** Modelled from the spec: [reset()].  Every device starts over and waits
    for a ROM command; the result is whether a device answered. *)
Definition sim_reset (s : owi bus) : bool * owi bus :=
  let ds := devices (dev s) in
  (negb (match ds with [] => true | _ => false end),
   mkOwi (m_crc s) (mkBus ds (map rom_bits ds) RomCommand)).

(** Modelled from the spec: [read(bits)].  The bits arrive least significant
    first. *)
Definition sim_read (bits : Z) (s : owi bus) : Z * owi bus :=
  let '(xs, c, b) := read_slots (Z.to_nat bits) (m_crc s) (dev s) in
  (bits_value xs, mkOwi c b).

(** Modelled from the spec: [write(value, bits)].  A byte written after a
    reset is the ROM command; the simulation knows SEARCH_ROM and READ_ROM
    and lets the devices go idle on any other. *)
Definition sim_write (value bits : Z) (s : owi bus) : owi bus :=
  let b := dev s in
  match phase b with
  | RomCommand =>
      mkOwi (m_crc s)
        (mkBus (devices b) (active b)
           (if (bits =? 8) && (value =? OWI.SEARCH_ROM) then SearchId
            else if (bits =? 8) && (value =? OWI.READ_ROM) then ReadRom
            else Idle))
  | _ => mkOwi (m_crc s) (write_slots (Z.to_nat bits) value b)
  end.

(** Modelled from the spec: the physical layer of the simulated bus. *)
Definition handler : phy bus := mkPhy sim_reset sim_read sim_write.
End Handler.

(** A bus at rest with the given devices on it. *)
Definition init (ds : list (list Z)) : owi bus :=
  mkOwi 0 (mkBus ds [] Idle).

(** The bus right after a reset and the command SEARCH_ROM. *)
Definition searching (ds : list (list Z)) : owi bus :=
  mkOwi 0 (mkBus ds (map rom_bits ds) SearchId).

(** A check function to run the simulation with: CRC-8 with polynomial
    x^8 + x^5 + x^4 + 1, reflected, one bit at a time. *)
Definition crc8_bit (c : Z) (x : bool) : Z :=
  let mix := Z.odd (Z.lxor c (Z.b2z x)) in
  let c1 := Z.shiftr c 1 in
  if mix then Z.lxor c1 0x8C else c1.

End Sim.

(** ** The walk of a pass through the tree of ROM codes *)

(** The decision [search] takes at one position, given the devices still
    active, the bit [hc] the buffer holds there, and [pos], [last], [next]:
    the bit chosen and the new [last] and [next]. *)
Definition choose (act : list (list bool)) (hc : bool) (pos last next : Z)
  : bool * Z * Z :=
  if Sim.all1 act then (true, last, next)
  else if Sim.all0 act then (false, last, next)
  else if pos =? last then (true, OWI.FIRST, next)
  else if pos >? last then (false, last, pos)
  else if hc then (true, last, next)
  else (false, last, pos).

(** [n] positions of a pass, from position [pos] with devices [act] active and
    [c] the bits the buffer holds from [pos] on. *)
Fixpoint walk (n : nat) (act : list (list bool)) (c : list bool)
    (pos last next : Z) : list bool * (list (list bool) * Z * Z) :=
  match n with
  | O => ([], (act, last, next))
  | S n' =>
      let '(b, last', next') := choose act (hd false c) pos last next in
      let '(bs, fin) := walk n' (Sim.sel b act) (tl c) (pos + 1) last' next' in
      (b :: bs, fin)
  end.

(** The codes below a node of the tree in the order the passes reach them,
    each with the deepest position at or below the node where its pass takes
    the 0-branch of a discrepancy ([None] if there is none). *)
Definition branch0 (pos : Z) (other : bool) (x : list bool * option Z)
  : list bool * option Z :=
  (false :: fst x,
   match snd x with
   | Some q => Some q
   | None => if other then Some pos else None
   end).

Definition branch1 (x : list bool * option Z) : list bool * option Z :=
  (true :: fst x, snd x).

Definition nonempty {A} (l : list A) : bool :=
  match l with [] => false | _ => true end.

Fixpoint enumc (n : nat) (pos : Z) (act : list (list bool))
  : list (list bool * option Z) :=
  if nonempty act then
    match n with
    | O => [([], None)]
    | S n' =>
        map (branch0 pos (nonempty (Sim.sel true act)))
            (enumc n' (pos + 1) (Sim.sel false act))
        ++ map branch1 (enumc n' (pos + 1) (Sim.sel true act))
    end
  else [].

(** The cursor a pass returns for an entry of [enumc]. *)
Definition cursor (r : option Z) : Z :=
  match r with Some q => q | None => OWI.LAST end.

(** The order in which the chained passes reach the devices [ds], each with
    the cursor its pass returns. *)
Definition search_order (ds : list (list Z)) : list (list Z * Z) :=
  map (fun x => (bytes_of_bits 8 (fst x), cursor (snd x)))
      (enumc 64 0 (map rom_bits ds)).

(** The entries at which [search_rom] returns to its caller: those of the
    requested family (0 for any), and the one that ends the search. *)
Definition stops (family : Z) (x : list Z * Z) : bool :=
  (snd x =? OWI.LAST) || (family =? 0) || (get (fst x) 0 =? family).

(** The codes [enumerate] visits on such a bus. *)
Definition visit_order (family : Z) (ds : list (list Z)) : list (list Z) :=
  map fst (filter (stops family) (search_order ds)).

(** ** A bus with a transient fault *)

(** A bus on which a single device of code FF..FF is present and the first
    [n] 2-bit reads are lost (both bits read 1). *)
Definition glitch : phy nat :=
  mkPhy (fun s => (true, s))
        (fun bits s =>
           match dev s with
           | O => (if bits =? 2 then 1 else 0xFF, s)
           | S n => (if bits =? 2 then 3 else 0xFF, mkOwi (m_crc s) n)
           end)
        (fun _ _ s => s).

(** ** Reading a block, by the description *)

(** [count] successive byte reads on the physical layer, in order: the bytes
    and the state they leave. *)
Fixpoint read_bytes {D} (h : phy D) (count : nat) (s : owi D)
  : list Z * owi D :=
  match count with
  | O => ([], s)
  | S count' =>
      let '(v, s1) := phy_read h OWI.CHARBITS s in
      let '(vs, s2) := read_bytes h count' s1 in
      (u8 v :: vs, s2)
  end.

Definition is_reset (e : event) : bool :=
  match e with EvReset _ => true | _ => false end.

(** ** One position of a pass, without the bus *)

(** What [search_bit] does with the pair [v] it read, given the bit [hc]
    the buffer holds at this position: [None] for [return (ERROR)],
    otherwise the direction bit written (if any) and the locals after the
    iteration. *)
Definition bit_outcome (v : Z) (hc : bool) (r : OWI.regs)
  : option (option bool * OWI.regs) :=
  let data0 := Z.shiftr (OWI.data r) 1 in
  let data1 := u8 (Z.lor data0 0x80) in
  let pos1 := u8 (OWI.pos r + 1) in
  if v =? 0 then
    if OWI.pos r =? OWI.last r then
      Some (Some true, OWI.mkRegs pos1 (OWI.next r) OWI.FIRST data1)
    else if OWI.pos r >? OWI.last r then
      Some (Some false, OWI.mkRegs pos1 (OWI.pos r) (OWI.last r) data0)
    else if hc then
      Some (Some true, OWI.mkRegs pos1 (OWI.next r) (OWI.last r) data1)
    else
      Some (Some false, OWI.mkRegs pos1 (OWI.pos r) (OWI.last r) data0)
  else if v =? 1 then
    Some (Some true, OWI.mkRegs pos1 (OWI.next r) (OWI.last r) data1)
  else if v =? 2 then
    Some (Some false, OWI.mkRegs pos1 (OWI.next r) (OWI.last r) data0)
  else if v =? 3 then None
  else Some (None, OWI.mkRegs pos1 (OWI.next r) (OWI.last r) data0).

(** Invariant of a pass after [k] positions: [t] is [k] rounds, and [next]
    is the deepest discrepancy among them at which the 0-branch was taken. *)
Definition pass_inv (k : Z) (nx : Z) (t : list event) : Prop :=
  exists rds,
    t = flat_map block rds /\ Z.of_nat (length rds) = k /\
    nx = List.last (zero_branches 0 rds) OWI.LAST /\
    Forall (fun p => 0 <= p < k /\ p <= nx) (zero_branches 0 rds).

(** A pass that stopped on the pair (1,1) after [k] complete positions. *)
Definition pass_fault (k : Z) (t : list event) : Prop :=
  exists rds,
    t = flat_map block rds ++ [EvRead 2 3] /\ Z.of_nat (length rds) = k.

(** The shallowest and the deepest of the positions [zbs] (ascending), LAST
    if there is none. *)
Definition shallowest (zbs : list Z) : Z := hd OWI.LAST zbs.
Definition deepest (zbs : list Z) : Z := List.last zbs OWI.LAST.

(** Three devices whose codes differ in the first two bits: 00, 01 and 1. *)
Definition rom (b0 : Z) : list Z := [b0; 0; 0; 0; 0; 0; 0; 0].
Definition three_devices : list (list Z) := [rom 0; rom 2; rom 1].

(** [data >>= 1], then [data |= 0x80] when the bit chosen is 1. *)
Definition shift_in (b : bool) (d : Z) : Z :=
  if b then u8 (Z.lor (Z.shiftr d 1) 0x80) else Z.shiftr d 1.

(** The bits chosen by a walk and the [next] it ends with. *)
Definition walk_out (w : list bool * (list (list bool) * Z * Z))
  : list bool * Z :=
  (fst w, snd (snd w)).

(** All remaining bit sequences have length [n]. *)
Definition uniform (n : nat) (act : list (list bool)) : Prop :=
  Forall (fun d => length d = n) act.

(** Consecutive elements of a list are related by [R]. *)
Fixpoint Chain {A} (R : A -> A -> Prop) (l : list A) : Prop :=
  match l with
  | [] => True
  | x :: t =>
      match t with
      | [] => True
      | y :: _ => R x y
      end /\ Chain R t
  end.

(** [y] follows [x] in the search below a node: the pass that starts from
    the code and cursor of [x] produces the code and cursor of [y]. *)
Definition follows (n : nat) (act : list (list bool)) (pos : Z)
    (x y : list bool * option Z) : Prop :=
  exists q, snd x = Some q /\ pos <= q < pos + Z.of_nat n /\
    forall next,
      walk_out (walk n act (fst x) pos q next)
      = (fst y, match snd y with Some q' => q' | None => next end).

(** What one pass on the simulated bus with devices [ds] makes of a buffer
    and a cursor: the new buffer and the cursor returned. *)
Definition pass_out (ds : list (list Z)) (code : list Z) (last : Z)
  : list Z * Z :=
  let wo := walk_out (walk 64 (map rom_bits ds) (rom_bits code) 0 last
                           OWI.LAST) in
  (bytes_of_bits 8 (fst wo), snd wo).

(** The entries [L] are what successive passes produce, starting from the
    buffer [code] and the cursor [last], and only the last of them returns
    LAST. *)
Fixpoint Linked (ds : list (list Z)) (code : list Z) (last : Z)
    (L : list (list Z * Z)) : Prop :=
  match L with
  | [] => True
  | y :: L' =>
      pass_out ds code last = y /\ 0 <= snd y /\
      (L' = [] <-> snd y = OWI.LAST) /\
      Linked ds (fst y) (snd y) L'
  end.

(** An entry of [enumc] as bytes and cursor. *)
Definition entry (x : list bool * option Z) : list Z * Z :=
  (bytes_of_bits 8 (fst x), cursor (snd x)).

(** Four devices of two families, and one device with a valid check byte. *)
Definition four_devices : list (list Z) :=
  [[0x28; 1; 0; 0; 0; 0; 0; 0]; [0x10; 1; 0; 0; 0; 0; 0; 0];
   [0x28; 2; 0; 0; 0; 0; 0; 0]; [0x11; 7; 0; 0; 0; 0; 0; 9]].
Definition checked_rom : list Z := [0x02; 0x1C; 0xB8; 0x01; 0; 0; 0; 0xA2].

(** The bit a buffer holds at position [p] of a ROM code. *)
Definition codebit (code : list Z) (p : nat) : bool :=
  Z.testbit (get code (p / 8)) (Z.of_nat (p mod 8)).

(** Invariant of a pass after [k] positions, for the caller's buffer [code]
    and cursor [last_in]: the local [last] is still the cursor or, past it,
    FIRST; and every discrepancy so far at a position before the cursor was
    answered with the bit the caller's buffer holds there. *)
Definition follow_inv (code : list Z) (last_in : Z) (k : Z) (last_now : Z)
    (t : list event) : Prop :=
  (last_now = last_in \/ (last_now = OWI.FIRST /\ last_in < k)) /\
  exists rds,
    t = flat_map block rds /\ Z.of_nat (length rds) = k /\
    forall p b, nth_error rds p = Some (0, Some b) ->
                Z.of_nat p < last_in -> b = Z.b2z (codebit code p).

(** ** Further definitions for the properties beyond the claims *)

(** The bytes [bs] written one after the other, eight bits each: the state
    they leave and the bus operations. *)
Definition write_bytes {D} (h : phy D) (bs : list Z) (s : owi D) : owi D :=
  fold_left (fun s' b => phy_write h b OWI.CHARBITS s') bs s.

(** The bit a round stores into the code: the direction written, 0 when
    nothing was written. *)
Definition stored (rd : Z * option Z) : bool :=
  match snd rd with
  | Some b => negb (b =? 0)
  | None => false
  end.

(** The bit stored at position [p] of a pass with rounds [rds]. *)
Definition stored_at (rds : list (Z * option Z)) (p : nat) : bool :=
  match nth_error rds p with
  | Some rd => stored rd
  | None => false
  end.

(** What [search] may do in a round that is not a fault: at an agreement
    (pairs 1 and 2) it writes the bit the devices agree on, at a discrepancy
    (pair 0) it writes a bit of its choice, and for a value outside the case
    labels it writes nothing. *)
Definition legal_round (rd : Z * option Z) : Prop :=
  match rd with
  | (v, Some b) => (v = 0 /\ (b = 0 \/ b = 1)) \/ (v = 1 /\ b = 1)
                   \/ (v = 2 /\ b = 0)
  | (v, None) => v <> 0 /\ v <> 1 /\ v <> 2 /\ v <> 3
  end.

(** Two buffers that have the same length and the same first [k] bytes. *)
Definition same_prefix (k : nat) (c1 c2 : list Z) : Prop :=
  length c1 = length c2 /\ forall i, (i < k)%nat -> get c1 i = get c2 i.

(** The order of ROM codes on the wire: [a] comes before [b] when, at the
    first position where they differ, [a] has a 0. *)
Fixpoint bits_lt (a b : list bool) : bool :=
  match a, b with
  | x :: a', y :: b' => if Bool.eqb x y then bits_lt a' b' else negb x
  | _, _ => false
  end.

Definition code_lt (a b : list Z) : Prop :=
  bits_lt (rom_bits a) (rom_bits b) = true.
(** * Proofs *)

(** ** Running programs: basic facts *)

Section Exec.
Context {D : Type} (h : phy D).

Lemma exec_bind {A B} (m : prog A) (f : A -> prog B) (s : owi D) :
  exec h (bind m f) s =
  let '(a, s1, t1) := exec h m s in
  let '(b, s2, t2) := exec h (f a) s1 in
  (b, s2, t1 ++ t2).
Proof.
  revert s; induction m as [a|k IH|bits k IH|v bits k IH|k IH|v k IH];
    intros s; simpl.
  - destruct (exec h (f a) s) as [[b s2] t2]; reflexivity.
  - destruct (phy_reset h s) as [ok s1]. rewrite IH.
    destruct (exec h (k ok) s1) as [[a s2] t1].
    destruct (exec h (f a) s2) as [[b s3] t2]; reflexivity.
  - destruct (phy_read h bits s) as [v s1]. rewrite IH.
    destruct (exec h (k (u8 v)) s1) as [[a s2] t1].
    destruct (exec h (f a) s2) as [[b s3] t2]; reflexivity.
  - rewrite IH.
    destruct (exec h k (phy_write h v bits s)) as [[a s2] t1].
    destruct (exec h (f a) s2) as [[b s3] t2]; reflexivity.
  - apply IH.
  - apply IH.
Qed.

Lemma exec_reset (s : owi D) :
  exec h reset s = (fst (phy_reset h s), snd (phy_reset h s),
                    [EvReset (fst (phy_reset h s))]).
Proof. simpl. destruct (phy_reset h s); reflexivity. Qed.

Lemma exec_read bits (s : owi D) :
  exec h (read bits) s =
  (u8 (fst (phy_read h bits s)), snd (phy_read h bits s),
   [EvRead bits (u8 (fst (phy_read h bits s)))]).
Proof. simpl. destruct (phy_read h bits s); reflexivity. Qed.

Lemma exec_write v bits (s : owi D) :
  exec h (write v bits) s = (tt, phy_write h v bits s, [EvWrite v bits]).
Proof. reflexivity. Qed.

(** Invariant rule for [for_loop]: [I] relates the loop counter, the
    locals, the bus state and the operations performed so far. *)
Lemma for_loop_rule {R St} (body : nat -> St -> prog (R + St))
    (I : nat -> St -> owi D -> list event -> Prop)
    (Q : R -> owi D -> list event -> Prop) (hi : nat) :
  (forall i st s t, (i < hi)%nat -> I i st s t ->
     match exec h (body i st) s with
     | (inl v, s', t') => Q v s' (t ++ t')
     | (inr st', s', t') => I (S i) st' s' (t ++ t')
     end) ->
  forall n i st s t, (n + i = hi)%nat -> I i st s t ->
    match exec h (for_loop n i body st) s with
    | (inl v, s', t') => Q v s' (t ++ t')
    | (inr st', s', t') => I hi st' s' (t ++ t')
    end.
Proof.
  intros Hbody. induction n as [|n IH]; intros i st s t Hn HI; simpl.
  - rewrite app_nil_r. simpl in Hn. subst i. exact HI.
  - rewrite exec_bind. specialize (Hbody i st s t ltac:(lia) HI).
    destruct (exec h (body i st) s) as [[[v|st'] s1] t1]; simpl.
    + rewrite app_nil_r. exact Hbody.
    + specialize (IH (S i) st' s1 (t ++ t1) ltac:(lia) Hbody).
      destruct (exec h (for_loop n (S i) body st') s1) as [[[v|st''] s2] t2];
        rewrite app_assoc; exact IH.
Qed.
End Exec.

(** ** Buffers *)

Lemma upd_length buf i v : length (upd buf i v) = length buf.
Proof.
  revert i; induction buf as [|x t IH]; intros [|i]; simpl; auto.
Qed.

Lemma upd_split buf i v :
  (i < length buf)%nat ->
  upd buf i v = firstn i buf ++ v :: skipn (S i) buf.
Proof.
  revert i; induction buf as [|x t IH]; intros [|i] Hi; simpl in *; try lia.
  - reflexivity.
  - f_equal. apply IH. lia.
Qed.

Lemma firstn_upd_end buf i v :
  (i < length buf)%nat -> firstn (S i) (upd buf i v) = firstn i buf ++ [v].
Proof.
  revert i; induction buf as [|x t IH]; intros [|i] Hi; simpl in *; try lia.
  - reflexivity.
  - f_equal. apply IH. lia.
Qed.

Lemma skipn_upd buf i n v :
  (i < n)%nat -> skipn n (upd buf i v) = skipn n buf.
Proof.
  revert i n; induction buf as [|x t IH]; intros [|i] [|n] Hi;
    simpl in *; try lia; auto.
  apply IH. lia.
Qed.

Lemma firstn_upd buf i n v :
  (n <= i)%nat -> firstn n (upd buf i v) = firstn n buf.
Proof.
  revert i n; induction buf as [|x t IH]; intros [|i] [|n] Hi;
    simpl in *; try lia; auto.
  f_equal. apply IH. lia.
Qed.

Lemma get_upd_other buf i k v : i <> k -> get (upd buf i v) k = get buf k.
Proof.
  unfold get. revert i k; induction buf as [|x t IH]; intros [|i] [|k] Hi;
    simpl in *; try lia; auto.
Qed.

Lemma get_upd_same buf i v : (i < length buf)%nat -> get (upd buf i v) i = v.
Proof.
  unfold get. revert i; induction buf as [|x t IH]; intros [|i] Hi;
    simpl in *; try lia; auto. apply IH; lia.
Qed.

Lemma memcpy_exact dst src :
  length src = OWI.ROM_MAX -> length dst = OWI.ROM_MAX ->
  memcpy dst src OWI.ROM_MAX = src.
Proof.
  intros Hs Hd. unfold memcpy.
  rewrite <- Hs at 1. rewrite firstn_all.
  rewrite <- Hd, skipn_all. apply app_nil_r.
Qed.

(** ** [read(buf, count)] *)

Section Engine.
Context {D : Type} (h : phy D).

Lemma read_loop_spec count : forall bp buf s,
  (bp + count <= length buf)%nat ->
  exec h (OWI.read_loop count bp buf) s =
  let '(vs, s') := read_bytes h count s in
  (firstn bp buf ++ vs ++ skipn (bp + count) buf, s',
   map (EvRead OWI.CHARBITS) vs).
Proof.
  induction count as [|count IH]; intros bp buf s Hlen; simpl.
  - rewrite Nat.add_0_r, firstn_skipn. reflexivity.
  - destruct (phy_read h OWI.CHARBITS s) as [v s1] eqn:Hr.
    rewrite IH by (rewrite upd_length; lia).
    destruct (read_bytes h count s1) as [vs s2].
    rewrite firstn_upd_end, skipn_upd by lia.
    replace (S bp + count)%nat with (bp + S count)%nat by lia.
    rewrite <- app_assoc. reflexivity.
Qed.

Lemma read_bytes_length count : forall s,
  length (fst (read_bytes h count s)) = count.
Proof.
  induction count as [|count IH]; intros s; simpl; auto.
  destruct (phy_read h OWI.CHARBITS s) as [v s1].
  specialize (IH s1). destruct (read_bytes h count s1); simpl in *. lia.
Qed.
End Engine.

(** ** One position of a pass *)

Lemma b2z_testbit_pos (b : bool) (m : Z) :
  0 < m -> Z.testbit (Z.b2z b) m = false.
Proof.
  intros Hm. destruct b; simpl.
  - destruct m as [|p|p]; try lia. destruct p; reflexivity.
  - apply Z.bits_0.
Qed.

Lemma land_mask (x j : Z) :
  0 <= j -> Z.land x (Z.shiftl 1 j) = Z.shiftl (Z.b2z (Z.testbit x j)) j.
Proof.
  intros Hj. apply Z.bits_inj'. intros n Hn.
  rewrite Z.land_spec, !Z.shiftl_spec by lia.
  destruct (Z.lt_trichotomy n j) as [Hlt|[Heq|Hgt]].
  - rewrite (Z.testbit_neg_r 1), (Z.testbit_neg_r (Z.b2z _)) by lia.
    apply andb_false_r.
  - subst n. rewrite Z.sub_diag. change (Z.testbit 1 0) with true.
    rewrite andb_true_r, Z.b2z_bit0. reflexivity.
  - rewrite (b2z_testbit_pos true), b2z_testbit_pos by lia.
    apply andb_false_r.
Qed.

Lemma mask_test (x : Z) (j : nat) :
  negb (Z.land x (Z.shiftl 1 (Z.of_nat j)) =? 0) = Z.testbit x (Z.of_nat j).
Proof.
  rewrite land_mask by lia.
  destruct (Z.testbit x (Z.of_nat j)); simpl.
  - rewrite Z.shiftl_1_l.
    assert (0 < 2 ^ Z.of_nat j) by (apply Z.pow_pos_nonneg; lia).
    destruct (Z.eqb_spec (2 ^ Z.of_nat j) 0); [lia | reflexivity].
  - rewrite Z.shiftl_0_l. reflexivity.
Qed.

Section Pass.
Context {D : Type} (h : phy D).

(** [search_bit] on any bus is [bit_outcome] of the pair the bus returns. *)
Lemma exec_search_bit code i j r s :
  exec h (OWI.search_bit code i j r) s =
  let v := u8 (fst (phy_read h 2 s)) in
  let s1 := snd (phy_read h 2 s) in
  match bit_outcome v (Z.testbit (get code i) (Z.of_nat j)) r with
  | None => (inl tt, s1, [EvRead 2 v])
  | Some (None, r') => (inr r', s1, [EvRead 2 v])
  | Some (Some b, r') =>
      (inr r', phy_write h (Z.b2z b) 1 s1, [EvRead 2 v; EvWrite (Z.b2z b) 1])
  end.
Proof.
  unfold OWI.search_bit, bit_outcome. rewrite exec_bind, exec_read.
  cbv zeta. rewrite mask_test.
  destruct (phy_read h 2 s) as [v0 s1]; cbn [fst snd].
  repeat match goal with
         | |- context [if ?c then _ else _] => destruct c
         end; reflexivity.
Qed.
End Pass.

(** ** The rounds of a pass *)

Lemma zero_branches_app rds1 : forall p rds2,
  zero_branches p (rds1 ++ rds2) =
  zero_branches p rds1 ++ zero_branches (p + Z.of_nat (length rds1)) rds2.
Proof.
  induction rds1 as [|[v o] t IH]; intros p rds2.
  - simpl. rewrite Z.add_0_r. reflexivity.
  - assert (Hq : p + Z.of_nat (length ((v, o) :: t))
                 = p + 1 + Z.of_nat (length t))
      by (cbn [length]; lia).
    rewrite Hq.
    destruct v as [|v|v]; [destruct o as [[|b|b]|] | |]; simpl;
      rewrite IH; reflexivity.
Qed.

Lemma zero_branches_other p rd : rd <> (0, Some 0) -> zero_branches p [rd] = [].
Proof.
  destruct rd as [[|v|v] [[|b|b]|]]; simpl; congruence.
Qed.

Lemma flat_map_snoc {A B} (f : A -> list B) l x :
  flat_map f (l ++ [x]) = flat_map f l ++ f x.
Proof. rewrite flat_map_app. simpl. rewrite app_nil_r. reflexivity. Qed.

Lemma pass_inv_snoc_zero k nx t :
  0 <= k -> pass_inv k nx t -> pass_inv (k + 1) k (t ++ block (0, Some 0)).
Proof.
  intros Hk (rds & Ht & Hlen & Hnx & Hall).
  exists (rds ++ [(0, Some 0)]). repeat split.
  - rewrite flat_map_snoc, Ht. reflexivity.
  - rewrite length_app. simpl. lia.
  - rewrite zero_branches_app. simpl. rewrite last_last. lia.
  - rewrite zero_branches_app. simpl. apply Forall_app. split.
    + eapply Forall_impl; [|exact Hall]. simpl. intros; lia.
    + constructor; [lia | constructor].
Qed.

Lemma pass_inv_snoc_other k nx t rd :
  rd <> (0, Some 0) -> pass_inv k nx t -> pass_inv (k + 1) nx (t ++ block rd).
Proof.
  intros Hrd (rds & Ht & Hlen & Hnx & Hall).
  exists (rds ++ [rd]). repeat split.
  - rewrite flat_map_snoc, Ht. reflexivity.
  - rewrite length_app. simpl. lia.
  - rewrite zero_branches_app, zero_branches_other, app_nil_r by exact Hrd.
    exact Hnx.
  - rewrite zero_branches_app, zero_branches_other, app_nil_r by exact Hrd.
    eapply Forall_impl; [|exact Hall]. simpl. intros; lia.
Qed.

Lemma pass_inv_range k nx t :
  0 <= k <= 64 -> pass_inv k nx t -> nx = OWI.LAST \/ 0 <= nx < k.
Proof.
  intros Hk (rds & _ & _ & Hnx & Hall).
  destruct (zero_branches 0 rds) as [|z zs] eqn:Hz.
  - left. exact Hnx.
  - right. assert (Hin : In nx (z :: zs)).
    { rewrite Hnx. destruct (exists_last (l := z :: zs)) as (l' & a & ->);
        [discriminate|].
      rewrite last_last. apply in_or_app. right. left. reflexivity. }
    rewrite Forall_forall in Hall. apply Hall in Hin. lia.
Qed.

(** [bit_outcome] keeps the invariant. *)
Lemma bit_outcome_inv k v hc r t :
  0 <= k < 64 -> OWI.pos r = k -> pass_inv k (OWI.next r) t ->
  match bit_outcome v hc r with
  | None => v = 3
  | Some (wb, r') =>
      OWI.pos r' = k + 1 /\
      pass_inv (k + 1) (OWI.next r') (t ++ block (v, option_map Z.b2z wb))
  end.
Proof.
  intros Hk Hpos Hinv. unfold bit_outcome.
  assert (Hp1 : u8 (OWI.pos r + 1) = k + 1)
    by (unfold u8; rewrite Z.mod_small; lia).
  rewrite Hp1.
  destruct (Z.eqb_spec v 0) as [->|H0].
  - destruct (OWI.pos r =? OWI.last r).
    + split; [reflexivity|].
      apply pass_inv_snoc_other; [discriminate|exact Hinv].
    + destruct (OWI.pos r >? OWI.last r).
      * split; [reflexivity|]. cbn [OWI.next]. rewrite Hpos.
        eapply pass_inv_snoc_zero; [lia|exact Hinv].
      * destruct hc.
        -- split; [reflexivity|].
           apply pass_inv_snoc_other; [discriminate|exact Hinv].
        -- split; [reflexivity|]. cbn [OWI.next]. rewrite Hpos.
           eapply pass_inv_snoc_zero; [lia|exact Hinv].
  - destruct (Z.eqb_spec v 1) as [->|H1].
    { split; [reflexivity|].
      apply pass_inv_snoc_other; [discriminate|exact Hinv]. }
    destruct (Z.eqb_spec v 2) as [->|H2].
    { split; [reflexivity|].
      apply pass_inv_snoc_other; [discriminate|exact Hinv]. }
    destruct (Z.eqb_spec v 3) as [->|H3]; [reflexivity|].
    split; [reflexivity|].
    apply pass_inv_snoc_other; try exact Hinv.
    simpl. intros Heq. inversion Heq.
Qed.

Section PassInv.
Context {D : Type} (h : phy D).

(** The inner loop of [search] for byte [i], entered after [8 * i]
    positions. *)
Lemma search_inner_inv code (i : nat) r0 s t :
  (i < 8)%nat ->
  OWI.pos r0 = 8 * Z.of_nat i ->
  pass_inv (8 * Z.of_nat i) (OWI.next r0) t ->
  match exec h (for_loop 8 0 (OWI.search_bit code i) r0) s with
  | (inl _, _, t') => exists k, 0 <= k < 64 /\ pass_fault k (t ++ t')
  | (inr r', _, t') =>
      OWI.pos r' = 8 * Z.of_nat (S i) /\
      pass_inv (8 * Z.of_nat (S i)) (OWI.next r') (t ++ t')
  end.
Proof.
  intros Hi Hpos Hinv.
  pose (I := fun (j : nat) (r : OWI.regs) (_ : owi D) (t : list event) =>
               OWI.pos r = 8 * Z.of_nat i + Z.of_nat j /\
               pass_inv (8 * Z.of_nat i + Z.of_nat j) (OWI.next r) t).
  pose (Q := fun (_ : unit) (_ : owi D) (t : list event) =>
               exists k, 0 <= k < 64 /\ pass_fault k t).
  pose proof (@for_loop_rule D h unit OWI.regs
                (OWI.search_bit code i) I Q 8%nat) as Hrule.
  lapply Hrule; [clear Hrule; intros Hrule|].
  2: { intros j r s1 t1 Hj [Hp Hv]. rewrite exec_search_bit. cbv zeta.
    pose proof (@bit_outcome_inv (8 * Z.of_nat i + Z.of_nat j)
                  (u8 (fst (phy_read h 2 s1)))
                  (Z.testbit (get code i) (Z.of_nat j)) r t1
                  ltac:(lia) Hp Hv) as Hstep.
    destruct (bit_outcome _ _ r) as [[[b|] r']|].
    + destruct Hstep as [Hp' Hv']. split.
      * rewrite Hp'. lia.
      * replace (8 * Z.of_nat i + Z.of_nat (S j))
          with (8 * Z.of_nat i + Z.of_nat j + 1) by lia.
        exact Hv'.
    + destruct Hstep as [Hp' Hv']. split.
      * rewrite Hp'. lia.
      * replace (8 * Z.of_nat i + Z.of_nat (S j))
          with (8 * Z.of_nat i + Z.of_nat j + 1) by lia.
        exact Hv'.
    + rewrite Hstep. exists (8 * Z.of_nat i + Z.of_nat j). split; [lia|].
      destruct Hv as (rds & Ht & Hlen & _). exists rds. subst t1.
      split; [reflexivity | exact Hlen]. }
  specialize (Hrule 8%nat 0%nat r0 s t eq_refl).
  assert (HI : I 0%nat r0 s t).
  { unfold I. change (Z.of_nat 0) with 0. rewrite Z.add_0_r.
    split; assumption. }
  specialize (Hrule HI).
  destruct (exec h (for_loop 8 0 (OWI.search_bit code i) r0) s)
    as [[[u|r'] s'] t'].
  - exact Hrule.
  - destruct Hrule as [Hp Hv].
    replace (8 * Z.of_nat (S i)) with (8 * Z.of_nat i + Z.of_nat 8) by lia.
    split; assumption.
Qed.
End PassInv.

Section PassOuter.
Context {D : Type} (h : phy D).

Lemma pass_inv_start : pass_inv 0 OWI.LAST [].
Proof.
  exists []. repeat split. constructor.
Qed.

(** A pass either stops on a pair (1,1) and returns ERROR, or completes 64
    rounds and returns [next]. *)
Lemma search_pass code last s :
  match exec h (OWI.search code last) s with
  | ((r, _), _, t) =>
      (r = OWI.ERROR /\ exists k, 0 <= k < 64 /\ pass_fault k t) \/
      pass_inv 64 r t
  end.
Proof.
  unfold OWI.search. rewrite exec_bind.
  pose (I := fun (i : nat) (st : list Z * OWI.regs) (_ : owi D)
                 (t : list event) =>
               OWI.pos (snd st) = 8 * Z.of_nat i /\
               pass_inv (8 * Z.of_nat i) (OWI.next (snd st)) t).
  pose (Q := fun (res : Z * list Z) (_ : owi D) (t : list event) =>
               fst res = OWI.ERROR /\
               exists k, 0 <= k < 64 /\ pass_fault k t).
  pose proof (@for_loop_rule D h (Z * list Z) (list Z * OWI.regs)
                OWI.search_byte I Q 8%nat) as Hrule.
  lapply Hrule; [clear Hrule; intros Hrule|].
  2: { intros i [c r] s1 t1 Hi [Hp Hv]. cbn [snd] in Hp, Hv.
       unfold OWI.search_byte. rewrite exec_bind.
       pose proof (@search_inner_inv D h c i
                     (OWI.mkRegs (OWI.pos r) (OWI.next r) (OWI.last r) 0)
                     s1 t1 Hi Hp Hv) as Hin.
       destruct (exec h (for_loop 8 0 (OWI.search_bit c i) _) s1)
         as [[[u|r'] s2] t2]; simpl; rewrite app_nil_r.
       - split; [reflexivity | exact Hin].
       - exact Hin. }
  specialize (Hrule 8%nat 0%nat (code, OWI.mkRegs 0 OWI.LAST last 0) s []
                eq_refl).
  lapply Hrule; [clear Hrule; intros Hrule|].
  2: { split; [reflexivity | exact pass_inv_start]. }
  destruct (exec h (for_loop 8 0 OWI.search_byte _) s)
    as [[[[r c]|[c r]] s'] t']; simpl in *; rewrite app_nil_r.
  - left. exact Hrule.
  - right. destruct Hrule as [_ Hv]. exact Hv.
Qed.

Lemma search_range code last s :
  -1 <= fst (result (exec h (OWI.search code last) s)) <= 64.
Proof.
  pose proof (search_pass code last s) as H.
  destruct (exec h (OWI.search code last) s) as [[[r c] s'] t].
  unfold result; simpl.
  destruct H as [[-> _]|H].
  - unfold OWI.ERROR. lia.
  - apply pass_inv_range in H; [|lia].
    destruct H as [->|H]; [unfold OWI.LAST, OWI.ROMBITS; simpl|]; lia.
Qed.

(** A pass performs no reset. *)
Lemma search_no_reset code last s :
  forallb (fun e => negb (is_reset e))
          (trace (exec h (OWI.search code last) s)) = true.
Proof.
  pose proof (search_pass code last s) as H.
  destruct (exec h (OWI.search code last) s) as [[[r c] s'] t].
  unfold trace; simpl.
  assert (Hb : forall rds,
             forallb (fun e => negb (is_reset e)) (flat_map block rds)
             = true).
  { induction rds as [|[v [b|]] rds IH]; simpl; auto. }
  destruct H as [[_ (k & _ & rds & -> & _)]|(rds & -> & _)].
  - rewrite forallb_app, Hb. reflexivity.
  - apply Hb.
Qed.
End PassOuter.

(** ** [search_rom] and the other transactions *)

Section Transactions.
Context {D : Type} (h : phy D).

(** One iteration of the loop of [search_rom]. *)
Lemma exec_search_rom_S fuel family code last s :
  exec h (OWI.search_rom (S fuel) family code last) s =
  let '(ok, s1) := phy_reset h s in
  if negb ok then ((Some OWI.ERROR, code), s1, [EvReset ok])
  else
    let s2 := phy_write h OWI.SEARCH_ROM OWI.CHARBITS s1 in
    let '((last', code'), s3, t) := exec h (OWI.search code last) s2 in
    if negb (last' =? OWI.LAST) && negb (family =? 0)
       && negb (get code' 0 =? family)
    then
      let '(res, s4, t') :=
        exec h (OWI.search_rom fuel family code' last') s3 in
      (res, s4, EvReset ok :: EvWrite OWI.SEARCH_ROM OWI.CHARBITS :: t ++ t')
    else ((Some last', code'), s3,
          EvReset ok :: EvWrite OWI.SEARCH_ROM OWI.CHARBITS :: t).
Proof.
  cbn [OWI.search_rom]. rewrite exec_bind, exec_reset.
  destruct (phy_reset h s) as [ok s1]; cbn [fst snd].
  destruct ok; cbn [negb].
  - rewrite exec_bind, exec_write, exec_bind.
    destruct (exec h (OWI.search code last) _) as [[[last' code'] s3] t].
    destruct (negb (last' =? OWI.LAST) && negb (family =? 0)
              && negb (get code' 0 =? family)).
    + destruct (exec h (OWI.search_rom fuel family code' last') s3)
        as [[res s4] t']. reflexivity.
    + simpl. rewrite app_nil_r. reflexivity.
  - reflexivity.
Qed.

Lemma search_rom_range fuel : forall family code last s,
  match fst (result (exec h (OWI.search_rom fuel family code last) s)) with
  | Some r => -1 <= r <= 64
  | None => True
  end.
Proof.
  induction fuel as [|fuel IH]; intros family code last s.
  - exact I.
  - rewrite exec_search_rom_S.
    destruct (phy_reset h s) as [[|] s1]; cbn [negb].
    + cbv zeta.
      pose proof (search_range h code last
                    (phy_write h OWI.SEARCH_ROM OWI.CHARBITS s1)) as Hr.
      destruct (exec h (OWI.search code last) _) as [[[last' code'] s3] t].
      unfold result in Hr; simpl in Hr.
      destruct (negb (last' =? OWI.LAST) && negb (family =? 0)
                && negb (get code' 0 =? family)).
      * specialize (IH family code' last' s3).
        destruct (exec h (OWI.search_rom fuel family code' last') s3)
          as [[res s4] t']. exact IH.
      * exact Hr.
    + unfold result, OWI.ERROR; simpl. lia.
Qed.

(** With the wildcard family the loop runs once. *)
Lemma search_rom_wildcard fuel code last s :
  fst (result (exec h (OWI.search_rom (S fuel) 0 code last) s)) <> None.
Proof.
  rewrite exec_search_rom_S.
  destruct (phy_reset h s) as [[|] s1]; cbn [negb].
  - cbv zeta.
    destruct (exec h (OWI.search code last) _) as [[[last' code'] s3] t].
    change (0 =? 0) with true. cbn [negb]. rewrite andb_false_r.
    discriminate.
  - discriminate.
Qed.

Lemma exec_alarm_search code last s :
  exec h (OWI.alarm_search code last) s =
  let '(ok, s1) := phy_reset h s in
  if negb ok then ((OWI.ERROR, code), s1, [EvReset ok])
  else
    let '(res, s3, t) :=
      exec h (OWI.search code last)
           (phy_write h OWI.ALARM_SEARCH OWI.CHARBITS s1) in
    (res, s3, EvReset ok :: EvWrite OWI.ALARM_SEARCH OWI.CHARBITS :: t).
Proof.
  unfold OWI.alarm_search. rewrite exec_bind, exec_reset.
  destruct (phy_reset h s) as [ok s1]; cbn [fst snd].
  destruct ok; cbn [negb].
  - rewrite exec_bind, exec_write.
    destruct (exec h (OWI.search code last) _) as [[res s3] t]. reflexivity.
  - reflexivity.
Qed.

Lemma alarm_search_range code last s :
  -1 <= fst (result (exec h (OWI.alarm_search code last) s)) <= 64.
Proof.
  rewrite exec_alarm_search.
  destruct (phy_reset h s) as [[|] s1]; cbn [negb].
  - pose proof (search_range h code last
                  (phy_write h OWI.ALARM_SEARCH OWI.CHARBITS s1)) as Hr.
    destruct (exec h (OWI.search code last) _) as [[res s3] t]. exact Hr.
  - unfold result, OWI.ERROR; simpl. lia.
Qed.

(** A failed reset ends [search_rom] on the spot, in whichever iteration
    it happens. *)
Lemma search_rom_failed_reset fuel : forall family code last s,
  let x := exec h (OWI.search_rom fuel family code last) s in
  In (EvReset false) (trace x) ->
  fst (result x) = Some OWI.ERROR /\
  exists pre, trace x = pre ++ [EvReset false] /\ ~ In (EvReset false) pre.
Proof.
  induction fuel as [|fuel IH]; intros family code last s.
  - simpl. intros [].
  - cbv zeta. rewrite exec_search_rom_S.
    destruct (phy_reset h s) as [[|] s1]; cbn [negb].
    + cbv zeta.
      pose proof (search_no_reset h code last
                    (phy_write h OWI.SEARCH_ROM OWI.CHARBITS s1)) as Hnr.
      destruct (exec h (OWI.search code last) _) as [[[last' code'] s3] t].
      unfold trace in Hnr; simpl in Hnr.
      assert (Hnot : ~ In (EvReset false) t).
      { intros Hin. rewrite forallb_forall in Hnr.
        apply Hnr in Hin. discriminate. }
      destruct (negb (last' =? OWI.LAST) && negb (family =? 0)
                && negb (get code' 0 =? family)).
      * specialize (IH family code' last' s3). cbv zeta in IH.
        destruct (exec h (OWI.search_rom fuel family code' last') s3)
          as [[res s4] t']. unfold trace, result in *; simpl in *.
        intros [Hc|[Hc|Hin]]; try discriminate.
        apply in_app_or in Hin. destruct Hin as [Hin|Hin]; [tauto|].
        destruct (IH Hin) as (Hres & pre & -> & Hpre).
        split; [exact Hres|].
        exists (EvReset true :: EvWrite OWI.SEARCH_ROM OWI.CHARBITS
                  :: t ++ pre).
        split.
        -- simpl. rewrite app_assoc. reflexivity.
        -- simpl. intros [Hc|[Hc|Hc]]; try discriminate.
           apply in_app_or in Hc. tauto.
      * unfold trace; simpl.
        intros [Hc|[Hc|Hin]]; try discriminate. tauto.
    + unfold trace, result; simpl. intros _. split; [reflexivity|].
      exists []. split; [reflexivity | intros []].
Qed.
End Transactions.

(** ** Reading the rounds off a trace *)

Lemma rounds_of_blocks rds : rounds_of (flat_map block rds) = rds.
Proof.
  induction rds as [|[v [b|]] rds IH].
  - reflexivity.
  - simpl. rewrite IH. reflexivity.
  - destruct rds as [|[v' [b'|]] rds'].
    + reflexivity.
    + change (rounds_of (EvRead 2 v :: flat_map block ((v', Some b') :: rds'))
              = (v, None) :: (v', Some b') :: rds').
      rewrite <- IH at 2. reflexivity.
    + change (rounds_of (EvRead 2 v :: flat_map block ((v', None) :: rds'))
              = (v, None) :: (v', None) :: rds').
      rewrite <- IH at 2. reflexivity.
Qed.

Lemma u8_top_bit_set (d : Z) :
  Z.testbit (u8 (Z.lor (Z.shiftr d 1) 0x80)) 7 = true.
Proof.
  unfold u8. change 256 with (2 ^ 8).
  rewrite Z.mod_pow2_bits_low by lia.
  rewrite Z.lor_spec. change (Z.testbit 128 7) with true.
  apply orb_true_r.
Qed.

Lemma shiftr_top_bit_clear (d : Z) :
  0 <= d < 256 -> Z.testbit (Z.shiftr d 1) 7 = false.
Proof.
  intros Hd. rewrite Z.shiftr_spec by lia.
  apply Z.testbit_false; [lia|].
  change (2 ^ (7 + 1)) with 256. rewrite Z.div_small by lia. reflexivity.
Qed.

(** ** The simulated bus during a search *)

Lemma sel_uniform n b act : uniform (S n) act -> uniform n (Sim.sel b act).
Proof.
  unfold uniform, Sim.sel. intros H. induction H as [|d act Hd HS IH]; simpl.
  - constructor.
  - destruct (Bool.eqb (hd true d) b); simpl; [|exact IH].
    constructor; [|exact IH]. destruct d; simpl in *; lia.
Qed.

Lemma all1_sel n act : uniform (S n) act ->
  Sim.all1 act = negb (nonempty (Sim.sel false act)).
Proof.
  unfold uniform, Sim.all1, Sim.sel. intros H.
  induction H as [|d act Hd HS IH]; simpl; [reflexivity|].
  destruct d as [|[|] d]; simpl in *; try lia; auto.
Qed.

Lemma all0_sel n act : uniform (S n) act ->
  Sim.all0 act = negb (nonempty (Sim.sel true act)).
Proof.
  unfold uniform, Sim.all0, Sim.sel. intros H.
  induction H as [|d act Hd HS IH]; simpl; [reflexivity|].
  destruct d as [|[|] d]; simpl in *; try lia; auto.
Qed.

Lemma sel_nonempty n act : uniform (S n) act -> nonempty act = true ->
  nonempty (Sim.sel false act) || nonempty (Sim.sel true act) = true.
Proof.
  unfold uniform, Sim.sel. intros H Hne.
  destruct H as [|d act Hd HS]; [discriminate|].
  destruct d as [|[|] d]; simpl in *; try lia; auto using orb_true_r.
Qed.

(** The branch [choose] takes still has a device on it. *)
Lemma choose_nonempty n act hc pos last next :
  uniform (S n) act -> nonempty act = true ->
  nonempty (Sim.sel (fst (fst (choose act hc pos last next))) act) = true.
Proof.
  intros Hu Hne. unfold choose.
  pose proof (sel_nonempty Hu Hne) as Hor.
  rewrite (all1_sel Hu), (all0_sel Hu).
  destruct (nonempty (Sim.sel false act)) eqn:H0,
           (nonempty (Sim.sel true act)) eqn:H1;
    simpl in *; try discriminate; try assumption.
  repeat match goal with
         | |- context [if ?c then _ else _] => destruct c
         end; simpl; assumption.
Qed.

(** ** Walks *)

Lemma walk_length n : forall act c pos last next,
  length (fst (walk n act c pos last next)) = n.
Proof.
  induction n as [|n IH]; intros act c pos last next; cbn [walk].
  - reflexivity.
  - destruct (choose act (hd false c) pos last next) as [[b l'] n'].
    specialize (IH (Sim.sel b act) (tl c) (pos + 1) l' n').
    destruct (walk n (Sim.sel b act) (tl c) (pos + 1) l' n') as [bs fin].
    simpl in *. lia.
Qed.

Lemma walk_app a b : forall act c pos last next,
  walk (a + b) act c pos last next =
  let w1 := walk a act c pos last next in
  let w2 := walk b (fst (fst (snd w1))) (skipn a c) (pos + Z.of_nat a)
                 (snd (fst (snd w1))) (snd (snd w1)) in
  (fst w1 ++ fst w2, snd w2).
Proof.
  induction a as [|a IH]; intros act c pos last next.
  - cbn [Nat.add walk fst snd skipn app]. cbv zeta. cbn [fst snd app].
    change (Z.of_nat 0) with 0. rewrite Z.add_0_r.
    destruct (walk b act c pos last next); reflexivity.
  - cbn [Nat.add walk]. cbv zeta.
    destruct (choose act (hd false c) pos last next) as [[x l'] n'].
    rewrite IH. cbv zeta.
    destruct (walk a (Sim.sel x act) (tl c) (pos + 1) l' n')
      as [bs1 [[act1 l1] n1]].
    cbn [fst snd].
    replace (pos + 1 + Z.of_nat a) with (pos + Z.of_nat (S a)) by lia.
    replace (skipn (S a) c) with (skipn a (tl c))
      by (destruct c; [rewrite !skipn_nil|]; reflexivity).
    reflexivity.
Qed.

(** Eight bits shifted in from the top make the byte of those bits. *)
Lemma shift_in_byte bs :
  length bs = 8%nat ->
  fold_left (fun d b => shift_in b d) bs 0 = bits_value bs.
Proof.
  intros Hl.
  do 8 (destruct bs as [|? bs]; [discriminate|]).
  destruct bs; [|discriminate].
  repeat match goal with b : bool |- _ => destruct b end; reflexivity.
Qed.

Lemma byte_bits_value bs :
  length bs = 8%nat -> byte_bits (bits_value bs) = bs.
Proof.
  intros Hl.
  do 8 (destruct bs as [|? bs]; [discriminate|]).
  destruct bs; [|discriminate].
  repeat match goal with b : bool |- _ => destruct b end; reflexivity.
Qed.

Lemma bits_value_byte x : 0 <= x < 256 -> bits_value (byte_bits x) = x.
Proof.
  intros Hx.
  assert (Hall : forallb (fun n => bits_value (byte_bits (Z.of_nat n))
                                   =? Z.of_nat n) (seq 0 256) = true)
    by (vm_compute; reflexivity).
  rewrite forallb_forall in Hall.
  specialize (Hall (Z.to_nat x)).
  rewrite Z2Nat.id in Hall by lia.
  apply Z.eqb_eq, Hall, in_seq. lia.
Qed.

Lemma byte_bits_length x : length (byte_bits x) = 8%nat.
Proof. reflexivity. Qed.

Lemma skipn_get code i :
  (i < length code)%nat -> skipn i code = get code i :: skipn (S i) code.
Proof.
  unfold get. revert i; induction code as [|x t IH]; intros [|i] Hi;
    simpl in *; try lia; auto. apply IH. lia.
Qed.

Lemma rom_bits_skipn code i :
  (i < length code)%nat ->
  rom_bits (skipn i code)
  = byte_bits (get code i) ++ rom_bits (skipn (S i) code).
Proof.
  intros Hi. rewrite (@skipn_get code i Hi) at 1. reflexivity.
Qed.

Lemma rom_bits_length d : length (rom_bits d) = (8 * length d)%nat.
Proof.
  induction d as [|x d IH]; [reflexivity|].
  unfold rom_bits in *. cbn [flat_map]. rewrite length_app, IH.
  rewrite byte_bits_length. simpl length. lia.
Qed.

Section SimSearch.
Variable crc_bit : Z -> bool -> Z.

Lemma sim_read_pair c ds act :
  phy_read (Sim.handler crc_bit) 2 (mkOwi c (Sim.mkBus ds act Sim.SearchId)) =
  (Z.b2z (Sim.all1 act) + 2 * (Z.b2z (Sim.all0 act) + 2 * 0),
   mkOwi (crc_bit (crc_bit c (Sim.all1 act)) (Sim.all0 act))
         (Sim.mkBus ds act Sim.SearchDir)).
Proof. reflexivity. Qed.

Lemma sim_write_1 c ds act :
  phy_write (Sim.handler crc_bit) 1 1
    (mkOwi c (Sim.mkBus ds act Sim.SearchDir)) =
  mkOwi c (Sim.mkBus ds (Sim.sel true act) Sim.SearchId).
Proof. reflexivity. Qed.

Lemma sim_write_0 c ds act :
  phy_write (Sim.handler crc_bit) 0 1
    (mkOwi c (Sim.mkBus ds act Sim.SearchDir)) =
  mkOwi c (Sim.mkBus ds (Sim.sel false act) Sim.SearchId).
Proof. reflexivity. Qed.

(** One position of a pass on the simulated bus: the decision is
    [choose], and the devices on the other branch drop out. *)
Lemma sim_search_bit n code i j r c ds act :
  uniform (S n) act -> nonempty act = true ->
  exists c' t,
    exec (Sim.handler crc_bit) (OWI.search_bit code i j r)
         (mkOwi c (Sim.mkBus ds act Sim.SearchId)) =
    let '(b, last', next') :=
      choose act (Z.testbit (get code i) (Z.of_nat j))
             (OWI.pos r) (OWI.last r) (OWI.next r) in
    (inr (OWI.mkRegs (u8 (OWI.pos r + 1)) next' last'
            (shift_in b (OWI.data r))),
     mkOwi c' (Sim.mkBus ds (Sim.sel b act) Sim.SearchId), t).
Proof.
  intros Hu Hne. rewrite exec_search_bit, sim_read_pair. cbv zeta.
  cbn [fst snd]. unfold choose, bit_outcome, shift_in.
  pose proof (sel_nonempty Hu Hne) as Hor.
  rewrite (all1_sel Hu), (all0_sel Hu) in *.
  destruct (nonempty (Sim.sel false act)), (nonempty (Sim.sel true act));
    try discriminate; cbn [negb Z.b2z];
    try change (u8 (0 + 2 * (0 + 2 * 0))) with 0;
    try change (u8 (0 + 2 * (1 + 2 * 0))) with 2;
    try change (u8 (1 + 2 * (0 + 2 * 0))) with 1;
    cbn [Z.eqb Pos.eqb];
    repeat match goal with
           | |- context [if ?c then _ else _] => destruct c
           end;
    first [rewrite sim_write_1 | rewrite sim_write_0];
    eexists _, _; reflexivity.
Qed.

Lemma byte_bits_at (x : Z) (j : nat) rest :
  (j < 8)%nat ->
  hd false (skipn j (byte_bits x) ++ rest) = Z.testbit x (Z.of_nat j) /\
  tl (skipn j (byte_bits x) ++ rest) = skipn (S j) (byte_bits x) ++ rest.
Proof.
  intros Hj.
  do 8 (destruct j as [|j]; [split; reflexivity|]). lia.
Qed.

(** [n] iterations of the inner loop for byte [i], from bit [j]. *)
Lemma sim_inner code i ds rest k n : forall j r c act,
  (j + n <= 8)%nat ->
  uniform (n + k) act -> nonempty act = true ->
  0 <= OWI.pos r -> OWI.pos r + Z.of_nat n <= 255 ->
  exists c' t r' act',
    exec (Sim.handler crc_bit) (for_loop n j (OWI.search_bit code i) r)
         (mkOwi c (Sim.mkBus ds act Sim.SearchId))
    = (inr r', mkOwi c' (Sim.mkBus ds act' Sim.SearchId), t) /\
    walk n act (skipn j (byte_bits (get code i)) ++ rest)
         (OWI.pos r) (OWI.last r) (OWI.next r)
    = (fst (walk n act (skipn j (byte_bits (get code i)) ++ rest)
                 (OWI.pos r) (OWI.last r) (OWI.next r)),
       (act', OWI.last r', OWI.next r')) /\
    OWI.pos r' = OWI.pos r + Z.of_nat n /\
    OWI.data r'
    = fold_left (fun d b => shift_in b d)
        (fst (walk n act (skipn j (byte_bits (get code i)) ++ rest)
                   (OWI.pos r) (OWI.last r) (OWI.next r)))
        (OWI.data r) /\
    nonempty act' = true /\ uniform k act'.
Proof.
  induction n as [|n IH]; intros j r c act Hj Hu Hne Hp0 Hp1.
  - exists c, [], r, act. simpl. repeat split; auto. lia.
  - cbn [for_loop]. rewrite exec_bind.
    destruct (@sim_search_bit (n + k)%nat code i j r c ds act Hu Hne)
      as (c1 & t1 & Hstep).
    rewrite Hstep. clear Hstep.
    destruct (@byte_bits_at (get code i) j rest ltac:(lia)) as [Hhd Htl].
    cbn [walk]. rewrite Hhd, Htl.
    pose proof (@choose_nonempty (n + k)%nat act
                  (Z.testbit (get code i) (Z.of_nat j))
                  (OWI.pos r) (OWI.last r) (OWI.next r) Hu Hne) as Hne'.
    destruct (choose act (Z.testbit (get code i) (Z.of_nat j))
                (OWI.pos r) (OWI.last r) (OWI.next r))
      as [[b last'] next'].
    cbn [fst] in Hne'.
    assert (Hu8 : u8 (OWI.pos r + 1) = OWI.pos r + 1)
      by (unfold u8; apply Z.mod_small; lia).
    rewrite Hu8.
    destruct (IH (S j)
                (OWI.mkRegs (OWI.pos r + 1) next' last'
                   (shift_in b (OWI.data r)))
                c1 (Sim.sel b act) ltac:(lia)
                (sel_uniform b Hu) Hne'
                ltac:(cbn [OWI.pos]; lia) ltac:(cbn [OWI.pos]; lia))
      as (c' & t' & r' & act' & Hex & Hw & Hpos & Hdata & Hne'' & Hu').
    cbn [OWI.pos OWI.last OWI.next OWI.data] in Hex, Hw, Hpos, Hdata.
    rewrite Hex. rewrite Hw.
    exists c', (t1 ++ t'), r', act'.
    cbn [fst snd]. repeat split; auto.
    + rewrite Hpos. lia.
Qed.

(** [n] iterations of the outer loop, from byte [i]: the walk of the
    [8 * n] positions, with the bytes chosen written over the buffer. *)
Lemma sim_outer ds k n : forall i code r c act,
  (i + n <= length code)%nat ->
  uniform (8 * n + k) act -> nonempty act = true ->
  0 <= OWI.pos r -> OWI.pos r + 8 * Z.of_nat n <= 255 ->
  let w := walk (8 * n) act (rom_bits (skipn i code))
                (OWI.pos r) (OWI.last r) (OWI.next r) in
  exists c' t r' act',
    exec (Sim.handler crc_bit) (for_loop n i OWI.search_byte (code, r))
         (mkOwi c (Sim.mkBus ds act Sim.SearchId))
    = (inr (firstn i code ++ bytes_of_bits n (fst w)
              ++ skipn (i + n) code, r'),
       mkOwi c' (Sim.mkBus ds act' Sim.SearchId), t) /\
    snd w = (act', OWI.last r', OWI.next r') /\
    OWI.pos r' = OWI.pos r + 8 * Z.of_nat n /\
    nonempty act' = true /\ uniform k act'.
Proof.
  induction n as [|n IH]; intros i code r c act Hi Hu Hne Hp0 Hp1; cbv zeta.
  - exists c, [], r, act. cbn [for_loop exec Nat.mul walk fst snd
                               bytes_of_bits app].
    rewrite Nat.add_0_r, firstn_skipn. repeat split; auto. lia.
  - cbn [for_loop]. rewrite exec_bind. unfold OWI.search_byte at 1.
    rewrite exec_bind.
    replace (8 * S n + k)%nat with (8 + (8 * n + k))%nat in Hu by lia.
    destruct (@sim_inner code i ds (rom_bits (skipn (S i) code))
                (8 * n + k)%nat 8%nat 0%nat
                (OWI.mkRegs (OWI.pos r) (OWI.next r) (OWI.last r) 0)
                c act ltac:(lia) Hu Hne Hp0 ltac:(cbn [OWI.pos]; lia))
      as (c1 & t1 & r8 & act1 & Hex & Hw1 & Hpos & Hdata & Hne1 & Hu1).
    cbn [OWI.pos OWI.last OWI.next OWI.data] in Hex, Hw1, Hpos, Hdata.
    rewrite !skipn_O in Hw1, Hdata.
    rewrite Hex. cbn [exec].
    destruct (IH (S i) (upd code i (OWI.data r8)) r8 c1 act1
                ltac:(rewrite upd_length; lia) Hu1 Hne1
                ltac:(lia) ltac:(lia))
      as (c' & t' & r' & act' & Hex2 & Hw2 & Hpos2 & Hne2 & Hu2).
    rewrite skipn_upd in Hex2, Hw2 by lia.
    rewrite skipn_upd in Hex2 by lia.
    rewrite firstn_upd_end in Hex2 by lia.
    rewrite Hex2.
    replace (8 * S n)%nat with (8 + 8 * n)%nat by lia.
    rewrite walk_app. cbv zeta.
    rewrite (@rom_bits_skipn code i) by lia.
    rewrite Hw1. cbn [fst snd].
    rewrite skipn_app, byte_bits_length.
    rewrite (skipn_all2 (byte_bits (get code i)))
      by (rewrite byte_bits_length; lia).
    change (8 - 8)%nat with 0%nat. rewrite skipn_O, app_nil_l.
    replace (OWI.pos r + Z.of_nat 8) with (OWI.pos r8) by lia.
    pose proof (walk_length 8 act
                  (byte_bits (get code i) ++ rom_bits (skipn (S i) code))
                  (OWI.pos r) (OWI.last r) (OWI.next r)) as Hl8.
    rewrite shift_in_byte in Hdata by exact Hl8.
    set (bs1 := fst (walk 8 act _ _ _ _)) in *.
    set (w2 := walk (8 * n) act1 _ _ _ _) in *.
    exists c', (t1 ++ [] ++ t'), r', act'.
    split; [|repeat split; auto; lia].
    f_equal; [|rewrite app_nil_r; reflexivity].
    f_equal. f_equal.
    cbn [bytes_of_bits].
    rewrite firstn_app, skipn_app, Hl8.
    change (8 - 8)%nat with 0%nat. rewrite firstn_O, skipn_O, app_nil_r.
    rewrite <- Hl8 at 1. rewrite firstn_all.
    rewrite <- Hl8 at 1. rewrite skipn_all, app_nil_l.
    rewrite Hdata, <- app_assoc. cbn [app].
    replace (S i + n)%nat with (i + S n)%nat by lia.
    reflexivity.
Qed.
End SimSearch.

(** ** Chains *)

Lemma chain_map {A B} (R : A -> A -> Prop) (R' : B -> B -> Prop)
    (f : A -> B) l :
  (forall x y, R x y -> R' (f x) (f y)) -> Chain R l -> Chain R' (map f l).
Proof.
  intros Hf. induction l as [|x [|y t] IH]; simpl; auto.
  intros [Hxy Ht]. split; [apply Hf, Hxy | apply IH, Ht].
Qed.

Lemma chain_app {A} (R : A -> A -> Prop) X Y :
  Chain R X -> Chain R Y ->
  (forall X' x y Y', X = X' ++ [x] -> Y = y :: Y' -> R x y) ->
  Chain R (X ++ Y).
Proof.
  intros HX HY Hb. induction X as [|x [|x' t] IH].
  - exact HY.
  - destruct Y as [|y Y']; [simpl; auto|]. split; [|exact HY].
    apply (Hb [] x y Y'); reflexivity.
  - destruct HX as [Hxx' Ht]. split; [exact Hxx'|].
    apply IH; [exact Ht|].
    intros X' a b Y' HX' HY'. apply (Hb (x :: X') a b Y'); [|exact HY'].
    rewrite HX'. reflexivity.
Qed.

(** ** The order of the search *)

Lemma enumc_nil n pos : enumc n pos [] = [].
Proof. destruct n; reflexivity. Qed.

Lemma enumc_S n pos act :
  nonempty act = true ->
  enumc (S n) pos act =
  map (branch0 pos (nonempty (Sim.sel true act)))
      (enumc n (pos + 1) (Sim.sel false act))
  ++ map branch1 (enumc n (pos + 1) (Sim.sel true act)).
Proof. intros H. cbn [enumc]. rewrite H. reflexivity. Qed.

Lemma nonempty_false {A} (l : list A) : nonempty l = false -> l = [].
Proof. destruct l; [reflexivity|discriminate]. Qed.

Lemma walk_S n act c pos last next :
  walk (S n) act c pos last next =
  let ch := choose act (hd false c) pos last next in
  let w := walk n (Sim.sel (fst (fst ch)) act) (tl c) (pos + 1)
                (snd (fst ch)) (snd ch) in
  (fst (fst ch) :: fst w, snd w).
Proof.
  cbn [walk]. destruct (choose act (hd false c) pos last next) as [[b l'] n'].
  cbv zeta. cbn [fst snd].
  destruct (walk n (Sim.sel b act) (tl c) (pos + 1) l' n'); reflexivity.
Qed.

(** A pass whose cursor is before the node takes the first code below it. *)
Lemma walk_first n : forall act c pos last next,
  uniform n act -> nonempty act = true -> last < pos ->
  exists e r El,
    enumc n pos act = (e, r) :: El /\
    walk_out (walk n act c pos last next)
    = (e, match r with Some q => q | None => next end).
Proof.
  induction n as [|n IH]; intros act c pos last next Hu Hne Hlt.
  - exists [], None, []. cbn [enumc]. rewrite Hne. split; reflexivity.
  - rewrite enumc_S by exact Hne. rewrite walk_S. cbv zeta.
    unfold choose. rewrite (all1_sel Hu), (all0_sel Hu).
    pose proof (sel_nonempty Hu Hne) as Hor.
    destruct (nonempty (Sim.sel false act)) eqn:H0;
      destruct (nonempty (Sim.sel true act)) eqn:H1;
      try discriminate; cbn [negb fst snd].
    + destruct (Z.eqb_spec pos last) as [He|_]; [lia|].
      destruct (Z.gtb_spec pos last) as [_|Hle]; [|lia]. cbn [fst snd].
      destruct (IH (Sim.sel false act) (tl c) (pos + 1) last pos
                  (sel_uniform false Hu) H0 ltac:(lia))
        as (e & r & El & HE & Hw).
      rewrite HE. unfold walk_out in *. cbn [fst snd map app].
      exists (false :: e),
             (match r with Some q => Some q | None => Some pos end),
             (map (branch0 pos true) El
              ++ map branch1 (enumc n (pos + 1) (Sim.sel true act))).
      split; [unfold branch0; cbn [fst snd]; destruct r; reflexivity|].
      inversion Hw as [[Hf Hs]]. rewrite Hs. destruct r; reflexivity.
    + destruct (IH (Sim.sel false act) (tl c) (pos + 1) last next
                  (sel_uniform false Hu) H0 ltac:(lia))
        as (e & r & El & HE & Hw).
      rewrite HE. rewrite (nonempty_false _ H1), enumc_nil.
      unfold walk_out in *. cbn [fst snd map app].
      exists (false :: e), r, (map (branch0 pos false) El ++ []).
      split; [unfold branch0; cbn [fst snd]; destruct r; reflexivity|].
      inversion Hw as [[Hf Hs]]. rewrite Hs. reflexivity.
    + destruct (IH (Sim.sel true act) (tl c) (pos + 1) last next
                  (sel_uniform true Hu) H1 ltac:(lia))
        as (e & r & El & HE & Hw).
      rewrite HE. rewrite (nonempty_false _ H0), enumc_nil.
      unfold walk_out in *. cbn [fst snd map app].
      exists (true :: e), r, (map branch1 El).
      split; [reflexivity|].
      inversion Hw as [[Hf Hs]]. rewrite Hs. reflexivity.
Qed.

(** The last code below a node leaves no discrepancy behind. *)
Lemma enumc_last n : forall act pos,
  uniform n act -> nonempty act = true ->
  exists l e, enumc n pos act = l ++ [(e, None)].
Proof.
  induction n as [|n IH]; intros act pos Hu Hne.
  - exists [], []. cbn [enumc]. rewrite Hne. reflexivity.
  - rewrite enumc_S by exact Hne.
    pose proof (sel_nonempty Hu Hne) as Hor.
    destruct (nonempty (Sim.sel true act)) eqn:H1.
    + destruct (IH (Sim.sel true act) (pos + 1) (sel_uniform true Hu) H1)
        as (l & e & HE).
      rewrite HE, map_app. cbn [map]. rewrite app_assoc.
      eexists _, _. reflexivity.
    + rewrite orb_false_r in Hor.
      destruct (IH (Sim.sel false act) (pos + 1) (sel_uniform false Hu) Hor)
        as (l & e & HE).
      rewrite HE, (nonempty_false _ H1), enumc_nil, map_app.
      cbn [map]. rewrite app_nil_r.
      eexists _, _. reflexivity.
Qed.

Lemma follows_branch0 n act pos x y :
  uniform (S n) act ->
  nonempty (Sim.sel false act) = true ->
  follows n (Sim.sel false act) (pos + 1) x y ->
  follows (S n) act pos
    (branch0 pos (nonempty (Sim.sel true act)) x)
    (branch0 pos (nonempty (Sim.sel true act)) y).
Proof.
  intros Hu H0 (q & Hq & Hb & Hw).
  exists q. unfold branch0. cbn [fst snd]. rewrite Hq.
  split; [reflexivity|]. split; [lia|].
  intros next. rewrite walk_S. cbv zeta. cbn [hd tl].
  unfold choose. rewrite (all1_sel Hu), (all0_sel Hu), H0. cbn [negb].
  unfold walk_out in *.
  destruct (nonempty (Sim.sel true act)); cbn [negb fst snd].
  - destruct (Z.eqb_spec pos q) as [He|_]; [lia|].
    destruct (Z.gtb_spec pos q) as [Hgt|_]; [lia|]. cbn [fst snd].
    specialize (Hw pos). apply pair_equal_spec in Hw.
    destruct Hw as [Hf Hs]. rewrite Hf, Hs.
    destruct (snd y); reflexivity.
  - specialize (Hw next). apply pair_equal_spec in Hw.
    destruct Hw as [Hf Hs]. rewrite Hf, Hs.
    destruct (snd y); reflexivity.
Qed.

Lemma follows_branch1 n act pos x y :
  uniform (S n) act ->
  nonempty (Sim.sel true act) = true ->
  follows n (Sim.sel true act) (pos + 1) x y ->
  follows (S n) act pos (branch1 x) (branch1 y).
Proof.
  intros Hu H1 (q & Hq & Hb & Hw).
  exists q. unfold branch1. cbn [fst snd].
  split; [exact Hq|]. split; [lia|].
  intros next. rewrite walk_S. cbv zeta. cbn [hd tl].
  unfold choose. rewrite (all1_sel Hu), (all0_sel Hu), H1. cbn [negb].
  specialize (Hw next). unfold walk_out in *.
  apply pair_equal_spec in Hw. destruct Hw as [Hf Hs].
  destruct (nonempty (Sim.sel false act)); cbn [negb fst snd].
  - destruct (Z.eqb_spec pos q) as [He|_]; [lia|].
    destruct (Z.gtb_spec pos q) as [Hgt|_]; [lia|]. cbn [fst snd].
    rewrite Hf, Hs. reflexivity.
  - rewrite Hf, Hs. reflexivity.
Qed.

(** Each code below a node is followed by the next one in [enumc]. *)
Lemma enumc_chain n : forall act pos,
  uniform n act -> 0 <= pos ->
  Chain (follows n act pos) (enumc n pos act).
Proof.
  induction n as [|n IH]; intros act pos Hu Hpos.
  - cbn [enumc]. destruct (nonempty act); simpl; auto.
  - destruct (nonempty act) eqn:Hne;
      [|rewrite (nonempty_false _ Hne), enumc_nil; exact I].
    rewrite enumc_S by exact Hne.
    apply chain_app.
    + destruct (nonempty (Sim.sel false act)) eqn:H0.
      * eapply chain_map; [|apply IH; [apply sel_uniform, Hu | lia]].
        intros x y. apply follows_branch0; assumption.
      * rewrite (nonempty_false _ H0), enumc_nil. exact I.
    + destruct (nonempty (Sim.sel true act)) eqn:H1.
      * eapply chain_map; [|apply IH; [apply sel_uniform, Hu | lia]].
        intros x y. apply follows_branch1; assumption.
      * rewrite (nonempty_false _ H1), enumc_nil. exact I.
    + intros X' x y Y' HX HY.
      destruct (nonempty (Sim.sel false act)) eqn:H0;
        [|rewrite (nonempty_false _ H0), enumc_nil in HX;
          destruct X'; discriminate].
      destruct (nonempty (Sim.sel true act)) eqn:H1;
        [|rewrite (nonempty_false _ H1), enumc_nil in HY; discriminate].
      destruct (@enumc_last n (Sim.sel false act) (pos + 1)
                  (sel_uniform false Hu) H0) as (l & e & HE).
      rewrite HE, map_app in HX. cbn [map] in HX.
      apply app_inj_tail in HX. destruct HX as [_ Hx].
      unfold branch0 in Hx. cbn [fst snd] in Hx. subst x.
      exists pos. cbn [fst snd]. split; [reflexivity|]. split; [lia|].
      intros next. rewrite walk_S. cbv zeta. cbn [hd tl].
      unfold choose. rewrite (all1_sel Hu), (all0_sel Hu), H0, H1.
      cbn [negb]. rewrite Z.eqb_refl. cbn [fst snd].
      destruct (@walk_first n (Sim.sel true act) e (pos + 1) OWI.FIRST next
                  (sel_uniform true Hu) H1
                  ltac:(unfold OWI.FIRST; lia))
        as (e1 & r1 & El & HE1 & Hw).
      rewrite HE1 in HY. cbn [map] in HY. inversion HY as [[Hy HY']].
      unfold walk_out in *. apply pair_equal_spec in Hw.
      destruct Hw as [Hf Hs]. subst y.
      unfold branch1. cbn [fst snd]. rewrite Hf, Hs. reflexivity.
Qed.

(** ** Passes on the simulated bus *)

Lemma bytes_of_bits_length n bs : length (bytes_of_bits n bs) = n.
Proof.
  revert bs; induction n as [|n IH]; intros bs; simpl; auto.
Qed.

Lemma rom_bits_uniform ds :
  Forall (fun d => length d = OWI.ROM_MAX) ds -> uniform 64 (map rom_bits ds).
Proof.
  unfold uniform. intros H. induction H as [|d ds Hd Hds IH]; simpl.
  - constructor.
  - constructor; [|exact IH]. rewrite rom_bits_length, Hd. reflexivity.
Qed.

Section SimPass.
Variable crc_bit : Z -> bool -> Z.

(** A complete pass: the walk of all 64 positions. *)
Lemma sim_search ds code last c act :
  length code = 8%nat -> uniform 64 act -> nonempty act = true ->
  let wo := walk_out (walk 64 act (rom_bits code) 0 last OWI.LAST) in
  exists c' t act',
    exec (Sim.handler crc_bit) (OWI.search code last)
         (mkOwi c (Sim.mkBus ds act Sim.SearchId))
    = ((snd wo, bytes_of_bits 8 (fst wo)),
       mkOwi c' (Sim.mkBus ds act' Sim.SearchId), t).
Proof.
  intros Hlen Hu Hne. cbv zeta. unfold OWI.search. rewrite exec_bind.
  destruct (@sim_outer crc_bit ds 0%nat 8%nat 0%nat code
              (OWI.mkRegs 0 OWI.LAST last 0) c act
              ltac:(lia) Hu Hne ltac:(cbn [OWI.pos]; lia)
              ltac:(cbn [OWI.pos]; lia))
    as (c' & t & r' & act' & Hex & Hw & _).
  cbn [OWI.pos OWI.last OWI.next] in Hex, Hw.
  rewrite skipn_O in Hex, Hw.
  rewrite Hex. cbn [exec firstn app].
  rewrite (skipn_all2 code) by lia. rewrite app_nil_r.
  change (8 * 8)%nat with 64%nat in *.
  unfold walk_out. rewrite Hw. cbn [snd].
  exists c', (t ++ []), act'. reflexivity.
Qed.

(** One iteration of [search_rom] on a bus with devices: the buffer and
    cursor become [pass_out], and the loop goes on unless the entry is one
    where [search_rom] stops. *)
Lemma sim_search_rom_S ds fuel family code last s :
  Sim.devices (dev s) = ds -> nonempty ds = true ->
  Forall (fun d => length d = OWI.ROM_MAX) ds ->
  length code = 8%nat ->
  let y := pass_out ds code last in
  exists s' t,
    Sim.devices (dev s') = ds /\
    exec (Sim.handler crc_bit) (OWI.search_rom (S fuel) family code last) s =
    if stops family y then ((Some (snd y), fst y), s', t)
    else
      let '(res, s4, t') :=
        exec (Sim.handler crc_bit)
             (OWI.search_rom fuel family (fst y) (snd y)) s' in
      (res, s4, t ++ t').
Proof.
  intros Hds Hne Hall Hlen. cbv zeta.
  rewrite exec_search_rom_S.
  destruct s as [c [ds0 act0 ph]]. cbn [dev Sim.devices] in Hds. subst ds0.
  change (phy_reset (Sim.handler crc_bit) (mkOwi c (Sim.mkBus ds act0 ph)))
    with (negb (match ds with [] => true | _ => false end),
          mkOwi c (Sim.mkBus ds (map rom_bits ds) Sim.RomCommand)).
  destruct ds as [|d ds']; [discriminate|]. cbn [negb].
  set (ds := d :: ds') in *.
  change (phy_write (Sim.handler crc_bit) OWI.SEARCH_ROM OWI.CHARBITS
            (mkOwi c (Sim.mkBus ds (map rom_bits ds) Sim.RomCommand)))
    with (mkOwi c (Sim.mkBus ds (map rom_bits ds) Sim.SearchId)).
  destruct (@sim_search ds code last c (map rom_bits ds) Hlen
              (rom_bits_uniform Hall) eq_refl)
    as (c' & t & act' & Hex).
  rewrite Hex. unfold pass_out, stops. cbn [fst snd].
  set (wo := walk_out (walk 64 (map rom_bits ds) (rom_bits code) 0 last
                            OWI.LAST)).
  exists (mkOwi c' (Sim.mkBus ds act' Sim.SearchId)),
         (EvReset true :: EvWrite OWI.SEARCH_ROM OWI.CHARBITS :: t).
  split; [reflexivity|].
  destruct (negb (snd wo =? OWI.LAST) && negb (family =? 0)
            && negb (get (bytes_of_bits 8 (fst wo)) 0 =? family)) eqn:Hc.
  - rewrite <- !negb_orb in Hc. apply negb_true_iff in Hc. rewrite Hc.
    destruct (exec (Sim.handler crc_bit) (OWI.search_rom fuel family
                          (bytes_of_bits 8 (fst wo)) (snd wo)) _)
      as [[res s4] t']. reflexivity.
  - rewrite <- !negb_orb in Hc. apply negb_false_iff in Hc. rewrite Hc.
    reflexivity.
Qed.
End SimPass.

(** ** From the order of the search to the chained passes *)

Lemma enumc_bits_length n : forall act pos x,
  In x (enumc n pos act) -> length (fst x) = n.
Proof.
  induction n as [|n IH]; intros act pos x Hin.
  - cbn [enumc] in Hin. destruct (nonempty act); [|destruct Hin].
    destruct Hin as [<-|[]]. reflexivity.
  - cbn [enumc] in Hin. destruct (nonempty act); [|destruct Hin].
    apply in_app_or in Hin. destruct Hin as [Hin|Hin];
      apply in_map_iff in Hin; destruct Hin as (y & <- & Hy);
      apply IH in Hy; simpl; lia.
Qed.

Lemma rom_bits_bytes n : forall e,
  length e = (8 * n)%nat -> rom_bits (bytes_of_bits n e) = e.
Proof.
  induction n as [|n IH]; intros e He.
  - destruct e; [reflexivity|discriminate].
  - cbn [bytes_of_bits]. unfold rom_bits in *. cbn [flat_map].
    rewrite byte_bits_value by (rewrite length_firstn; lia).
    rewrite IH by (rewrite length_skipn; lia).
    apply firstn_skipn.
Qed.

Lemma bytes_rom_bits d :
  rom_wf d -> bytes_of_bits 8 (rom_bits d) = d.
Proof.
  intros [Hl Hr]. unfold OWI.ROM_MAX in Hl.
  do 8 (destruct d as [|? d]; [discriminate|]).
  destruct d; [|discriminate].
  repeat match goal with
         | H : Forall _ (_ :: _) |- _ => inversion H; clear H; subst
         end.
  unfold rom_bits. cbn [flat_map bytes_of_bits app byte_bits map firstn skipn].
  repeat match goal with
         | H : 0 <= ?x < 256 |- _ =>
             let E := fresh in
             pose proof (bits_value_byte H) as E; unfold byte_bits in E;
             cbn [map] in E; rewrite E; clear E H
         end.
  reflexivity.
Qed.

Lemma chain_linked ds : forall E x,
  Chain (follows 64 (map rom_bits ds) 0) (x :: E) ->
  Forall (fun y => length (fst y) = 64%nat) (x :: E) ->
  (exists l e, x :: E = l ++ [(e, None)]) ->
  Linked ds (fst (entry x)) (snd (entry x)) (map entry E).
Proof.
  induction E as [|y E' IH]; intros x Hch Hlen Hlast.
  - exact I.
  - destruct Hch as [(q & Hq & Hb & Hw) Hch'].
    inversion Hlen as [|? ? Hx Hlen']; subst.
    assert (Hlast' : exists l e, y :: E' = l ++ [(e, None)]).
    { destruct Hlast as (l & e & Hl). destruct l as [|x0 l]; [discriminate|].
      injection Hl as _ Hl. exists l, e. exact Hl. }
    assert (Hy : 0 <= cursor (snd y) /\
                 (E' = [] <-> cursor (snd y) = OWI.LAST)).
    { destruct E' as [|z E''].
      - destruct Hlast' as (l & e & Hl).
        destruct l as [|y0 [|? ?]]; try discriminate.
        inversion Hl; subst. cbn. split; [lia | tauto].
      - destruct Hch' as [(q' & Hq' & Hb' & _) _]. rewrite Hq'.
        unfold cursor, OWI.LAST, OWI.ROMBITS. simpl.
        split; [lia|]. split; [discriminate | lia]. }
    cbn [map Linked]. repeat split.
    + unfold pass_out, entry. cbn [fst snd].
      rewrite (rom_bits_bytes 8) by exact Hx.
      rewrite Hq. cbn [cursor]. rewrite (Hw OWI.LAST). reflexivity.
    + apply Hy.
    + intros HE. apply Hy. destruct E'; [reflexivity|discriminate].
    + intros HE. apply Hy in HE. subst E'. reflexivity.
    + apply IH; assumption.
Qed.

(** The chained passes from FIRST, whatever the buffer holds, produce the
    entries of [search_order] one after the other. *)
Lemma search_order_linked ds code :
  Forall (fun d => length d = OWI.ROM_MAX) ds -> nonempty ds = true ->
  Linked ds code OWI.FIRST (search_order ds).
Proof.
  intros Hall Hne. unfold search_order.
  assert (Hne' : nonempty (map rom_bits ds) = true)
    by (destruct ds; [discriminate|reflexivity]).
  pose proof (rom_bits_uniform Hall) as Hu.
  destruct (@walk_first 64 (map rom_bits ds) (rom_bits code) 0 OWI.FIRST
              OWI.LAST Hu Hne' ltac:(unfold OWI.FIRST; lia))
    as (e & r & El & HE & Hw).
  pose proof (@enumc_chain 64 (map rom_bits ds) 0 Hu ltac:(lia)) as Hch.
  pose proof (@enumc_last 64 (map rom_bits ds) 0 Hu Hne') as Hlast.
  assert (Hlen : Forall (fun y => length (fst y) = 64%nat)
                        (enumc 64 0 (map rom_bits ds))).
  { apply Forall_forall. intros x Hx. eapply enumc_bits_length, Hx. }
  rewrite HE in *.
  pose proof (@chain_linked ds El (e, r) Hch Hlen Hlast) as HL.
  change (fun x : list bool * option Z =>
            (bytes_of_bits 8 (fst x), cursor (snd x))) with entry.
  cbn [map Linked]. repeat split.
  - unfold pass_out, entry. rewrite Hw. reflexivity.
  - destruct El as [|z El'].
    + destruct Hlast as (l & e0 & Hl).
      destruct l as [|y0 [|? ?]]; try discriminate.
      inversion Hl; subst. cbn. lia.
    + destruct Hch as [(q' & Hq' & Hb' & _) _]. cbn [snd] in Hq'.
      subst r. cbn. lia.
  - intros HEl. apply map_eq_nil in HEl. subst El.
    destruct Hlast as (l & e0 & Hl).
    destruct l as [|y0 [|? ?]]; try discriminate.
    inversion Hl; subst. reflexivity.
  - intros Hc. destruct El as [|z El']; [reflexivity|].
    destruct Hch as [(q' & Hq' & Hb' & _) _]. cbn [snd] in Hq'.
    subst r. cbn in Hc. unfold OWI.LAST, OWI.ROMBITS in Hc. simpl in Hc. lia.
  - exact HL.
Qed.

Lemma filter_none {A} (f : A -> bool) l :
  forallb (fun x => negb (f x)) l = true -> filter f l = [].
Proof.
  induction l as [|x l IH]; simpl; [reflexivity|].
  intros H. apply andb_true_iff in H. destruct H as [Hx Hl].
  apply negb_true_iff in Hx. rewrite Hx. apply IH, Hl.
Qed.

Lemma pass_out_length ds code last :
  length (fst (pass_out ds code last)) = 8%nat.
Proof. unfold pass_out. cbn [fst]. apply bytes_of_bits_length. Qed.

Section SimEnumerate.
Variable crc_bit : Z -> bool -> Z.

Variable ds : list (list Z).
Hypothesis ds_nonempty : nonempty ds = true.
Hypothesis ds_length : Forall (fun d => length d = OWI.ROM_MAX) ds.
Variable family : Z.

(** [search_rom] runs passes along the entries until one where it
    stops. *)
Lemma sim_search_rom_linked : forall L fuel code last s,
  Sim.devices (dev s) = ds -> length code = 8%nat ->
  Linked ds code last L -> L <> [] -> (length L <= fuel)%nat ->
  exists L1 z L2 s' t,
    L = L1 ++ z :: L2 /\
    forallb (fun x => negb (stops family x)) L1 = true /\
    stops family z = true /\
    exec (Sim.handler crc_bit) (OWI.search_rom fuel family code last) s
    = ((Some (snd z), fst z), s', t) /\
    Sim.devices (dev s') = ds /\ length (fst z) = 8%nat /\
    Linked ds (fst z) (snd z) L2 /\ 0 <= snd z /\
    (L2 = [] <-> snd z = OWI.LAST).
Proof.
  induction L as [|y L' IH]; intros fuel code last s Hs Hlen HL Hne Hfuel;
    [contradiction|].
  destruct HL as (Hpass & Hy0 & Hiff & HL').
  destruct fuel as [|fuel]; [simpl in Hfuel; lia|].
  destruct (@sim_search_rom_S crc_bit ds fuel family code last s
              Hs ds_nonempty ds_length Hlen) as (s1 & t1 & Hs1 & Hex).
  rewrite Hpass in Hex.
  assert (Hly : length (fst y) = 8%nat)
    by (rewrite <- Hpass; apply pass_out_length).
  destruct (stops family y) eqn:Hstop.
  - exists [], y, L', s1, t1. repeat split; auto; apply Hiff.
  - assert (HL'ne : L' <> []).
    { intros HE. apply Hiff in HE. unfold stops in Hstop.
      rewrite HE, Z.eqb_refl in Hstop. discriminate. }
    destruct (IH fuel (fst y) (snd y) s1 Hs1 Hly HL' HL'ne
                ltac:(simpl in Hfuel; lia))
      as (L1 & z & L2 & s' & t & HE & HL1 & Hz & Hex' & Hs' & Hlz & HL2
          & Hz0 & Hiff2).
    rewrite Hex' in Hex.
    exists (y :: L1), z, L2, s', (t1 ++ t). repeat split; auto.
    + rewrite HE. reflexivity.
    + cbn [forallb]. rewrite Hstop, HL1. reflexivity.
    + apply Hiff2.
    + apply Hiff2.
Qed.

(** The caller's loop visits the entries where [search_rom] stops, in
    order, and ends with LAST. *)
Lemma sim_enumerate_linked : forall calls L fuel code last s,
  Sim.devices (dev s) = ds -> length code = 8%nat ->
  Linked ds code last L -> L <> [] ->
  (length L <= calls)%nat -> (length L <= fuel)%nat ->
  let x := exec (Sim.handler crc_bit)
                (enumerate calls fuel family code last) s in
  fst (result x) = (Some OWI.LAST, map fst (filter (stops family) L)) /\
  Sim.devices (dev (final x)) = ds /\
  length (snd (result x)) = 8%nat.
Proof.
  induction calls as [|calls IH];
    intros L fuel code last s Hs Hlen HL Hne Hcalls Hfuel; cbv zeta.
  - destruct L; [contradiction|simpl in Hcalls; lia].
  - cbn [enumerate]. rewrite exec_bind.
    destruct (@sim_search_rom_linked L fuel code last s Hs Hlen HL Hne Hfuel)
      as (L1 & z & L2 & s' & t & HE & HL1 & Hz & Hex & Hs' & Hlz & HL2
          & Hz0 & Hiff).
    rewrite Hex.
    assert (Hfilter : filter (stops family) L
                      = z :: filter (stops family) L2).
    { rewrite HE, filter_app, (filter_none _ _ HL1). cbn [filter app].
      rewrite Hz. reflexivity. }
    rewrite Hfilter.
    destruct (Z.eqb_spec (snd z) OWI.ERROR) as [He|_];
      [unfold OWI.ERROR in He; lia|].
    destruct (Z.eqb_spec (snd z) OWI.LAST) as [Hlast|Hnl]; cbn [negb].
    + apply Hiff in Hlast as HL2e. subst L2.
      cbn [exec result final fst snd filter map]. rewrite Hlast.
      repeat split; assumption.
    + assert (HL2ne : L2 <> []) by (intros HL2e; apply Hnl, Hiff, HL2e).
      assert (Hl2 : (length L2 < length L)%nat).
      { rewrite HE, length_app. simpl. lia. }
      destruct (IH L2 fuel (fst z) (snd z) s' Hs' Hlz HL2 HL2ne
                  ltac:(lia) ltac:(lia)) as (Hres & Hfin & Hbuf).
      rewrite exec_bind.
      destruct (exec (Sim.handler crc_bit)
                  (enumerate calls fuel family (fst z) (snd z)) s')
        as [[[[e visited] code''] s''] t''].
      unfold result, final in *. cbn [fst snd] in *.
      cbn [exec fst snd map].
      inversion Hres; subst. repeat split; assumption.
Qed.

End SimEnumerate.

(** ** Every device exactly once *)

Lemma sel_partition n act :
  uniform (S n) act ->
  Permutation (map (cons false) (Sim.sel false act)
               ++ map (cons true) (Sim.sel true act)) act.
Proof.
  unfold uniform, Sim.sel. intros H. induction H as [|d act Hd Hact IH].
  - constructor.
  - destruct d as [|[|] d]; simpl in *; try lia.
    + apply Permutation_sym, Permutation_cons_app, Permutation_sym, IH.
    + apply perm_skip, IH.
Qed.

Lemma sel_in n act b t :
  uniform (S n) act -> In t (Sim.sel b act) -> In (b :: t) act.
Proof.
  unfold uniform, Sim.sel. intros Hu Hin.
  apply in_map_iff in Hin. destruct Hin as (d & Ht & Hd).
  apply filter_In in Hd. destruct Hd as [Hd Hb].
  rewrite Forall_forall in Hu. specialize (Hu d Hd).
  destruct d as [|x d]; simpl in *; [lia|].
  apply eqb_prop in Hb. subst. exact Hd.
Qed.

Lemma sel_NoDup n act b :
  uniform (S n) act -> NoDup act -> NoDup (Sim.sel b act).
Proof.
  intros Hu Hnd. induction Hnd as [|d act Hnotin Hnd IH].
  - constructor.
  - inversion Hu as [|? ? Hd Hu']; subst.
    unfold Sim.sel in *. cbn [filter].
    destruct (Bool.eqb (hd true d) b) eqn:Hb; [|apply IH, Hu'].
    cbn [map]. constructor; [|apply IH, Hu'].
    intros Hin. apply Hnotin.
    pose proof (@sel_in n act b (tl d) Hu' Hin) as Hin'.
    destruct d as [|x d]; simpl in *; [lia|].
    apply eqb_prop in Hb. subst. exact Hin'.
Qed.

Lemma sel_count act :
  (length (Sim.sel false act) + length (Sim.sel true act) = length act)%nat.
Proof.
  unfold Sim.sel. rewrite !length_map.
  induction act as [|d act IH]; simpl; [reflexivity|].
  destruct (hd true d); simpl; lia.
Qed.

Lemma enumc_count n : forall act pos,
  (length (enumc n pos act) <= length act)%nat.
Proof.
  induction n as [|n IH]; intros act pos; cbn [enumc].
  - destruct act; simpl; lia.
  - destruct (nonempty act); [|simpl; lia].
    rewrite length_app, !length_map.
    pose proof (IH (Sim.sel false act) (pos + 1)).
    pose proof (IH (Sim.sel true act) (pos + 1)).
    pose proof (sel_count act). lia.
Qed.

(** The codes of [enumc] are the devices below the node, each once. *)
Lemma enumc_perm n : forall act pos,
  uniform n act -> NoDup act ->
  Permutation (map fst (enumc n pos act)) act.
Proof.
  induction n as [|n IH]; intros act pos Hu Hnd.
  - cbn [enumc]. destruct act as [|d act]; [constructor|].
    inversion Hu as [|? ? Hd Hu']; subst.
    destruct d; [|discriminate].
    destruct act as [|d' act].
    + simpl. apply Permutation_refl.
    + inversion Hu' as [|? ? Hd' _]; subst.
      destruct d'; [|discriminate].
      inversion Hnd as [|? ? Hnotin _]; subst.
      exfalso. apply Hnotin. left. reflexivity.
  - destruct (nonempty act) eqn:Hne;
      [|rewrite (nonempty_false _ Hne), enumc_nil; constructor].
    rewrite enumc_S by exact Hne.
    rewrite map_app, !map_map. unfold branch0, branch1. cbn [fst].
    rewrite <- (map_map fst (cons false)), <- (map_map fst (cons true)).
    eapply Permutation_trans; [|apply (sel_partition Hu)].
    apply Permutation_app; apply Permutation_map, IH;
      first [apply sel_uniform; exact Hu
            | eapply sel_NoDup; eassumption].
Qed.

Lemma search_order_count ds : (length (search_order ds) <= length ds)%nat.
Proof.
  unfold search_order. rewrite length_map.
  pose proof (enumc_count 64 (map rom_bits ds) 0) as H.
  rewrite length_map in H. exact H.
Qed.

Lemma rom_wf_length ds :
  Forall rom_wf ds -> Forall (fun d => length d = OWI.ROM_MAX) ds.
Proof.
  intros H. eapply Forall_impl; [|exact H]. intros d [Hl _]. exact Hl.
Qed.

(** The codes of [search_order] are the devices, each once. *)
Lemma search_order_perm ds :
  Forall rom_wf ds -> NoDup ds ->
  Permutation (map fst (search_order ds)) ds.
Proof.
  intros Hwf Hnd. unfold search_order. rewrite map_map. cbn [fst].
  rewrite <- (map_map fst (bytes_of_bits 8)).
  assert (Hid : map (bytes_of_bits 8) (map rom_bits ds) = ds).
  { rewrite map_map. rewrite <- (map_id ds) at 2.
    apply map_ext_in. intros d Hd. apply bytes_rom_bits.
    rewrite Forall_forall in Hwf. apply Hwf, Hd. }
  rewrite <- Hid at 2. apply Permutation_map, enumc_perm.
  - apply rom_bits_uniform, rom_wf_length, Hwf.
  - apply NoDup_map_NoDup_ForallPairs; [|exact Hnd].
    intros x y Hx Hy Heq. rewrite Forall_forall in Hwf.
    rewrite <- (bytes_rom_bits (Hwf x Hx)), <- (bytes_rom_bits (Hwf y Hy)).
    rewrite Heq. reflexivity.
Qed.

(** Without a family to skip, every entry is visited. *)
Lemma visit_order_all family ds :
  Forall rom_wf ds -> NoDup ds ->
  family = 0 \/ Forall (fun d => get d 0 = family) ds ->
  visit_order family ds = map fst (search_order ds).
Proof.
  intros Hwf Hnd Hfam. unfold visit_order. f_equal.
  apply forallb_filter_id, forallb_forall. intros x Hx. unfold stops.
  destruct Hfam as [->|Hfam].
  - rewrite Z.eqb_refl, orb_true_r. reflexivity.
  - assert (Hin : In (fst x) ds).
    { eapply Permutation_in; [apply (search_order_perm Hwf Hnd)|].
      apply in_map, Hx. }
    rewrite Forall_forall in Hfam. rewrite (Hfam _ Hin), Z.eqb_refl.
    apply orb_true_r.
Qed.

(** ** [read(buf, count)] and [read_rom] *)

Lemma exec_read_buf {D} (h : phy D) (s : owi D) buf count :
  (count <= length buf)%nat ->
  exec h (OWI.read_buf buf count) s =
  let '(vs, s') := read_bytes h count (with_crc 0 s) in
  ((m_crc s' =? 0, vs ++ skipn count buf), s',
   map (EvRead OWI.CHARBITS) vs).
Proof.
  intros Hlen.
  pose proof (@read_loop_spec D h count 0%nat buf (with_crc 0 s) Hlen) as Hloop.
  destruct (read_bytes h count (with_crc 0 s)) as [vs s'] eqn:Hrb.
  unfold OWI.read_buf. rewrite exec_bind. cbn [set_crc exec].
  rewrite exec_bind, Hloop. cbn [firstn app Nat.add].
  cbn [bind get_crc exec]. rewrite app_nil_r. reflexivity.
Qed.

Lemma bits_value_range bs :
  (length bs <= 8)%nat -> 0 <= bits_value bs < 256.
Proof.
  intros Hl.
  do 9 (destruct bs as [|? bs];
        [repeat match goal with b : bool |- _ => destruct b end;
         cbn; lia|]).
  simpl in Hl. lia.
Qed.

Section SimReadRom.
Variable crc_bit : Z -> bool -> Z.

(** Reading slots from a single device that is sending its code. *)
Lemma read_slots_single ds n : forall c a,
  (n <= length a)%nat ->
  Sim.read_slots crc_bit n c (Sim.mkBus ds [a] Sim.ReadRom)
  = (firstn n a, fold_left crc_bit (firstn n a) c,
     Sim.mkBus ds [skipn n a] Sim.ReadRom).
Proof.
  induction n as [|n IH]; intros c a Hn.
  - reflexivity.
  - destruct a as [|x a]; [simpl in Hn; lia|].
    cbn [Sim.read_slots Sim.read_slot Sim.phase Sim.active Sim.devices
         Sim.all1 forallb hd map tl].
    rewrite andb_true_r, IH by (simpl in Hn; lia). reflexivity.
Qed.

Lemma read_bytes_single ds k : forall c a,
  (8 * k <= length a)%nat ->
  read_bytes (Sim.handler crc_bit) k (mkOwi c (Sim.mkBus ds [a] Sim.ReadRom))
  = (bytes_of_bits k a,
     mkOwi (fold_left crc_bit (firstn (8 * k) a) c)
           (Sim.mkBus ds [skipn (8 * k) a] Sim.ReadRom)).
Proof.
  induction k as [|k IH]; intros c a Hk.
  - reflexivity.
  - cbn [read_bytes].
    change (phy_read (Sim.handler crc_bit) OWI.CHARBITS
              (mkOwi c (Sim.mkBus ds [a] Sim.ReadRom)))
      with (let '(xs, c', b) :=
              Sim.read_slots crc_bit 8 c (Sim.mkBus ds [a] Sim.ReadRom) in
            (bits_value xs, mkOwi c' b)).
    rewrite read_slots_single by lia.
    rewrite IH by (rewrite length_skipn; lia).
    cbn [bytes_of_bits]. unfold u8.
    rewrite Z.mod_small
      by (apply bits_value_range; rewrite length_firstn; lia).
    rewrite skipn_skipn.
    replace (8 * S k)%nat with (8 + 8 * k)%nat by lia.
    rewrite <- fold_left_app.
    replace (firstn 8 a ++ firstn (8 * k) (skipn 8 a))
      with (firstn (8 + 8 * k) a).
    2: { rewrite <- (firstn_skipn 8 a) at 1.
         rewrite firstn_app, length_firstn, Nat.min_l by lia.
         rewrite firstn_firstn, Nat.min_r by lia.
         replace (8 + 8 * k - 8)%nat with (8 * k)%nat by lia.
         reflexivity. }
    replace (8 * k + 8)%nat with (8 + 8 * k)%nat by lia.
    reflexivity.
Qed.

(** [read_rom] with one device on the bus: after the reset and the command
    it reads eight bytes, the buffer receives the device's code, and the
    result tells whether the check over its 64 bits comes out 0. *)
Lemma sim_read_rom d s buf :
  Sim.devices (dev s) = [d] -> rom_wf d -> length buf = 8%nat ->
  result (exec (Sim.handler crc_bit) (OWI.read_rom buf) s)
  = (fold_left crc_bit (rom_bits d) 0 =? 0, d) /\
  trace (exec (Sim.handler crc_bit) (OWI.read_rom buf) s)
  = EvReset true :: EvWrite OWI.READ_ROM 8 :: map (EvRead 8) d.
Proof.
  intros Hs Hwf Hlen. destruct s as [c [ds0 act0 ph]].
  cbn [dev Sim.devices] in Hs. subst ds0.
  unfold OWI.read_rom. rewrite exec_bind, exec_reset.
  change (phy_reset (Sim.handler crc_bit) (mkOwi c (Sim.mkBus [d] act0 ph)))
    with (true, mkOwi c (Sim.mkBus [d] [rom_bits d] Sim.RomCommand)).
  cbn [fst snd negb]. rewrite exec_bind, exec_write.
  change (phy_write (Sim.handler crc_bit) OWI.READ_ROM OWI.CHARBITS
            (mkOwi c (Sim.mkBus [d] [rom_bits d] Sim.RomCommand)))
    with (mkOwi c (Sim.mkBus [d] [rom_bits d] Sim.ReadRom)).
  rewrite exec_read_buf by (unfold OWI.ROM_MAX; lia).
  unfold with_crc. cbn [dev].
  destruct Hwf as [Hl Hr].
  rewrite (@read_bytes_single [d] OWI.ROM_MAX 0 (rom_bits d))
    by (rewrite rom_bits_length, Hl; unfold OWI.ROM_MAX; lia).
  unfold result, trace. cbn [fst snd m_crc].
  rewrite (skipn_all2 buf) by (unfold OWI.ROM_MAX; lia).
  rewrite app_nil_r.
  rewrite bytes_rom_bits by (split; assumption).
  rewrite firstn_all2
    by (rewrite rom_bits_length, Hl; unfold OWI.ROM_MAX; lia).
  split; reflexivity.
Qed.
End SimReadRom.

(** ** The whole enumeration *)

Section SimWhole.
Variable crc_bit : Z -> bool -> Z.

Variable ds : list (list Z).
Hypothesis ds_nonempty : nonempty ds = true.
Hypothesis ds_length : Forall (fun d => length d = OWI.ROM_MAX) ds.
Variable family : Z.

(** The whole enumeration from FIRST. *)
Lemma sim_enumerate calls fuel code s :
  Sim.devices (dev s) = ds -> length code = 8%nat ->
  (length ds <= calls)%nat -> (length ds <= fuel)%nat ->
  let x := exec (Sim.handler crc_bit)
                (enumerate calls fuel family code OWI.FIRST) s in
  fst (result x) = (Some OWI.LAST, visit_order family ds) /\
  Sim.devices (dev (final x)) = ds /\
  length (snd (result x)) = 8%nat.
Proof.
  intros Hs Hlen Hcalls Hfuel.
  pose proof (search_order_linked code ds_length ds_nonempty) as HL.
  pose proof (search_order_count ds) as Hcount.
  assert (Hne' : nonempty (map rom_bits ds) = true)
    by (destruct ds; [discriminate|reflexivity]).
  assert (Hne : search_order ds <> []).
  { unfold search_order.
    destruct (@walk_first 64 (map rom_bits ds) [] 0 OWI.FIRST OWI.LAST
                (rom_bits_uniform ds_length) Hne'
                ltac:(unfold OWI.FIRST; lia)) as (e & r & El & HE & _).
    rewrite HE. discriminate. }
  apply (@sim_enumerate_linked crc_bit ds ds_nonempty ds_length family
           calls (search_order ds) fuel code OWI.FIRST s
           Hs Hlen HL Hne); lia.
Qed.
End SimWhole.

(** ** A bus without devices *)

Lemma sim_enumerate_empty crc_bit calls fuel family code last s :
  Sim.devices (dev s) = [] ->
  let x := exec (Sim.handler crc_bit)
                (enumerate (S calls) (S fuel) family code last) s in
  result x = (Some OWI.ERROR, [], code) /\ Sim.devices (dev (final x)) = [].
Proof.
  intros Hs. destruct s as [c [ds0 act0 ph]]. cbn [dev Sim.devices] in Hs.
  subst ds0. cbv zeta. cbn [enumerate]. rewrite exec_bind.
  rewrite exec_search_rom_S.
  change (phy_reset (Sim.handler crc_bit) (mkOwi c (Sim.mkBus [] act0 ph)))
    with (false, mkOwi c (Sim.mkBus [] (map rom_bits []) Sim.RomCommand)).
  cbn [negb]. split; reflexivity.
Qed.

(** ** A bus that loses pairs *)

Lemma glitch_search_fault c m code last :
  exec glitch (OWI.search code last) (mkOwi c (S m))
  = ((OWI.ERROR, code), mkOwi c m, [EvRead 2 3]).
Proof. reflexivity. Qed.

(** While pairs are lost and the first byte of the buffer is not the family
    asked for, [search_rom] keeps running. *)
Lemma glitch_loops fuel : forall c code,
  get code 0 <> 0xFF ->
  result (exec glitch (OWI.search_rom fuel 0xFF code OWI.FIRST) (mkOwi c fuel))
  = (None, code).
Proof.
  induction fuel as [|fuel IH]; intros c code Hc.
  - reflexivity.
  - rewrite exec_search_rom_S.
    change (phy_reset glitch (mkOwi c (S fuel))) with (true, mkOwi c (S fuel)).
    cbn [negb]. cbv zeta.
    change (phy_write glitch OWI.SEARCH_ROM OWI.CHARBITS (mkOwi c (S fuel)))
      with (mkOwi c (S fuel)).
    rewrite glitch_search_fault.
    destruct (Z.eqb_spec (get code 0) 255) as [He|_]; [contradiction|].
    change (negb (OWI.ERROR =? OWI.LAST) && negb (255 =? 0) && negb false)
      with true. cbv iota.
    specialize (IH c code Hc).
    change OWI.ERROR with OWI.FIRST.
    destruct (exec glitch (OWI.search_rom fuel 255 code OWI.FIRST)
                (mkOwi c fuel)) as [[res s4] t'].
    exact IH.
Qed.

(** With the wildcard family a fault of the pass is returned as it is. *)
Lemma search_rom_wildcard_fault {D} (h : phy D) fuel code last s s1 :
  phy_reset h s = (true, s1) ->
  fst (result (exec h (OWI.search code last)
                 (phy_write h OWI.SEARCH_ROM OWI.CHARBITS s1))) = OWI.ERROR ->
  fst (result (exec h (OWI.search_rom (S fuel) 0 code last) s))
  = Some OWI.ERROR.
Proof.
  intros Hr Hf. rewrite exec_search_rom_S, Hr. cbn [negb]. cbv zeta.
  destruct (exec h (OWI.search code last) _) as [[[last' code'] s3] t].
  unfold result in *. cbn [fst snd] in *. subst last'.
  change (0 =? 0) with true. cbn [negb]. rewrite andb_false_r.
  reflexivity.
Qed.

(** ** Discrepancies before the cursor, over a whole pass *)

Lemma codebit_at code (i j : nat) :
  (j < 8)%nat ->
  codebit code (8 * i + j) = Z.testbit (get code i) (Z.of_nat j).
Proof.
  intros Hj. unfold codebit.
  assert (Hd : ((8 * i + j) / 8 = i)%nat)
    by (symmetry; apply (Nat.div_unique _ 8 i j); lia).
  assert (Hm : ((8 * i + j) mod 8 = j)%nat)
    by (symmetry; apply (Nat.mod_unique _ 8 i j); lia).
  rewrite Hd, Hm. reflexivity.
Qed.

Lemma nth_error_snoc {A} (l : list A) x p y :
  nth_error (l ++ [x]) p = Some y ->
  nth_error l p = Some y \/ (p = length l /\ y = x).
Proof.
  intros H. destruct (Nat.lt_ge_cases p (length l)) as [Hlt|Hge].
  - rewrite nth_error_app1 in H by exact Hlt. left. exact H.
  - rewrite nth_error_app2 in H by exact Hge. right.
    destruct (p - length l)%nat as [|m] eqn:Hm; simpl in H.
    + inversion H. split; [lia | reflexivity].
    + destruct m; discriminate.
Qed.

Lemma bit_outcome_follow code last_in (i j : nat) v r t :
  (j < 8)%nat ->
  OWI.pos r = Z.of_nat (8 * i + j) ->
  follow_inv code last_in (Z.of_nat (8 * i + j)) (OWI.last r) t ->
  match bit_outcome v (Z.testbit (get code i) (Z.of_nat j)) r with
  | None => True
  | Some (wb, r') =>
      follow_inv code last_in (Z.of_nat (8 * i + S j)) (OWI.last r')
                 (t ++ block (v, option_map Z.b2z wb))
  end.
Proof.
  intros Hj Hpos [Hcur (rds & Ht & Hlen & Hfol)].
  assert (Hstep : forall wb,
            (v = 0 -> Z.of_nat (8 * i + j) < last_in ->
             wb = Some (Z.testbit (get code i) (Z.of_nat j))) ->
            exists rds',
              t ++ block (v, option_map Z.b2z wb) = flat_map block rds' /\
              Z.of_nat (length rds') = Z.of_nat (8 * i + S j) /\
              forall p b, nth_error rds' p = Some (0, Some b) ->
                          Z.of_nat p < last_in ->
                          b = Z.b2z (codebit code p)).
  { intros wb Hwb. exists (rds ++ [(v, option_map Z.b2z wb)]).
    split; [rewrite flat_map_snoc, Ht; reflexivity|].
    split; [rewrite length_app; simpl; lia|].
    intros p b Hp Hlt. apply nth_error_snoc in Hp.
    destruct Hp as [Hp|[Hp Hy]]; [apply (Hfol p b Hp Hlt)|].
    assert (Hpk : p = (8 * i + j)%nat) by lia. subst p.
    inversion Hy as [[Hv Hb]]. subst v.
    rewrite (Hwb eq_refl ltac:(lia)) in Hb. simpl in Hb.
    rewrite Hpk, codebit_at by exact Hj. congruence. }
  unfold bit_outcome.
  destruct (Z.eqb_spec v 0) as [Hv0|Hv0].
  - destruct (Z.eqb_spec (OWI.pos r) (OWI.last r)) as [He|Hne].
    + split.
      * right. split; [reflexivity|]. cbn [OWI.last].
        destruct Hcur as [Hc|[Hc _]]; [lia|].
        unfold OWI.FIRST in Hc. lia.
      * apply Hstep. intros _ Hlt.
        destruct Hcur as [Hc|[Hc _]]; [lia|unfold OWI.FIRST in Hc; lia].
    + destruct (Z.gtb_spec (OWI.pos r) (OWI.last r)) as [Hgt|Hle].
      * split.
        -- cbn [OWI.last]. destruct Hcur as [Hc|[Hc Hl]];
             [left; exact Hc | right; split; [exact Hc | lia]].
        -- apply Hstep. intros _ Hlt.
           destruct Hcur as [Hc|[Hc Hl]]; lia.
      * assert (Hc : OWI.last r = last_in).
        { destruct Hcur as [Hc|[Hc _]]; [exact Hc|].
          unfold OWI.FIRST in Hc. lia. }
        destruct (Z.testbit (get code i) (Z.of_nat j)) eqn:Hb.
        -- split; [left; exact Hc|]. apply Hstep. intros; reflexivity.
        -- split; [left; exact Hc|]. apply Hstep. intros; reflexivity.
  - assert (Hother : forall wb r',
              OWI.last r' = OWI.last r ->
              follow_inv code last_in (Z.of_nat (8 * i + S j)) (OWI.last r')
                         (t ++ block (v, option_map Z.b2z wb))).
    { intros wb r' Hl. split.
      - rewrite Hl. destruct Hcur as [Hc|[Hc Hlt]];
          [left; exact Hc | right; split; [exact Hc | lia]].
      - apply Hstep. intros Hv. contradiction. }
    destruct (v =? 1); [apply Hother; reflexivity|].
    destruct (v =? 2); [apply Hother; reflexivity|].
    destruct (v =? 3); [exact I|].
    apply Hother; reflexivity.
Qed.

Lemma bit_outcome_pos v hc r wb r' :
  bit_outcome v hc r = Some (wb, r') -> OWI.pos r' = u8 (OWI.pos r + 1).
Proof.
  unfold bit_outcome.
  repeat match goal with
         | |- context [if ?c then _ else _] => destruct c
         end; intros H; inversion H; reflexivity.
Qed.

Section PassFollow.
Context {D : Type} (h : phy D).
Variable code_in : list Z.
Variable last_in : Z.

Lemma search_inner_follow c (i : nat) r0 s t :
  (i < 8)%nat -> get c i = get code_in i ->
  OWI.pos r0 = Z.of_nat (8 * i) ->
  follow_inv code_in last_in (Z.of_nat (8 * i)) (OWI.last r0) t ->
  match exec h (for_loop 8 0 (OWI.search_bit c i) r0) s with
  | (inl _, _, _) => True
  | (inr r', _, t') =>
      OWI.pos r' = Z.of_nat (8 * S i) /\
      follow_inv code_in last_in (Z.of_nat (8 * S i)) (OWI.last r') (t ++ t')
  end.
Proof.
  intros Hi Hget Hpos Hinv.
  pose (Inv := fun (j : nat) (r : OWI.regs) (_ : owi D) (t : list event) =>
               OWI.pos r = Z.of_nat (8 * i + j) /\
               follow_inv code_in last_in (Z.of_nat (8 * i + j))
                          (OWI.last r) t).
  pose (Q := fun (_ : unit) (_ : owi D) (_ : list event) => True).
  pose proof (@for_loop_rule D h unit OWI.regs
                (OWI.search_bit c i) Inv Q 8%nat) as Hrule.
  lapply Hrule; [clear Hrule; intros Hrule|].
  2: { intros j r s1 t1 Hj [Hp Hv]. rewrite exec_search_bit. cbv zeta.
       rewrite Hget.
       pose proof (@bit_outcome_follow code_in last_in i j
                     (u8 (fst (phy_read h 2 s1))) r t1 Hj Hp Hv) as Hstep.
       destruct (bit_outcome _ _ r) as [[wb r']|] eqn:Hbo; [|exact I].
       apply bit_outcome_pos in Hbo.
       assert (Hp' : OWI.pos r' = Z.of_nat (8 * i + S j)).
       { rewrite Hbo, Hp. unfold u8. rewrite Z.mod_small; lia. }
       destruct wb as [b|]; split; assumption. }
  specialize (Hrule 8%nat 0%nat r0 s t eq_refl).
  assert (HI : Inv 0%nat r0 s t).
  { unfold Inv. rewrite Nat.add_0_r. split; assumption. }
  specialize (Hrule HI).
  destruct (exec h (for_loop 8 0 (OWI.search_bit c i) r0) s)
    as [[[u|r'] s'] t']; [exact I|].
  destruct Hrule as [Hp Hv].
  replace (8 * S i)%nat with (8 * i + 8)%nat by lia. split; assumption.
Qed.

(** Over a complete pass, every discrepancy before the caller's cursor was
    answered with the bit of the caller's buffer. *)
Lemma search_pass_follow s :
  match exec h (OWI.search code_in last_in) s with
  | ((r, _), _, t) =>
      r = OWI.ERROR \/
      exists l, follow_inv code_in last_in 64 l t
  end.
Proof.
  unfold OWI.search. rewrite exec_bind.
  pose (Inv := fun (i : nat) (st : list Z * OWI.regs) (_ : owi D)
                 (t : list event) =>
               OWI.pos (snd st) = Z.of_nat (8 * i) /\
               (forall i', (i <= i')%nat ->
                           get (fst st) i' = get code_in i') /\
               follow_inv code_in last_in (Z.of_nat (8 * i))
                          (OWI.last (snd st)) t).
  pose (Q := fun (res : Z * list Z) (_ : owi D) (_ : list event) =>
               fst res = OWI.ERROR).
  pose proof (@for_loop_rule D h (Z * list Z) (list Z * OWI.regs)
                OWI.search_byte Inv Q 8%nat) as Hrule.
  lapply Hrule; [clear Hrule; intros Hrule|].
  2: { intros i [c r] s1 t1 Hi (Hp & Hbuf & Hv). cbn [fst snd] in *.
       unfold OWI.search_byte. rewrite exec_bind.
       pose proof (@search_inner_follow c i
                     (OWI.mkRegs (OWI.pos r) (OWI.next r) (OWI.last r) 0)
                     s1 t1 Hi (Hbuf i (Nat.le_refl i)) Hp Hv) as Hin.
       destruct (exec h (for_loop 8 0 (OWI.search_bit c i) _) s1)
         as [[[u|r'] s2] t2]; simpl; rewrite app_nil_r.
       - reflexivity.
       - destruct Hin as [Hp' Hv']. unfold Inv. cbn [fst snd].
         split; [exact Hp'|]. split; [|exact Hv'].
         intros i' Hi'. rewrite get_upd_other by lia. apply Hbuf. lia. }
  specialize (Hrule 8%nat 0%nat (code_in, OWI.mkRegs 0 OWI.LAST last_in 0)
                s [] eq_refl).
  lapply Hrule; [clear Hrule; intros Hrule|].
  2: { repeat split; cbn [fst snd OWI.pos OWI.last].
       - left. reflexivity.
       - exists []. repeat split. intros p b Hp. destruct p; discriminate. }
  destruct (exec h (for_loop 8 0 OWI.search_byte _) s)
    as [[[[r c]|[c r]] s'] t']; simpl in *; rewrite app_nil_r.
  - left. exact Hrule.
  - right. destruct Hrule as (_ & _ & Hv). eexists. exact Hv.
Qed.
End PassFollow.

Lemma zero_branches_in rds : forall q p,
  nth_error rds p = Some (0, Some 0) ->
  In (q + Z.of_nat p) (zero_branches q rds).
Proof.
  induction rds as [|[v o] rds IH]; intros q p Hp.
  - destruct p; discriminate.
  - destruct p as [|p].
    + inversion Hp; subst. simpl. left. lia.
    + simpl in Hp. specialize (IH (q + 1) p Hp).
      replace (q + Z.of_nat (S p)) with (q + 1 + Z.of_nat p) by lia.
      destruct v as [|v|v]; [destruct o as [[|b|b]|] | |]; simpl; auto.
Qed.

(** * Further proofs *)

(** ** Writing a block, [match_rom], [skip_rom], [read_rom] *)

Section MoreTransactions.
Context {D : Type} (h : phy D).

Lemma exec_write_loop count : forall bp buf s,
  (bp + count <= length buf)%nat ->
  exec h (OWI.write_loop count bp buf) s =
  (tt, write_bytes h (firstn count (skipn bp buf)) s,
   map (fun b => EvWrite b OWI.CHARBITS) (firstn count (skipn bp buf))).
Proof.
  induction count as [|count IH]; intros bp buf s Hlen.
  - reflexivity.
  - cbn [OWI.write_loop]. rewrite exec_bind, exec_write.
    rewrite IH by lia.
    rewrite (@skipn_get buf bp) by lia. cbn [firstn].
    reflexivity.
Qed.

Lemma exec_write_buf value buf count s :
  (count <= length buf)%nat ->
  exec h (OWI.write_buf value buf count) s =
  (tt, write_bytes h (value :: firstn count buf) s,
   map (fun b => EvWrite b OWI.CHARBITS) (value :: firstn count buf)).
Proof.
  intros Hlen. unfold OWI.write_buf. rewrite exec_bind, exec_write.
  rewrite exec_write_loop by lia. rewrite skipn_O. reflexivity.
Qed.
End MoreTransactions.

(** ** What a pass stores in the buffer, on any bus *)

Lemma bit_outcome_store v hc r :
  match bit_outcome v hc r with
  | None => v = 3
  | Some (wb, r') =>
      OWI.data r' = shift_in (stored (v, option_map Z.b2z wb)) (OWI.data r) /\
      legal_round (v, option_map Z.b2z wb)
  end.
Proof.
  unfold bit_outcome, shift_in, stored, legal_round.
  destruct (Z.eqb_spec v 0) as [H0|H0].
  - destruct (OWI.pos r =? OWI.last r); [cbn; split; auto|].
    destruct (OWI.pos r >? OWI.last r); [cbn; split; auto|].
    destruct hc; cbn; split; auto.
  - destruct (Z.eqb_spec v 1) as [H1|H1]; [cbn; split; auto|].
    destruct (Z.eqb_spec v 2) as [H2|H2]; [cbn; split; auto|].
    destruct (Z.eqb_spec v 3) as [H3|H3]; [exact H3|].
    cbn. split; auto.
Qed.

Lemma nth_map_stored rds j : nth j (map stored rds) false = stored_at rds j.
Proof.
  unfold stored_at. revert j; induction rds as [|rd rds IH]; intros [|j];
    simpl; auto.
Qed.

Lemma testbit_bits_value bs (j : nat) :
  length bs = 8%nat -> (j < 8)%nat ->
  Z.testbit (bits_value bs) (Z.of_nat j) = nth j bs false.
Proof.
  intros Hl Hj. rewrite <- (byte_bits_value bs Hl) at 2.
  do 8 (destruct j as [|j]; [reflexivity|]). lia.
Qed.

Section PassStore.
Context {D : Type} (h : phy D).

(** The inner loop for one byte: eight legal rounds whose stored bits make
    the byte, or a fault after fewer. *)
Lemma search_inner_store code i r0 s :
  OWI.data r0 = 0 ->
  match exec h (for_loop 8 0 (OWI.search_bit code i) r0) s with
  | (inl _, _, t) =>
      exists rds, t = flat_map block rds ++ [EvRead 2 3] /\
                  (length rds < 8)%nat /\ Forall legal_round rds
  | (inr r', _, t) =>
      exists rds, t = flat_map block rds /\ length rds = 8%nat /\
                  Forall legal_round rds /\
                  OWI.data r' = bits_value (map stored rds)
  end.
Proof.
  intros Hd0.
  pose (Inv := fun (j : nat) (r : OWI.regs) (_ : owi D) (t : list event) =>
                 exists rds, t = flat_map block rds /\ length rds = j /\
                   Forall legal_round rds /\
                   OWI.data r
                   = fold_left (fun d b => shift_in b d) (map stored rds) 0).
  pose (Q := fun (_ : unit) (_ : owi D) (t : list event) =>
               exists rds, t = flat_map block rds ++ [EvRead 2 3] /\
                           (length rds < 8)%nat /\ Forall legal_round rds).
  pose proof (@for_loop_rule D h unit OWI.regs
                (OWI.search_bit code i) Inv Q 8%nat) as Hrule.
  lapply Hrule; [clear Hrule; intros Hrule|].
  2: { intros j r s1 t1 Hj (rds & Ht & Hlen & Hleg & Hdata).
       rewrite exec_search_bit. cbv zeta.
       pose proof (bit_outcome_store (u8 (fst (phy_read h 2 s1)))
                     (Z.testbit (get code i) (Z.of_nat j)) r) as Hstep.
       destruct (bit_outcome _ _ r) as [[wb r']|].
       - destruct Hstep as [Hd Hl].
         assert (HInv : Inv (S j) r' s1
                   (t1 ++ block (u8 (fst (phy_read h 2 s1)),
                                 option_map Z.b2z wb))).
         { exists (rds ++ [(u8 (fst (phy_read h 2 s1)), option_map Z.b2z wb)]).
           repeat split.
           - rewrite flat_map_snoc, Ht. reflexivity.
           - rewrite length_app. simpl. lia.
           - apply Forall_app. split; [exact Hleg|].
             constructor; [exact Hl | constructor].
           - rewrite map_app, fold_left_app. cbn [map fold_left].
             rewrite <- Hdata. exact Hd. }
         destruct wb as [b|]; exact HInv.
       - rewrite Hstep. exists rds. subst t1. repeat split; auto. lia. }
  specialize (Hrule 8%nat 0%nat r0 s [] eq_refl).
  lapply Hrule; [clear Hrule; intros Hrule|].
  2: { exists []. repeat split; [constructor | exact Hd0]. }
  destruct (exec h (for_loop 8 0 (OWI.search_bit code i) r0) s)
    as [[[u|r'] s'] t']; cbn [app] in Hrule.
  - exact Hrule.
  - destruct Hrule as (rds & Ht & Hlen & Hleg & Hdata).
    exists rds. repeat split; auto.
    rewrite Hdata. apply shift_in_byte. rewrite length_map. exact Hlen.
Qed.

(** A pass over a buffer of at least eight bytes: either all 64 rounds, with
    the stored bits in the buffer, or a fault, with the bytes from the one
    it happened in still the caller's. *)
Lemma search_pass_store code last s :
  (8 <= length code)%nat ->
  match exec h (OWI.search code last) s with
  | ((r, code'), _, t) =>
      length code' = length code /\
      ((r = OWI.ERROR /\
        exists rds, t = flat_map block rds ++ [EvRead 2 3] /\
          (length rds < 64)%nat /\ Forall legal_round rds /\
          (forall i', (length rds / 8 <= i')%nat ->
                      get code' i' = get code i') /\
          (forall p, (p < 8 * (length rds / 8))%nat ->
                     codebit code' p = stored_at rds p)) \/
       (exists rds, t = flat_map block rds /\ length rds = 64%nat /\
          Forall legal_round rds /\
          (forall i', (8 <= i')%nat -> get code' i' = get code i') /\
          (forall p, (p < 64)%nat -> codebit code' p = stored_at rds p)))
  end.
Proof.
  intros Hlen. unfold OWI.search. rewrite exec_bind.
  pose (Inv := fun (i : nat) (st : list Z * OWI.regs) (_ : owi D)
                   (t : list event) =>
                 length (fst st) = length code /\
                 (forall i', (i <= i')%nat ->
                             get (fst st) i' = get code i') /\
                 exists rds, t = flat_map block rds /\
                   length rds = (8 * i)%nat /\ Forall legal_round rds /\
                   (forall p, (p < 8 * i)%nat ->
                              codebit (fst st) p = stored_at rds p)).
  pose (Q := fun (res : Z * list Z) (_ : owi D) (t : list event) =>
               length (snd res) = length code /\ fst res = OWI.ERROR /\
               exists rds, t = flat_map block rds ++ [EvRead 2 3] /\
                 (length rds < 64)%nat /\ Forall legal_round rds /\
                 (forall i', (length rds / 8 <= i')%nat ->
                             get (snd res) i' = get code i') /\
                 (forall p, (p < 8 * (length rds / 8))%nat ->
                            codebit (snd res) p = stored_at rds p)).
  pose proof (@for_loop_rule D h (Z * list Z) (list Z * OWI.regs)
                OWI.search_byte Inv Q 8%nat) as Hrule.
  lapply Hrule; [clear Hrule; intros Hrule|].
  2: { intros i [c r] s1 t1 Hi (Hlc & Hbuf & rds0 & Ht & Hl0 & Hleg0 & Hst).
       cbn [fst snd] in *.
       unfold OWI.search_byte. rewrite exec_bind.
       pose proof (@search_inner_store c i
                     (OWI.mkRegs (OWI.pos r) (OWI.next r) (OWI.last r) 0)
                     s1 eq_refl) as Hin.
       destruct (exec h (for_loop 8 0 (OWI.search_bit c i) _) s1)
         as [[[u|r'] s2] t2]; cbn [exec]; rewrite app_nil_r.
       - destruct Hin as (rds1 & Ht2 & Hl1 & Hleg1).
         assert (Hdiv : (length (rds0 ++ rds1) / 8 = i)%nat).
         { rewrite length_app, Hl0. symmetry.
           apply (Nat.div_unique _ 8 i (length rds1)); lia. }
         unfold Q. cbn [fst snd]. repeat split; auto.
         exists (rds0 ++ rds1). rewrite Hdiv. repeat split.
         + rewrite flat_map_app, Ht, Ht2, app_assoc. reflexivity.
         + rewrite length_app. lia.
         + apply Forall_app. split; assumption.
         + exact Hbuf.
         + intros p Hp. rewrite (Hst p Hp). unfold stored_at.
           rewrite nth_error_app1 by lia. reflexivity.
       - destruct Hin as (rds1 & Ht2 & Hl1 & Hleg1 & Hdata).
         unfold Inv. cbn [fst snd]. repeat split.
         + rewrite upd_length. exact Hlc.
         + intros i' Hi'. rewrite get_upd_other by lia. apply Hbuf. lia.
         + exists (rds0 ++ rds1). repeat split.
           * rewrite flat_map_app, Ht, Ht2. reflexivity.
           * rewrite length_app. lia.
           * apply Forall_app. split; assumption.
           * intros p Hp. unfold stored_at.
             destruct (Nat.lt_ge_cases p (8 * i)) as [Hlt|Hge].
             -- rewrite nth_error_app1 by lia.
                fold (stored_at rds0 p). rewrite <- (Hst p Hlt).
                unfold codebit. rewrite get_upd_other; [reflexivity|].
                assert (p / 8 < i)%nat
                  by (apply Nat.Div0.div_lt_upper_bound; lia).
                lia.
             -- rewrite nth_error_app2 by lia. rewrite Hl0.
                fold (stored_at rds1 (p - 8 * i)).
                replace p with (8 * i + (p - 8 * i))%nat at 1 by lia.
                rewrite codebit_at by lia.
                rewrite get_upd_same by lia.
                rewrite Hdata, testbit_bits_value
                  by (rewrite ?length_map; lia).
                apply nth_map_stored. }
  specialize (Hrule 8%nat 0%nat (code, OWI.mkRegs 0 OWI.LAST last 0) s []
                eq_refl).
  lapply Hrule; [clear Hrule; intros Hrule|].
  2: { unfold Inv. cbn [fst snd]. repeat split.
       exists []. repeat split; [constructor|]. intros p Hp. lia. }
  destruct (exec h (for_loop 8 0 OWI.search_byte _) s)
    as [[[[r c]|[c r]] s'] t']; cbn [app exec] in *; rewrite app_nil_r.
  - destruct Hrule as (Hlc & He & Hrest). cbn [fst snd] in *.
    split; [exact Hlc|]. left. split; [exact He | exact Hrest].
  - destruct Hrule as (Hlc & Hbuf & rds & Ht & Hl & Hleg & Hst).
    cbn [fst snd] in *. split; [exact Hlc|]. right.
    exists rds. repeat split; auto.
Qed.
End PassStore.

Lemma legal_no_fault_read rds bits :
  Forall legal_round rds -> ~ In (EvRead bits 3) (flat_map block rds).
Proof.
  intros Hleg Hin. apply in_flat_map in Hin. destruct Hin as (rd & Hrd & Hin).
  rewrite Forall_forall in Hleg. specialize (Hleg rd Hrd).
  destruct rd as [v [b|]]; simpl in Hin, Hleg.
  - destruct Hin as [He|[He|[]]]; [|discriminate].
    inversion He; subst. destruct Hleg as [[? _]|[[? _]|[? _]]]; lia.
  - destruct Hin as [He|[]]. inversion He; subst. lia.
Qed.

(** A pass returns ERROR exactly when it read the pair (1,1). *)
Lemma search_error_iff {D} (h : phy D) code last s :
  (8 <= length code)%nat ->
  let x := exec h (OWI.search code last) s in
  fst (result x) = OWI.ERROR <-> In (EvRead 2 3) (trace x).
Proof.
  intros Hlen. cbv zeta.
  pose proof (search_pass_store h code last s Hlen) as Hst.
  pose proof (search_pass h code last s) as Hp.
  destruct (exec h (OWI.search code last) s) as [[[r c] s'] t].
  unfold result, trace. cbn [fst snd].
  destruct Hst as [_ [(He & rds & Ht & _)|(rds & Ht & _ & Hleg & _)]].
  - split; [intros _|intros _; exact He].
    rewrite Ht. apply in_or_app. right. left. reflexivity.
  - split.
    + intros He. destruct Hp as [(_ & k & _ & rds' & Ht' & _)|Hinv].
      * exfalso. apply (legal_no_fault_read 2 Hleg). rewrite <- Ht, Ht'.
        apply in_or_app. right. left. reflexivity.
      * apply pass_inv_range in Hinv; [|lia].
        unfold OWI.ERROR, OWI.LAST, OWI.ROMBITS in *. simpl in Hinv. lia.
    + intros Hin. exfalso. apply (legal_no_fault_read 2 Hleg).
      rewrite <- Ht. exact Hin.
Qed.

(** ** A pass that starts from a negative cursor *)

Lemma u8_nonneg z : 0 <= u8 z.
Proof. unfold u8. pose proof (Z.mod_pos_bound z 256). lia. Qed.

Lemma bit_outcome_fresh v hc1 hc2 r :
  OWI.last r < 0 -> 0 <= OWI.pos r ->
  bit_outcome v hc1 r = bit_outcome v hc2 r /\
  forall o r', bit_outcome v hc1 r = Some (o, r') ->
               OWI.last r' < 0 /\ 0 <= OWI.pos r'.
Proof.
  intros Hl Hp. unfold bit_outcome. cbv zeta.
  assert (H1 : (OWI.pos r =? OWI.last r) = false) by (apply Z.eqb_neq; lia).
  assert (H2 : (OWI.pos r >? OWI.last r) = true)
    by (apply Z.gtb_lt; lia).
  rewrite H1, H2.
  pose proof (u8_nonneg (OWI.pos r + 1)) as Hu.
  split; [reflexivity|].
  intros o r'.
  destruct (v =? 0); [|destruct (v =? 1); [|destruct (v =? 2);
    [|destruct (v =? 3)]]];
    intros He; inversion He; subst; cbn; split; assumption.
Qed.

Section FreshPass.
Context {D : Type}.
Variable h : phy D.

Lemma search_inner_fresh c1 c2 i1 i2 : forall n j r s,
  OWI.last r < 0 -> 0 <= OWI.pos r ->
  exec h (for_loop n j (OWI.search_bit c1 i1) r) s =
  exec h (for_loop n j (OWI.search_bit c2 i2) r) s /\
  match fst (fst (exec h (for_loop n j (OWI.search_bit c1 i1) r) s)) with
  | inl _ => True
  | inr r' => OWI.last r' < 0 /\ 0 <= OWI.pos r'
  end.
Proof.
  induction n as [|n IH]; intros j r s Hl Hp.
  - simpl. auto.
  - cbn [for_loop]. rewrite !exec_bind, !exec_search_bit. cbv zeta.
    destruct (@bit_outcome_fresh (u8 (fst (phy_read h 2 s)))
                (Z.testbit (get c1 i1) (Z.of_nat j))
                (Z.testbit (get c2 i2) (Z.of_nat j)) r Hl Hp) as [He Hn].
    rewrite <- He.
    destruct (bit_outcome (u8 (fst (phy_read h 2 s)))
                (Z.testbit (get c1 i1) (Z.of_nat j)) r) as [[o r']|] eqn:Hb.
    + destruct (Hn o r' eq_refl) as [Hl' Hp'].
      destruct o as [b|].
      * destruct (IH (S j) r' (phy_write h (Z.b2z b) 1 (snd (phy_read h 2 s)))
                    Hl' Hp') as [IH1 IH2].
        rewrite <- IH1.
        destruct (exec h (for_loop n (S j) (OWI.search_bit c1 i1) r') _)
          as [[[u|r''] s2] t2]; cbn [fst snd] in *; auto.
      * destruct (IH (S j) r' (snd (phy_read h 2 s)) Hl' Hp') as [IH1 IH2].
        rewrite <- IH1.
        destruct (exec h (for_loop n (S j) (OWI.search_bit c1 i1) r') _)
          as [[[u|r''] s2] t2]; cbn [fst snd] in *; auto.
    + simpl. auto.
Qed.

Lemma same_prefix_upd k c1 c2 v :
  same_prefix k c1 c2 -> (k < length c1)%nat ->
  same_prefix (S k) (upd c1 k v) (upd c2 k v).
Proof.
  intros [Hlen Hpre] Hk. split.
  - rewrite !upd_length. exact Hlen.
  - intros i Hi. destruct (Nat.eq_dec i k) as [->|Hne].
    + rewrite !get_upd_same by lia. reflexivity.
    + rewrite !get_upd_other by lia. apply Hpre. lia.
Qed.

Lemma exec_search_byte i c r s :
  exec h (OWI.search_byte i (c, r)) s =
  match exec h (for_loop 8 0 (OWI.search_bit c i)
                  (OWI.mkRegs (OWI.pos r) (OWI.next r) (OWI.last r) 0)) s with
  | (inl _, s1, t1) => (inl (OWI.ERROR, c), s1, t1)
  | (inr r', s1, t1) => (inr (upd c i (OWI.data r'), r'), s1, t1)
  end.
Proof.
  unfold OWI.search_byte. rewrite exec_bind.
  destruct (exec h (for_loop 8 0 (OWI.search_bit c i) _) s)
    as [[[u|r'] s1] t1]; cbn [exec]; rewrite app_nil_r; reflexivity.
Qed.

Lemma search_outer_fresh : forall n i c1 c2 r s,
  OWI.last r < 0 -> 0 <= OWI.pos r ->
  same_prefix i c1 c2 -> (i + n <= length c1)%nat ->
  match exec h (for_loop n i OWI.search_byte (c1, r)) s,
        exec h (for_loop n i OWI.search_byte (c2, r)) s with
  | (inl (e1, c1'), s1, t1), (inl (e2, c2'), s2, t2) =>
      e1 = OWI.ERROR /\ e2 = OWI.ERROR /\ s1 = s2 /\ t1 = t2
  | (inr (c1', r1), s1, t1), (inr (c2', r2), s2, t2) =>
      r1 = r2 /\ s1 = s2 /\ t1 = t2 /\ same_prefix (i + n) c1' c2' /\
      length c1' = length c1
  | _, _ => False
  end.
Proof.
  induction n as [|n IH]; intros i c1 c2 r s Hl Hp Hrel Hlen.
  - simpl. rewrite Nat.add_0_r. auto 6.
  - cbn [for_loop]. rewrite !exec_bind, !exec_search_byte.
    destruct (@search_inner_fresh c1 c2 i i 8 0%nat
                (OWI.mkRegs (OWI.pos r) (OWI.next r) (OWI.last r) 0) s
                Hl Hp) as [He Hn].
    rewrite <- He.
    destruct (exec h (for_loop 8 0 (OWI.search_bit c1 i) _) s)
      as [[[u|r'] s1] t1]; cbn [fst snd] in *.
    + simpl. auto.
    + destruct Hn as [Hl' Hp'].
      specialize (IH (S i) (upd c1 i (OWI.data r')) (upd c2 i (OWI.data r'))
                    r' s1 Hl' Hp').
      lapply IH; [clear IH; intros IH|apply same_prefix_upd; [exact Hrel|lia]].
      lapply IH; [clear IH; intros IH|rewrite upd_length; lia].
      replace (i + S n)%nat with (S i + n)%nat by lia.
      destruct (exec h (for_loop n (S i) OWI.search_byte
                          (upd c1 i (OWI.data r'), r')) s1)
        as [[[[e1 c1']|[c1' r1]] s2] t2];
      destruct (exec h (for_loop n (S i) OWI.search_byte
                          (upd c2 i (OWI.data r'), r')) s1)
        as [[[[e2 c2']|[c2' r2]] s3] t3]; try contradiction.
      * destruct IH as (-> & -> & -> & ->). auto.
      * destruct IH as (-> & -> & -> & Hr & Hlc).
        rewrite upd_length in Hlc. auto 6.
Qed.

Lemma same_prefix_all c1 c2 :
  same_prefix (length c1) c1 c2 -> c1 = c2.
Proof.
  intros [Hlen Hpre]. apply (nth_ext c1 c2 0 0 Hlen). exact Hpre.
Qed.

Lemma search_fresh code1 code2 last s :
  last < 0 -> length code1 = 8%nat -> length code2 = 8%nat ->
  match exec h (OWI.search code1 last) s,
        exec h (OWI.search code2 last) s with
  | ((r1, c1), s1, t1), ((r2, c2), s2, t2) =>
      r1 = r2 /\ s1 = s2 /\ t1 = t2 /\ (r1 <> OWI.ERROR -> c1 = c2)
  end.
Proof.
  intros Hl H1 H2. unfold OWI.search. rewrite !exec_bind.
  pose proof (@search_outer_fresh 8 0 code1 code2
                (OWI.mkRegs 0 OWI.LAST last 0) s Hl (Z.le_refl 0)) as Ho.
  lapply Ho; [clear Ho; intros Ho|split; [congruence|intros i Hi; lia]].
  lapply Ho; [clear Ho; intros Ho|simpl; lia].
  destruct (exec h (for_loop 8 0 OWI.search_byte
                      (code1, OWI.mkRegs 0 OWI.LAST last 0)) s)
    as [[[[e1 c1']|[c1' r1]] s2] t2];
  destruct (exec h (for_loop 8 0 OWI.search_byte
                      (code2, OWI.mkRegs 0 OWI.LAST last 0)) s)
    as [[[[e2 c2']|[c2' r2]] s3] t3]; try contradiction;
  cbn [exec fst snd]; rewrite !app_nil_r.
  - destruct Ho as (-> & -> & -> & ->). repeat split; auto.
    intros Hne. contradiction.
  - destruct Ho as (-> & -> & -> & Hr & Hlc). repeat split; auto.
    intros _. apply same_prefix_all. rewrite Hlc, H1. exact Hr.
Qed.
End FreshPass.

(** ** A pass on the simulated bus from any buffer and cursor *)

(** Whatever the buffer and the cursor, the walk ends at one of the entries
    of the search order, with the cursor of that entry. *)
Lemma walk_entry n : forall act c pos last next,
  uniform n act -> nonempty act = true ->
  exists x, In x (enumc n pos act) /\
    walk_out (walk n act c pos last next)
    = (fst x, match snd x with Some q => q | None => next end).
Proof.
  induction n as [|n IH]; intros act c pos last next Hu Hne.
  - exists ([], None). cbn [enumc]. rewrite Hne. split; [left|]; reflexivity.
  - rewrite walk_S. rewrite enumc_S by exact Hne. cbv zeta. unfold choose.
    rewrite (all1_sel Hu), (all0_sel Hu).
    pose proof (sel_nonempty Hu Hne) as Hsome.
    assert (Htrue : forall last' ,
      nonempty (Sim.sel true act) = true ->
      exists x,
        In x (map (branch0 pos (nonempty (Sim.sel true act)))
                  (enumc n (pos + 1) (Sim.sel false act))
              ++ map branch1 (enumc n (pos + 1) (Sim.sel true act))) /\
        walk_out (true :: fst (walk n (Sim.sel true act) (tl c) (pos + 1)
                                    last' next),
                  snd (walk n (Sim.sel true act) (tl c) (pos + 1)
                            last' next))
        = (fst x, match snd x with Some q => q | None => next end)).
    { intros last' E1.
      destruct (IH (Sim.sel true act) (tl c) (pos + 1) last' next
                  (sel_uniform true Hu) E1) as (x' & Hin & Hw).
      exists (branch1 x'). split.
      - apply in_or_app. right. apply in_map. exact Hin.
      - unfold walk_out in *. cbn [fst snd] in *.
        inversion Hw as [[Hf Hs]]. rewrite Hf, Hs. reflexivity. }
    assert (Hfalse : forall next',
      nonempty (Sim.sel false act) = true ->
      next' = (if nonempty (Sim.sel true act) then pos else next) ->
      exists x,
        In x (map (branch0 pos (nonempty (Sim.sel true act)))
                  (enumc n (pos + 1) (Sim.sel false act))
              ++ map branch1 (enumc n (pos + 1) (Sim.sel true act))) /\
        walk_out (false :: fst (walk n (Sim.sel false act) (tl c) (pos + 1)
                                     last next'),
                  snd (walk n (Sim.sel false act) (tl c) (pos + 1)
                            last next'))
        = (fst x, match snd x with Some q => q | None => next end)).
    { intros next' E0 Hn'.
      destruct (IH (Sim.sel false act) (tl c) (pos + 1) last next'
                  (sel_uniform false Hu) E0) as (x' & Hin & Hw).
      exists (branch0 pos (nonempty (Sim.sel true act)) x'). split.
      - apply in_or_app. left. apply in_map. exact Hin.
      - unfold walk_out in *. cbn [fst snd] in *.
        inversion Hw as [[Hf Hs]]. rewrite Hf, Hs. unfold branch0.
        cbn [fst snd]. rewrite Hn'.
        destruct (snd x'); [reflexivity|].
        destruct (nonempty (Sim.sel true act)); reflexivity. }
    destruct (nonempty (Sim.sel false act)) eqn:E0;
      destruct (nonempty (Sim.sel true act)) eqn:E1;
      cbn [negb] in *; try discriminate.
    + destruct (pos =? last); cbn [fst snd];
        [apply (Htrue OWI.FIRST eq_refl)|].
      destruct (pos >? last); cbn [fst snd];
        [apply (Hfalse pos eq_refl eq_refl)|].
      destruct (hd false c); cbn [fst snd];
        [apply (Htrue last eq_refl)|apply (Hfalse pos eq_refl eq_refl)].
    + cbn [fst snd]. apply (Hfalse next eq_refl eq_refl).
    + cbn [fst snd]. apply (Htrue last eq_refl).
Qed.

Lemma enumc_in n : forall act pos x,
  uniform n act -> In x (enumc n pos act) -> In (fst x) act.
Proof.
  induction n as [|n IH]; intros act pos x Hu Hin.
  - cbn [enumc] in Hin. destruct act as [|d act]; [contradiction|].
    cbn [nonempty] in Hin. destruct Hin as [<-|[]]. cbn [fst].
    inversion Hu as [|? ? Hd _]; subst.
    destruct d; [left; reflexivity|discriminate].
  - destruct (nonempty act) eqn:Hne.
    + rewrite enumc_S in Hin by exact Hne. apply in_app_or in Hin.
      destruct Hin as [Hin|Hin]; apply in_map_iff in Hin;
        destruct Hin as (x' & <- & Hin').
      * cbn [branch0 fst]. apply (@sel_in n act false _ Hu).
        apply (IH _ _ _ (sel_uniform false Hu) Hin').
      * cbn [branch1 fst]. apply (@sel_in n act true _ Hu).
        apply (IH _ _ _ (sel_uniform true Hu) Hin').
    + apply nonempty_false in Hne. subst. rewrite enumc_nil in Hin.
      contradiction.
Qed.

Lemma linked_suffix ds : forall L1 code last y L2,
  Linked ds code last (L1 ++ y :: L2) ->
  0 <= snd y /\ (L2 = [] <-> snd y = OWI.LAST) /\
  Linked ds (fst y) (snd y) L2.
Proof.
  induction L1 as [|z L1 IH]; intros code last y L2 HL.
  - destruct HL as (_ & H0 & Hiff & HL). auto.
  - destruct HL as (_ & _ & _ & HL). apply (IH _ _ _ _ HL).
Qed.

Lemma search_order_eq ds :
  search_order ds
  = map (fun x => (bytes_of_bits 8 (fst x), cursor (snd x)))
        (enumc 64 0 (map rom_bits ds)).
Proof. unfold search_order. reflexivity. Qed.

Lemma search_order_in ds z :
  Forall rom_wf ds -> In z (search_order ds) -> In (fst z) ds.
Proof.
  intros Hwf Hin. rewrite search_order_eq in Hin. apply in_map_iff in Hin.
  destruct Hin as (x & Hx & Hin). rewrite <- Hx.
  pose proof (@enumc_in 64 (map rom_bits ds) 0 x
                (rom_bits_uniform (rom_wf_length Hwf)) Hin) as Hin'.
  apply in_map_iff in Hin'. destruct Hin' as (d & Hd1 & Hd).
  rewrite <- Hd1.
  change (In (bytes_of_bits 8 (rom_bits d)) ds).
  rewrite bytes_rom_bits; [exact Hd|].
  rewrite Forall_forall in Hwf. apply Hwf, Hd.
Qed.

Section SimAnyStart.
Variable crc_bit : Z -> bool -> Z.
Variable ds : list (list Z).
Hypothesis ds_nonempty : nonempty ds = true.
Hypothesis ds_length : Forall (fun d => length d = OWI.ROM_MAX) ds.
Variable family : Z.

Lemma pass_out_entry code last :
  exists L1 L2,
    search_order ds = L1 ++ pass_out ds code last :: L2 /\
    0 <= snd (pass_out ds code last) /\
    (L2 = [] <-> snd (pass_out ds code last) = OWI.LAST) /\
    Linked ds (fst (pass_out ds code last)) (snd (pass_out ds code last)) L2.
Proof.
  assert (Hne : nonempty (map rom_bits ds) = true)
    by (destruct ds; [discriminate|reflexivity]).
  destruct (@walk_entry 64 (map rom_bits ds) (rom_bits code) 0 last OWI.LAST
              (rom_bits_uniform ds_length) Hne) as (x & Hin & Hw).
  assert (Hy : pass_out ds code last
               = (bytes_of_bits 8 (fst x), cursor (snd x))).
  { unfold pass_out. cbv zeta. rewrite Hw. reflexivity. }
  assert (Hso : In (pass_out ds code last) (search_order ds)).
  { rewrite Hy, search_order_eq.
    apply (in_map (fun x => (bytes_of_bits 8 (fst x), cursor (snd x)))).
    exact Hin. }
  apply in_split in Hso. destruct Hso as (L1 & L2 & HE).
  exists L1, L2. split; [exact HE|].
  pose proof (search_order_linked code ds_length ds_nonempty) as HL.
  rewrite HE in HL. apply (linked_suffix _ _ _ _ _ _ HL).
Qed.

Lemma sim_search_rom_any fuel code last s :
  Sim.devices (dev s) = ds -> length code = 8%nat ->
  (length ds < fuel)%nat ->
  exists z s' t,
    In z (search_order ds) /\ stops family z = true /\ 0 <= snd z /\
    exec (Sim.handler crc_bit) (OWI.search_rom fuel family code last) s
    = ((Some (snd z), fst z), s', t) /\
    Sim.devices (dev s') = ds.
Proof.
  intros Hs Hlen Hfuel.
  destruct fuel as [|fuel]; [lia|].
  destruct (@sim_search_rom_S crc_bit ds fuel family code last s
              Hs ds_nonempty ds_length Hlen) as (s1 & t1 & Hs1 & Hex).
  destruct (pass_out_entry code last) as (L1 & L2 & HE & H0 & Hiff & HL).
  pose proof (search_order_count ds) as Hcount.
  rewrite HE, length_app in Hcount. cbn [length] in Hcount.
  cbv zeta in Hex.
  destruct (stops family (pass_out ds code last)) eqn:Hstop.
  - exists (pass_out ds code last), s1, t1. repeat split; auto.
    rewrite HE. apply in_or_app. right. left. reflexivity.
  - assert (HL2ne : L2 <> []).
    { intros HE2. apply Hiff in HE2. unfold stops in Hstop.
      rewrite HE2, Z.eqb_refl in Hstop. discriminate. }
    destruct (@sim_search_rom_linked crc_bit ds ds_nonempty ds_length family
                L2 fuel (fst (pass_out ds code last))
                (snd (pass_out ds code last)) s1 Hs1
                (pass_out_length ds code last) HL HL2ne ltac:(lia))
      as (L3 & z & L4 & s' & t & HE' & _ & Hz & Hex' & Hs' & _ & _ & Hz0 & _).
    rewrite Hex' in Hex.
    exists z, s', (t1 ++ t). repeat split; auto.
    rewrite HE, HE'. apply in_or_app. right. right.
    apply in_or_app. right. left. reflexivity.
Qed.
End SimAnyStart.

(** ** The order of the enumeration *)

Lemma ordpairs_app {A} (R : A -> A -> Prop) l1 : forall l2,
  ForallOrdPairs R l1 -> ForallOrdPairs R l2 ->
  (forall x y, In x l1 -> In y l2 -> R x y) ->
  ForallOrdPairs R (l1 ++ l2).
Proof.
  induction l1 as [|a l1 IH]; intros l2 H1 H2 Hx; [exact H2|].
  inversion H1 as [|? ? Ha H1']; subst. cbn [app]. constructor.
  - apply Forall_app. split; [exact Ha|].
    apply Forall_forall. intros y Hy. apply Hx; [left; reflexivity|exact Hy].
  - apply IH; auto. intros x y Hin Hy. apply Hx; [right; exact Hin|exact Hy].
Qed.

Lemma ordpairs_map {A B} (R : A -> A -> Prop) (R' : B -> B -> Prop)
    (f : A -> B) l :
  (forall x y, In x l -> In y l -> R x y -> R' (f x) (f y)) ->
  ForallOrdPairs R l -> ForallOrdPairs R' (map f l).
Proof.
  induction l as [|a l IH]; intros Hf Hl; [constructor|].
  inversion Hl as [|? ? Ha Hl']; subst. cbn [map]. constructor.
  - apply Forall_map. rewrite Forall_forall in *. intros y Hy.
    apply Hf; [left; reflexivity|right; exact Hy|apply Ha, Hy].
  - apply IH; [|exact Hl']. intros x y Hx Hy. apply Hf; right; assumption.
Qed.

Lemma ordpairs_filter {A} (R : A -> A -> Prop) (f : A -> bool) l :
  ForallOrdPairs R l -> ForallOrdPairs R (filter f l).
Proof.
  induction l as [|a l IH]; intros Hl; [constructor|].
  inversion Hl as [|? ? Ha Hl']; subst. cbn [filter].
  destruct (f a); [|apply IH, Hl'].
  constructor; [|apply IH, Hl'].
  rewrite Forall_forall in *. intros y Hy. apply filter_In in Hy.
  apply Ha, Hy.
Qed.

Lemma ordpairs_NoDup {A} (R : A -> A -> Prop) l :
  (forall x, ~ R x x) -> ForallOrdPairs R l -> NoDup l.
Proof.
  intros Hirr. induction 1 as [|a l Ha _ IH]; constructor; [|exact IH].
  intros Hin. rewrite Forall_forall in Ha. apply (Hirr a), Ha, Hin.
Qed.

Lemma bits_lt_irrefl a : bits_lt a a = false.
Proof.
  induction a as [|x a IH]; [reflexivity|].
  cbn [bits_lt]. rewrite Bool.eqb_reflx. exact IH.
Qed.

Lemma enumc_sorted n : forall act pos,
  ForallOrdPairs (fun x y => bits_lt (fst x) (fst y) = true)
                 (enumc n pos act).
Proof.
  induction n as [|n IH]; intros act pos; cbn [enumc];
    destruct (nonempty act); try constructor.
  - constructor.
  - constructor.
  - apply ordpairs_app.
    + apply (ordpairs_map (R := fun x y => bits_lt (fst x) (fst y) = true));
        [|apply IH].
      intros x y _ _ H. exact H.
    + apply (ordpairs_map (R := fun x y => bits_lt (fst x) (fst y) = true));
        [|apply IH].
      intros x y _ _ H. exact H.
    + intros x y Hx Hy. apply in_map_iff in Hx. apply in_map_iff in Hy.
      destruct Hx as (x' & <- & _). destruct Hy as (y' & <- & _).
      reflexivity.
Qed.

Lemma visit_order_sorted family ds :
  ForallOrdPairs code_lt (visit_order family ds).
Proof.
  unfold visit_order. rewrite search_order_eq.
  apply (ordpairs_map (R := fun x y => code_lt (fst x) (fst y)));
    [intros x y _ _ H; exact H|].
  apply ordpairs_filter.
  apply (ordpairs_map (R := fun x y => bits_lt (fst x) (fst y) = true));
    [|apply enumc_sorted].
  intros x y Hx Hy H. unfold code_lt. cbn [fst].
  rewrite !(@rom_bits_bytes 8);
    [exact H|apply (enumc_bits_length _ _ _ _ Hy)
            |apply (enumc_bits_length _ _ _ _ Hx)].
Qed.

(** ** The devices a family filter lets through *)

Lemma in_sel b t act : In (b :: t) act -> In t (Sim.sel b act).
Proof.
  intros Hin. unfold Sim.sel. apply in_map_iff. exists (b :: t).
  split; [reflexivity|]. apply filter_In. split; [exact Hin|].
  cbn [hd]. apply Bool.eqb_reflx.
Qed.

Lemma enumc_complete n : forall act pos e,
  uniform n act -> In e act -> exists r, In (e, r) (enumc n pos act).
Proof.
  induction n as [|n IH]; intros act pos e Hu Hin.
  - assert (He : e = []).
    { unfold uniform in Hu. rewrite Forall_forall in Hu.
      specialize (Hu e Hin). destruct e; [reflexivity|discriminate]. }
    subst. exists None. cbn [enumc].
    destruct act; [contradiction|]. left. reflexivity.
  - assert (Hne : nonempty act = true) by (destruct act; [contradiction|reflexivity]).
    rewrite enumc_S by exact Hne.
    assert (Hl : length e = S n).
    { unfold uniform in Hu. rewrite Forall_forall in Hu. apply Hu, Hin. }
    destruct e as [|b t]; [discriminate|].
    apply in_sel in Hin.
    destruct (IH (Sim.sel b act) (pos + 1) t (sel_uniform b Hu) Hin)
      as (r & Hr).
    destruct b.
    + exists r. apply in_or_app. right.
      apply (in_map branch1) in Hr. exact Hr.
    + eexists. apply in_or_app. left.
      apply (in_map (branch0 pos (nonempty (Sim.sel true act)))) in Hr.
      exact Hr.
Qed.

Lemma search_order_complete ds d :
  Forall rom_wf ds -> In d ds -> exists q, In (d, q) (search_order ds).
Proof.
  intros Hwf Hin.
  destruct (@enumc_complete 64 (map rom_bits ds) 0 (rom_bits d)
              (rom_bits_uniform (rom_wf_length Hwf)) (in_map rom_bits _ _ Hin))
    as (r & Hr).
  exists (cursor r). rewrite search_order_eq.
  assert (Hd : bytes_of_bits 8 (rom_bits d) = d).
  { apply bytes_rom_bits. rewrite Forall_forall in Hwf. apply Hwf, Hin. }
  rewrite <- Hd at 1.
  apply (in_map (fun x => (bytes_of_bits 8 (fst x), cursor (snd x)))
                _ _ Hr).
Qed.

Lemma visit_order_eq family ds :
  visit_order family ds = map fst (filter (stops family) (search_order ds)).
Proof. unfold visit_order. reflexivity. Qed.

Lemma visit_order_in family ds d :
  In d (visit_order family ds) <->
  exists z, In z (search_order ds) /\ stops family z = true /\ fst z = d.
Proof.
  rewrite visit_order_eq, in_map_iff. split.
  - intros (z & Hz & Hin). apply filter_In in Hin. exists z. tauto.
  - intros (z & Hin & Hst & Hz). exists z. split; [exact Hz|].
    apply filter_In. tauto.
Qed.

Lemma visit_order_shape family ds :
  Forall (fun d => length d = OWI.ROM_MAX) ds -> nonempty ds = true ->
  exists front z,
    visit_order family ds = front ++ [fst z] /\
    In z (search_order ds) /\
    Forall (fun d => family = 0 \/ get d 0 = family) front.
Proof.
  intros Hlen Hne.
  pose proof (search_order_linked [] Hlen Hne) as HL.
  assert (Hso : search_order ds <> []).
  { assert (Hne' : nonempty (map rom_bits ds) = true)
      by (destruct ds; [discriminate|reflexivity]).
    destruct (@enumc_last 64 (map rom_bits ds) 0 (rom_bits_uniform Hlen) Hne')
      as (l & e & HE).
    rewrite search_order_eq, HE, map_app. intros Habs.
    apply app_eq_nil in Habs. destruct Habs as [_ Habs]. discriminate. }
  destruct (exists_last Hso) as (l' & zl & HE).
  assert (Hzl : snd zl = OWI.LAST).
  { rewrite HE in HL. apply linked_suffix in HL. apply HL. reflexivity. }
  exists (map fst (filter (stops family) l')), zl.
  rewrite visit_order_eq, HE, filter_app, map_app. cbn [filter].
  assert (Hstop : stops family zl = true).
  { unfold stops. rewrite Hzl, Z.eqb_refl. reflexivity. }
  rewrite Hstop. split; [reflexivity|].
  split; [apply in_or_app; right; left; reflexivity|].
  apply Forall_forall. intros d Hd. apply in_map_iff in Hd.
  destruct Hd as (z & <- & Hz). apply filter_In in Hz.
  destruct Hz as [Hz Hsz]. apply in_split in Hz.
  destruct Hz as (A & B & ->).
  rewrite <- app_assoc in HE. cbn [app] in HE. rewrite HE in HL.
  apply linked_suffix in HL. destruct HL as (_ & Hiff & _).
  assert (Hnl : (snd z =? OWI.LAST) = false).
  { apply Z.eqb_neq. intros He. apply Hiff in He.
    apply app_eq_nil in He. destruct He as [_ He]. discriminate. }
  unfold stops in Hsz. rewrite Hnl in Hsz. cbn [orb] in Hsz.
  apply orb_true_iff in Hsz. destruct Hsz as [Hf|Hf]; apply Z.eqb_eq in Hf;
    [left; exact Hf|right; exact Hf].
Qed.

(** ** The bit at the returned position *)

Lemma zero_branches_nth rds : forall q p,
  In p (zero_branches q rds) ->
  q <= p /\ nth_error rds (Z.to_nat (p - q)) = Some (0, Some 0).
Proof.
  induction rds as [|[v o] rds IH]; intros q p Hin; [contradiction|].
  assert (Hrec : In p (zero_branches (q + 1) rds) ->
                 q <= p /\
                 nth_error ((v, o) :: rds) (Z.to_nat (p - q))
                 = Some (0, Some 0)).
  { intros H. destruct (IH (q + 1) p H) as [Hle Hn]. split; [lia|].
    replace (Z.to_nat (p - q)) with (S (Z.to_nat (p - (q + 1)))) by lia.
    exact Hn. }
  destruct v as [|v|v]; [destruct o as [[|b|b]|] | |]; simpl in Hin; auto.
  destruct Hin as [<-|Hin]; [|auto].
  split; [lia|]. rewrite Z.sub_diag. reflexivity.
Qed.

Lemma last_in {A} (l : list A) d : l <> [] -> In (List.last l d) l.
Proof.
  induction l as [|a l IH]; intros Hne; [contradiction|].
  destruct l as [|b l]; [left; reflexivity|].
  right. apply IH. discriminate.
Qed.

(** * Main results *)

(** ** Failure of the presence check *)

(** C5.  When [reset()] returns false, every transaction of the engine ends
    at once: [search_rom] and [alarm_search] return ERROR, [read_rom],
    [match_rom] and [skip_rom] return false, the caller's buffer is as it
    was, the bus state is the one [reset] left, and the reset is the only
    bus operation performed (no command byte, no read, no write).  For
    [search_rom] this holds in whichever iteration of its loop the reset
    fails: a failed reset is always the last operation of the call, and the
    call returns ERROR. *)
Theorem reset_failure_aborts {D} (h : phy D) (s s1 : owi D) :
  phy_reset h s = (false, s1) ->
  forall (family : Z) (code : list Z) (last : Z) (fuel : nat),
    exec h (OWI.search_rom (S fuel) family code last) s
      = ((Some OWI.ERROR, code), s1, [EvReset false]) /\
    exec h (OWI.alarm_search code last) s
      = ((OWI.ERROR, code), s1, [EvReset false]) /\
    exec h (OWI.read_rom code) s = ((false, code), s1, [EvReset false]) /\
    exec h (OWI.match_rom code) s = (false, s1, [EvReset false]) /\
    exec h OWI.skip_rom s = (false, s1, [EvReset false]) /\
    (forall s0,
       let x := exec h (OWI.search_rom fuel family code last) s0 in
       In (EvReset false) (trace x) ->
       fst (result x) = Some OWI.ERROR /\
       exists pre, trace x = pre ++ [EvReset false] /\
                   ~ In (EvReset false) pre).
Proof.
  intros Hreset family code last fuel.
  repeat split.
  - rewrite exec_search_rom_S, Hreset. reflexivity.
  - rewrite exec_alarm_search, Hreset. reflexivity.
  - unfold OWI.read_rom. rewrite exec_bind, exec_reset, Hreset. reflexivity.
  - unfold OWI.match_rom. rewrite exec_bind, exec_reset, Hreset. reflexivity.
  - unfold OWI.skip_rom. rewrite exec_bind, exec_reset, Hreset. reflexivity.
  - apply search_rom_failed_reset; assumption.
  - apply search_rom_failed_reset; assumption.
Qed.

Lemma reset_failure_aborts_witness :
  let h := Sim.handler Sim.crc8_bit in
  let s1 := mkOwi 0 (Sim.mkBus [] [] Sim.RomCommand) in
  phy_reset h (Sim.init []) = (false, s1) /\
  exec h (OWI.read_rom [1; 2; 3; 4; 5; 6; 7; 8]) (Sim.init [])
    = ((false, [1; 2; 3; 4; 5; 6; 7; 8]), s1, [EvReset false]).
Proof.
  split; [reflexivity|].
  apply (@reset_failure_aborts _ (Sim.handler Sim.crc8_bit) (Sim.init [])
           (mkOwi 0 (Sim.mkBus [] [] Sim.RomCommand)) eq_refl
           0 [1; 2; 3; 4; 5; 6; 7; 8] OWI.FIRST 0%nat).
Defined.

(** ** Block reads *)

(** C6.  [read(buf, count)] first sets [m_crc] to 0, then performs exactly
    [count] byte reads, one after the other, and stores them at ascending
    positions from the start of the buffer; it returns true exactly when
    [m_crc] is 0 after the last read.  The reads are all it does on the bus:
    a non-zero accumulator only shows as the result false. *)
Theorem read_buf_spec {D} (h : phy D) (s : owi D) (buf : list Z)
    (count : nat) :
  (count <= length buf)%nat ->
  let '(vs, s') := read_bytes h count (with_crc 0 s) in
  exec h (OWI.read_buf buf count) s
    = ((m_crc s' =? 0, vs ++ skipn count buf), s',
       map (EvRead OWI.CHARBITS) vs)
  /\ length vs = count.
Proof.
  intros Hlen.
  pose proof (read_bytes_length h count (with_crc 0 s)) as Hl.
  pose proof (@read_loop_spec D h count 0%nat buf (with_crc 0 s) Hlen) as Hloop.
  destruct (read_bytes h count (with_crc 0 s)) as [vs s'] eqn:Hrb.
  split; [|exact Hl].
  unfold OWI.read_buf. rewrite exec_bind. cbn [set_crc exec].
  rewrite exec_bind, Hloop. cbn [firstn app Nat.add].
  cbn [bind get_crc exec]. rewrite app_nil_r. reflexivity.
Qed.

Lemma read_buf_spec_witness :
  exec glitch (OWI.read_buf [1; 2; 3] 2) (mkOwi 7 0%nat)
    = ((true, [255; 255; 3]), mkOwi 0 0%nat, [EvRead 8 255; EvRead 8 255])
  /\ length [255; 255] = 2%nat.
Proof.
  apply (@read_buf_spec _ glitch (mkOwi 7 0%nat) [1; 2; 3] 2%nat).
  simpl. lia.
Defined.

(** ** Search positions *)

(** C8.  FIRST = -1, ERROR = -1 and LAST = 64, the number of bits of a ROM
    code; whatever the bus does and whatever the arguments are, a value
    returned by [search], [alarm_search] or [search_rom] lies in [-1, 64].
    ([search] and [alarm_search] always return; [search_rom] returns after
    one iteration when the family is the wildcard 0.) *)
Theorem search_position_range :
  OWI.FIRST = -1 /\ OWI.ERROR = -1 /\ OWI.LAST = 64 /\
  OWI.LAST = Z.of_nat OWI.ROM_MAX * 8 /\
  forall D (h : phy D) (s : owi D) (code : list Z) (last : Z),
    -1 <= fst (result (exec h (OWI.search code last) s)) <= 64 /\
    -1 <= fst (result (exec h (OWI.alarm_search code last) s)) <= 64 /\
    (forall fuel family,
       match fst (result (exec h (OWI.search_rom fuel family code last) s))
       with
       | Some r => -1 <= r <= 64
       | None => True
       end) /\
    (forall fuel,
       fst (result (exec h (OWI.search_rom (S fuel) 0 code last) s))
       <> None).
Proof.
  repeat split; try reflexivity; try discriminate.
  - apply (proj1 (search_range h code last s)).
  - apply (proj2 (search_range h code last s)).
  - apply (proj1 (alarm_search_range h code last s)).
  - apply (proj2 (alarm_search_range h code last s)).
  - intros fuel family. apply search_rom_range.
  - intros fuel. apply search_rom_wildcard.
Qed.

(** ** Device objects *)

(** C10.  After [rom(code)] with an 8-byte code, and after construction
    with a non-NULL [rom] argument, the getter [rom()] returns the 8 bytes
    of the given code; neither accessor nor the constructor performs a bus
    operation or changes the bus state.  Constructed with the default NULL
    argument, the object's ROM array is not written: it holds whatever the
    storage held. *)
Theorem device_rom_accessors {O D} (h : phy D) (s : owi D)
    (d : OWI.Device O) (owi : O) (raw code : list Z) :
  length code = OWI.ROM_MAX ->
  length (OWI.m_rom d) = OWI.ROM_MAX ->
  length raw = OWI.ROM_MAX ->
  exec h (d' <- OWI.Device_set_rom d code ;; OWI.Device_rom d') s
    = (code, s, []) /\
  exec h (d' <- OWI.Device_new raw owi (Some code) ;; OWI.Device_rom d') s
    = (code, s, []) /\
  exec h (d' <- OWI.Device_new raw owi None ;; OWI.Device_rom d') s
    = (raw, s, []) /\
  OWI.m_owi (result (exec h (OWI.Device_set_rom d code) s)) = OWI.m_owi d.
Proof.
  intros Hc Hd Hr.
  unfold OWI.Device_set_rom, OWI.Device_new, OWI.Device_rom, result.
  cbn [bind exec fst OWI.m_owi OWI.m_rom].
  rewrite !memcpy_exact by assumption. repeat split.
Qed.

Lemma device_rom_accessors_witness :
  let d := OWI.mkDevice tt [0; 0; 0; 0; 0; 0; 0; 0] in
  let code := [0x28; 1; 2; 3; 4; 5; 6; 7] in
  exec glitch (d' <- OWI.Device_set_rom d code ;; OWI.Device_rom d')
       (mkOwi 0 0%nat) = (code, mkOwi 0 0%nat, []).
Proof.
  apply (@device_rom_accessors unit nat glitch (mkOwi 0 0%nat)
           (OWI.mkDevice tt [0; 0; 0; 0; 0; 0; 0; 0]) tt
           [9; 9; 9; 9; 9; 9; 9; 9] [0x28; 1; 2; 3; 4; 5; 6; 7]
           eq_refl eq_refl eq_refl).
Defined.

(** ** The position a pass returns *)

(** C2, as the code has it.  A pass that meets no bus fault consists of 64
    rounds and returns the deepest (numerically greatest) position at which
    it took the 0-branch of a discrepancy, or LAST (64) when it took none:
    every such position is at most the returned one.  At a discrepancy
    deeper than [last] the position is recorded as the candidate [next]
    unconditionally, whatever was recorded before. *)
Theorem search_returns_deepest {D} (h : phy D) :
  (forall (s : owi D) (code : list Z) (last : Z),
     let x := exec h (OWI.search code last) s in
     let zbs := zero_branches 0 (rounds_of (trace x)) in
     fst (result x) <> OWI.ERROR ->
     length (rounds_of (trace x)) = 64%nat /\
     fst (result x) = deepest zbs /\
     Forall (fun p => 0 <= p < 64 /\ p <= fst (result x)) zbs) /\
  (forall (s : owi D) (code : list Z) (i j : nat) (r : OWI.regs),
     u8 (fst (phy_read h 2 s)) = 0 -> OWI.last r < OWI.pos r ->
     exists r' s',
       exec h (OWI.search_bit code i j r) s
         = (inr r', s', [EvRead 2 0; EvWrite 0 1]) /\
       OWI.next r' = OWI.pos r).
Proof.
  split.
  - intros s code last. cbv zeta. intros Hok.
    pose proof (search_pass h code last s) as H.
    destruct (exec h (OWI.search code last) s) as [[[r c] s'] t].
    unfold result, trace in *; simpl in *.
    destruct H as [[He _]|(rds & -> & Hlen & Hnx & Hall)]; [contradiction|].
    rewrite rounds_of_blocks. repeat split.
    + lia.
    + exact Hnx.
    + exact Hall.
  - intros s code i j r Hv Hlt. rewrite exec_search_bit. cbv zeta.
    rewrite Hv. unfold bit_outcome. cbn [Z.eqb].
    destruct (Z.eqb_spec (OWI.pos r) (OWI.last r)) as [He|_]; [lia|].
    destruct (Z.gtb_spec (OWI.pos r) (OWI.last r)) as [_|Hle]; [|lia].
    eexists _, _. split; reflexivity.
Qed.

Lemma search_returns_deepest_witness :
  let h := Sim.handler Sim.crc8_bit in
  let x := exec h (OWI.search (rom 0) OWI.FIRST)
                (Sim.searching three_devices) in
  fst (result x) = deepest (zero_branches 0 (rounds_of (trace x))) /\
  exists r' s',
    exec h (OWI.search_bit (rom 0) 0 0 (OWI.mkRegs 0 OWI.LAST OWI.FIRST 0))
         (Sim.searching three_devices)
      = (inr r', s', [EvRead 2 0; EvWrite 0 1]) /\
    OWI.next r' = 0.
Proof.
  assert (Hok : fst (result (exec (Sim.handler Sim.crc8_bit)
                               (OWI.search (rom 0) OWI.FIRST)
                               (Sim.searching three_devices)))
                <> OWI.ERROR) by (vm_compute; discriminate).
  pose proof (@search_returns_deepest _ (Sim.handler Sim.crc8_bit))
    as [Hpass Hstep].
  split.
  - exact (proj1 (proj2 (Hpass (Sim.searching three_devices) (rom 0)
                           OWI.FIRST Hok))).
  - apply (Hstep (Sim.searching three_devices) (rom 0) 0%nat 0%nat
             (OWI.mkRegs 0 OWI.LAST OWI.FIRST 0)).
    + reflexivity.
    + unfold OWI.FIRST; simpl; lia.
Defined.

(** C2 as stated fails: with devices whose codes begin 00, 01 and 1, the
    first pass takes the 0-branch at the discrepancies 0 and 1 and returns
    1, the deepest, not 0, the shallowest. *)
Lemma search_not_shallowest :
  let x := exec (Sim.handler Sim.crc8_bit) (OWI.search (rom 0) OWI.FIRST)
                (Sim.searching three_devices) in
  zero_branches 0 (rounds_of (trace x)) = [0; 1] /\
  fst (result x) = 1 /\
  fst (result x) <> shallowest (zero_branches 0 (rounds_of (trace x))).
Proof.
  vm_compute. repeat split; discriminate.
Qed.

(** ** Discrepancies before the cursor *)

(** C3, as the code has it.  At a discrepancy (the pair read is 0) at a
    position shallower than [last], the direction written is the bit the
    buffer holds at this position, and that bit is shifted into [data] from
    the top; the candidate [next] is left alone when the bit is 1 and is set
    to this position when the bit is 0.  The local [last] is the caller's
    cursor at such a position: an iteration changes it only at the position
    equal to it, and then to FIRST, which no position is shallower than.
    Over a complete pass: at every discrepancy before the caller's cursor
    the bit written is the one the caller's buffer holds at that position,
    and when it is 0 the position returned is that position or a deeper
    one. *)
Theorem search_follows_buffer {D} (h : phy D) :
  (forall (code : list Z) (i j : nat) (s : owi D) (r : OWI.regs),
     u8 (fst (phy_read h 2 s)) = 0 ->
     OWI.pos r < OWI.last r ->
     0 <= OWI.data r < 256 ->
     let b := Z.testbit (get code i) (Z.of_nat j) in
     exists r',
       exec h (OWI.search_bit code i j r) s
         = (inr r', phy_write h (Z.b2z b) 1 (snd (phy_read h 2 s)),
            [EvRead 2 0; EvWrite (Z.b2z b) 1]) /\
       Z.testbit (OWI.data r') 7 = b /\
       OWI.next r' = (if b then OWI.next r else OWI.pos r) /\
       OWI.last r' = OWI.last r /\
       OWI.pos r' = u8 (OWI.pos r + 1)) /\
  (forall (code : list Z) (i j : nat) (s : owi D) (r : OWI.regs),
     match exec h (OWI.search_bit code i j r) s with
     | (inr r', _, _) =>
         OWI.last r' = OWI.last r \/
         (OWI.pos r = OWI.last r /\ OWI.last r' = OWI.FIRST)
     | (inl _, _, _) => True
     end) /\
  (forall (code : list Z) (last : Z) (s : owi D),
     let x := exec h (OWI.search code last) s in
     fst (result x) <> OWI.ERROR ->
     forall (p : nat) (b : Z),
       nth_error (rounds_of (trace x)) p = Some (0, Some b) ->
       Z.of_nat p < last ->
       b = Z.b2z (codebit code p) /\
       (b = 0 -> Z.of_nat p <= fst (result x))).
Proof.
  split; [|split].
  - intros code i j s r Hv Hlt Hd. cbv zeta. rewrite exec_search_bit. cbv zeta.
    rewrite Hv. unfold bit_outcome. cbn [Z.eqb].
    destruct (Z.eqb_spec (OWI.pos r) (OWI.last r)) as [He|_]; [lia|].
    destruct (Z.gtb_spec (OWI.pos r) (OWI.last r)) as [Hgt|_]; [lia|].
    destruct (Z.testbit (get code i) (Z.of_nat j)).
    + eexists. split; [reflexivity|].
      cbn [OWI.data OWI.next OWI.last OWI.pos].
      repeat split. apply u8_top_bit_set.
    + eexists. split; [reflexivity|].
      cbn [OWI.data OWI.next OWI.last OWI.pos].
      repeat split. apply shiftr_top_bit_clear. exact Hd.
  - intros code i j s r. rewrite exec_search_bit. cbv zeta. unfold bit_outcome.
    destruct (Z.eqb_spec (OWI.pos r) (OWI.last r)) as [He|Hne];
      repeat match goal with
             | |- context [if ?c then _ else _] => destruct c
             end; cbn [OWI.last]; auto.
  - intros code last s. cbv zeta. intros Hok p b Hp Hlt.
    pose proof (search_pass_follow h code last s) as Hf.
    pose proof (search_pass h code last s) as Hi.
    destruct (exec h (OWI.search code last) s) as [[[r c] s'] t].
    unfold result, trace in *. cbn [fst snd] in *.
    destruct Hf as [He|(l & _ & rds & Ht & _ & Hfol)]; [contradiction|].
    destruct Hi as [[He _]|(rds' & Ht' & _ & _ & Hall)]; [contradiction|].
    rewrite Ht, rounds_of_blocks in Hp.
    split; [exact (Hfol p b Hp Hlt)|].
    intros Hb. subst b.
    assert (Hrds : rds' = rds).
    { rewrite <- (rounds_of_blocks rds'), <- Ht', Ht.
      apply rounds_of_blocks. }
    subst rds'.
    pose proof (zero_branches_in rds 0 p Hp) as Hin.
    rewrite Forall_forall in Hall. apply Hall in Hin. lia.
Qed.

Lemma search_follows_buffer_witness :
  (exists r',
     exec (Sim.handler Sim.crc8_bit)
          (OWI.search_bit (rom 0) 0 0 (OWI.mkRegs 0 OWI.LAST 1 0))
          (Sim.searching three_devices)
       = (inr r',
          phy_write (Sim.handler Sim.crc8_bit) 0 1
            (snd (phy_read (Sim.handler Sim.crc8_bit) 2
                    (Sim.searching three_devices))),
          [EvRead 2 0; EvWrite 0 1]) /\
     Z.testbit (OWI.data r') 7 = false /\
     OWI.next r' = 0 /\ OWI.last r' = 1 /\ OWI.pos r' = 1) /\
  (0 = Z.b2z (codebit (rom 0) 0) /\
   (0 = 0 ->
    0 <= fst (result (exec (Sim.handler Sim.crc8_bit) (OWI.search (rom 0) 1)
                        (Sim.searching three_devices))))).
Proof.
  pose proof (@search_follows_buffer _ (Sim.handler Sim.crc8_bit))
    as (Hstep & _ & Hpass).
  split.
  - apply (Hstep (rom 0) 0%nat 0%nat
             (Sim.searching three_devices) (OWI.mkRegs 0 OWI.LAST 1 0)).
    + reflexivity.
    + simpl; lia.
    + simpl; lia.
  - apply (Hpass (rom 0) 1 (Sim.searching three_devices)
             ltac:(vm_compute; discriminate) 0%nat 0).
    + vm_compute. reflexivity.
    + simpl; lia.
Defined.

(** C3 as stated fails in its second half: in the second pass over the
    devices 00, 01 and 1 (buffer 00.., cursor 1), position 0 is a
    discrepancy shallower than the cursor; the buffer's bit there is 0, the
    0-branch is taken as the claim says, but the candidate changes from LAST
    to 0, and 0 is what the pass returns. *)
Lemma search_candidate_changes :
  let h := Sim.handler Sim.crc8_bit in
  let s := Sim.searching three_devices in
  let r := OWI.mkRegs 0 OWI.LAST 1 0 in
  fst (phy_read h 2 s) = 0 /\ OWI.pos r < OWI.last r /\
  (exists r' s',
     exec h (OWI.search_bit (rom 0) 0 0 r) s
       = (inr r', s', [EvRead 2 0; EvWrite 0 1]) /\
     OWI.next r' = 0 /\ OWI.next r' <> OWI.next r) /\
  result (exec h (OWI.search (rom 0) 1) s) = (0, rom 2).
Proof.
  vm_compute. repeat split; try discriminate.
  eexists _, _. repeat split. discriminate.
Qed.

(** ** Bus faults inside [search_rom] *)

(** C4, the code at a failing input.  One device of code FF..FF, family
    argument 0xFF, buffer 00..00, and a bus that loses the first pair: the
    delegated pass reads (1,1) and returns ERROR, but [search_rom] does not
    return it.  The loop condition sees a position other than LAST, a family
    other than 0 and a first byte other than the family, runs again with
    ERROR as cursor, which is FIRST, and returns LAST.  As long as pairs
    keep being lost it does not return at all: on a bus that loses the first
    [n] pairs the loop is still running after [n] iterations. *)
Theorem search_rom_drops_fault :
  let code := rom 0 in
  let s := mkOwi 0 1%nat in
  result (exec glitch (OWI.search code OWI.FIRST) s) = (OWI.ERROR, code) /\
  trace (exec glitch (OWI.search code OWI.FIRST) s) = [EvRead 2 3] /\
  (let x := exec glitch (OWI.search_rom 2 0xFF code OWI.FIRST) s in
   result x = (Some OWI.LAST, [255; 255; 255; 255; 255; 255; 255; 255]) /\
   firstn 5 (trace x)
     = [EvReset true; EvWrite OWI.SEARCH_ROM 8; EvRead 2 3;
        EvReset true; EvWrite OWI.SEARCH_ROM 8]) /\
  forall n : nat,
    fst (result (exec glitch (OWI.search_rom n 0xFF code OWI.FIRST)
                   (mkOwi 0 n))) = None.
Proof.
  cbv zeta. split; [reflexivity|]. split; [reflexivity|].
  split; [vm_compute; split; reflexivity|].
  intros n. rewrite glitch_loops; [reflexivity|]. discriminate.
Qed.

(** ** Enumeration on the simulated bus *)

(** C1.  On a simulated bus with N >= 1 devices of distinct ROM codes, the
    caller's chain of [search_rom] calls from FIRST, with the wildcard
    family 0 or a family all devices carry, whatever the buffer and the bus
    state at the start, ends with a call that returns LAST and visits
    exactly the N codes, each exactly once. *)
Theorem enumeration_complete (crc_bit : Z -> bool -> Z)
    (ds : list (list Z)) (s : owi Sim.bus) (code : list Z) (family : Z)
    (calls fuel : nat) :
  Sim.devices (dev s) = ds -> ds <> [] ->
  Forall rom_wf ds -> NoDup ds -> length code = OWI.ROM_MAX ->
  family = 0 \/ Forall (fun d => get d 0 = family) ds ->
  (length ds <= calls)%nat -> (length ds <= fuel)%nat ->
  let x := exec (Sim.handler crc_bit)
                (enumerate calls fuel family code OWI.FIRST) s in
  let visited := snd (fst (result x)) in
  fst (fst (result x)) = Some OWI.LAST /\
  Permutation visited ds /\ NoDup visited /\ length visited = length ds.
Proof.
  intros Hs Hne Hwf Hnd Hlen Hfam Hcalls Hfuel. cbv zeta.
  assert (Hne' : nonempty ds = true) by (destruct ds; [contradiction|reflexivity]).
  destruct (@sim_enumerate crc_bit ds Hne' (rom_wf_length Hwf) family
              calls fuel code s Hs Hlen Hcalls Hfuel) as (Hres & _ & _).
  rewrite Hres. cbn [fst snd].
  rewrite (visit_order_all Hwf Hnd Hfam).
  pose proof (search_order_perm Hwf Hnd) as Hperm.
  repeat split.
  - exact Hperm.
  - eapply Permutation_NoDup; [apply Permutation_sym, Hperm | exact Hnd].
  - apply Permutation_length, Hperm.
Qed.

Lemma enumeration_complete_witness :
  let x := exec (Sim.handler Sim.crc8_bit)
                (enumerate 3 3 0 (rom 0xFF) OWI.FIRST)
                (Sim.init three_devices) in
  fst (fst (result x)) = Some OWI.LAST /\
  Permutation (snd (fst (result x))) three_devices /\
  NoDup (snd (fst (result x))) /\
  length (snd (fst (result x))) = length three_devices.
Proof.
  apply (@enumeration_complete Sim.crc8_bit three_devices
           (Sim.init three_devices) (rom 0xFF) 0 3%nat 3%nat).
  - reflexivity.
  - discriminate.
  - repeat constructor; simpl; lia.
  - repeat constructor; simpl; intuition discriminate.
  - reflexivity.
  - left; reflexivity.
  - simpl; lia.
  - simpl; lia.
Defined.

(** C9.  For a fixed set of devices, the codes a complete enumeration
    visits, and how it ends, are a function of the devices and the family
    alone: they do not depend on what the buffer holds or on the state the
    bus is in at the start.  So a second enumeration, run on the buffer and
    the bus as the first one left them, yields the same codes in the same
    order, and so does any other. *)
Theorem enumeration_deterministic (crc_bit : Z -> bool -> Z)
    (ds : list (list Z)) (s : owi Sim.bus) (code : list Z) (family : Z)
    (calls fuel : nat) :
  Sim.devices (dev s) = ds ->
  Forall (fun d => length d = OWI.ROM_MAX) ds ->
  length code = OWI.ROM_MAX ->
  (length ds <= calls)%nat -> (length ds <= fuel)%nat ->
  (1 <= calls)%nat -> (1 <= fuel)%nat ->
  let sim := Sim.handler crc_bit in
  let x1 := exec sim (enumerate calls fuel family code OWI.FIRST) s in
  let x2 := exec sim (enumerate calls fuel family (snd (result x1)) OWI.FIRST)
                 (final x1) in
  fst (result x2) = fst (result x1) /\
  fst (result x1)
  = (Some (if nonempty ds then OWI.LAST else OWI.ERROR),
     visit_order family ds) /\
  forall s' code',
    Sim.devices (dev s') = ds -> length code' = OWI.ROM_MAX ->
    fst (result (exec sim (enumerate calls fuel family code' OWI.FIRST) s'))
    = fst (result x1).
Proof.
  intros Hs Hall Hlen Hcalls Hfuel Hc1 Hf1. cbv zeta.
  destruct (nonempty ds) eqn:Hne.
  - destruct (@sim_enumerate crc_bit ds Hne Hall family calls fuel code s
                Hs Hlen Hcalls Hfuel) as (Hres & Hfin & Hbuf).
    destruct (@sim_enumerate crc_bit ds Hne Hall family calls fuel
                _ _ Hfin Hbuf Hcalls Hfuel) as (Hres2 & _ & _).
    rewrite Hres2, Hres. repeat split.
    intros s' code' Hs' Hlen'.
    destruct (@sim_enumerate crc_bit ds Hne Hall family calls fuel code' s'
                Hs' Hlen' Hcalls Hfuel) as (Hres' & _ & _).
    exact Hres'.
  - apply nonempty_false in Hne. subst ds.
    destruct calls as [|calls]; [lia|]. destruct fuel as [|fuel]; [lia|].
    rewrite Hne in *.
    destruct (@sim_enumerate_empty crc_bit calls fuel family code OWI.FIRST s
                Hne) as [Hres Hfin].
    set (x1 := exec (Sim.handler crc_bit)
                 (enumerate (S calls) (S fuel) family code OWI.FIRST) s) in *.
    destruct (@sim_enumerate_empty crc_bit calls fuel family
                (snd (result x1)) OWI.FIRST (final x1) Hfin) as [Hres2 _].
    rewrite Hres2, Hres. cbn [fst snd]. repeat split.
    intros s' code' Hs' Hlen'.
    destruct (@sim_enumerate_empty crc_bit calls fuel family code' OWI.FIRST
                s' Hs') as [Hres' _].
    rewrite Hres'. reflexivity.
Qed.

Lemma enumeration_deterministic_witness :
  let sim := Sim.handler Sim.crc8_bit in
  let x1 := exec sim (enumerate 4 4 0x28 (rom 0) OWI.FIRST)
                 (Sim.init four_devices) in
  let x2 := exec sim (enumerate 4 4 0x28 (snd (result x1)) OWI.FIRST)
                 (final x1) in
  fst (result x2) = fst (result x1).
Proof.
  assert (Hall : Forall (fun d => length d = OWI.ROM_MAX) four_devices)
    by (repeat constructor).
  assert (H4 : (length four_devices <= 4)%nat) by (simpl; lia).
  assert (H1 : (1 <= 4)%nat) by lia.
  exact (proj1 (@enumeration_deterministic Sim.crc8_bit four_devices
                  (Sim.init four_devices) (rom 0) 0x28 4%nat 4%nat
                  eq_refl Hall eq_refl H4 H4 H1 H1)).
Defined.

(** ** Reading the code of a single device *)

(** C7.  With exactly one device on the simulated bus, [read_rom] (a reset,
    the command READ_ROM = 0x33, eight byte reads) and a [search_rom] pass
    from FIRST leave the same eight bytes in the caller's buffer, the
    device's code, whatever either buffer held before; the search returns
    LAST, and [read_rom] returns true exactly when the check over the 64
    bits read comes out 0. *)
Theorem read_rom_agrees_with_search (crc_bit : Z -> bool -> Z)
    (d : list Z) (s1 s2 : owi Sim.bus) (buf1 buf2 : list Z) (family : Z)
    (fuel : nat) :
  rom_wf d ->
  Sim.devices (dev s1) = [d] -> Sim.devices (dev s2) = [d] ->
  length buf1 = OWI.ROM_MAX -> length buf2 = OWI.ROM_MAX ->
  let sim := Sim.handler crc_bit in
  let x := exec sim (OWI.read_rom buf1) s1 in
  let y := exec sim (OWI.search_rom (S fuel) family buf2 OWI.FIRST) s2 in
  snd (result x) = snd (result y) /\
  snd (result x) = d /\
  fst (result y) = Some OWI.LAST /\
  fst (result x) = (fold_left crc_bit (rom_bits d) 0 =? 0) /\
  trace x = EvReset true :: EvWrite OWI.READ_ROM 8 :: map (EvRead 8) d.
Proof.
  intros Hwf Hs1 Hs2 Hl1 Hl2. cbv zeta.
  destruct (@sim_read_rom crc_bit d s1 buf1 Hs1 Hwf Hl1) as [Hrd Htr].
  rewrite Hrd, Htr. cbn [fst snd].
  assert (Hall : Forall rom_wf [d]) by (constructor; [exact Hwf|constructor]).
  assert (Hnd : NoDup [d]) by (constructor; [intros []|constructor]).
  pose proof (search_order_linked buf2 (rom_wf_length Hall) eq_refl) as HL.
  pose proof (search_order_perm Hall Hnd) as Hperm.
  apply Permutation_sym, Permutation_length_1_inv in Hperm.
  destruct (search_order [d]) as [|z [|z' L]] eqn:HSO; try discriminate.
  injection Hperm as Hz.
  destruct (@sim_search_rom_linked crc_bit [d] eq_refl (rom_wf_length Hall)
              family [z] (S fuel) buf2 OWI.FIRST s2 Hs2 Hl2 HL
              ltac:(discriminate) ltac:(simpl; lia))
    as (L1 & z0 & L2 & s' & t & HE & _ & _ & Hex & _ & _ & _ & _ & Hiff).
  destruct L1 as [|? [|? ?]]; try discriminate.
  injection HE as <- <-.
  rewrite Hex. unfold result. cbn [fst snd].
  rewrite Hz. repeat split.
  f_equal. apply Hiff. reflexivity.
Qed.

Lemma read_rom_agrees_with_search_witness :
  let sim := Sim.handler Sim.crc8_bit in
  let x := exec sim (OWI.read_rom (rom 0)) (Sim.init [checked_rom]) in
  let y := exec sim (OWI.search_rom 1 0 (rom 0xFF) OWI.FIRST)
                (Sim.init [checked_rom]) in
  snd (result x) = snd (result y) /\
  snd (result x) = checked_rom /\
  fst (result y) = Some OWI.LAST /\
  fst (result x) = (fold_left Sim.crc8_bit (rom_bits checked_rom) 0 =? 0) /\
  trace x
  = EvReset true :: EvWrite OWI.READ_ROM 8 :: map (EvRead 8) checked_rom.
Proof.
  apply (@read_rom_agrees_with_search Sim.crc8_bit checked_rom
           (Sim.init [checked_rom]) (Sim.init [checked_rom])
           (rom 0) (rom 0xFF) 0 0%nat).
  - split; [reflexivity | repeat constructor; simpl; lia].
  - reflexivity.
  - reflexivity.
  - reflexivity.
  - reflexivity.
Defined.

(** * Further results *)

(** ** Block writes and addressing *)

(** X1.  [write(value, buf, count)] performs exactly [1 + count] writes of
    eight bits: the command byte, then the first [count] bytes of the buffer
    in ascending order; it reads nothing and does not reset the bus. *)
Theorem write_buf_spec {D} (h : phy D) (s : owi D) (value : Z)
    (buf : list Z) (count : nat) :
  (count <= length buf)%nat ->
  let x := exec h (OWI.write_buf value buf count) s in
  x = (tt, write_bytes h (value :: firstn count buf) s,
       map (fun b => EvWrite b OWI.CHARBITS) (value :: firstn count buf)) /\
  length (trace x) = S count /\
  Forall (fun e => exists b, e = EvWrite b OWI.CHARBITS) (trace x).
Proof.
  intros Hc. cbv zeta. rewrite exec_write_buf by exact Hc.
  split; [reflexivity|]. unfold trace. cbn [snd]. split.
  - rewrite length_map. cbn [length]. rewrite length_firstn. lia.
  - apply Forall_map, Forall_forall. intros b _. exists b. reflexivity.
Qed.

Lemma write_buf_spec_witness :
  let x := exec glitch (OWI.write_buf 0x4E [75; 70; 0x3F] 2)
                (mkOwi 0 0%nat) in
  x = (tt, mkOwi 0 0%nat, [EvWrite 0x4E 8; EvWrite 75 8; EvWrite 70 8]) /\
  length (trace x) = 3%nat /\
  Forall (fun e => exists b, e = EvWrite b OWI.CHARBITS) (trace x).
Proof.
  apply (@write_buf_spec _ glitch (mkOwi 0 0%nat) 0x4E [75; 70; 0x3F] 2%nat).
  simpl; lia.
Defined.

(** X2.  When [reset()] reports presence, [match_rom] sends MATCH_ROM (0x55)
    and the eight bytes of the code in order and returns true, and
    [skip_rom] sends SKIP_ROM (0xCC) and returns true: neither reads from the
    bus, so true only means that some device answered the reset, not that a
    device with this code is there. *)
Theorem match_skip_rom_present {D} (h : phy D) (s s1 : owi D)
    (code : list Z) :
  phy_reset h s = (true, s1) ->
  (OWI.ROM_MAX <= length code)%nat ->
  exec h (OWI.match_rom code) s =
    (true, write_bytes h (OWI.MATCH_ROM :: firstn OWI.ROM_MAX code) s1,
     EvReset true
     :: map (fun b => EvWrite b 8) (OWI.MATCH_ROM :: firstn OWI.ROM_MAX code))
  /\
  exec h OWI.skip_rom s =
    (true, phy_write h OWI.SKIP_ROM 8 s1,
     [EvReset true; EvWrite OWI.SKIP_ROM 8]).
Proof.
  intros Hr Hlen. split.
  - unfold OWI.match_rom. rewrite exec_bind, exec_reset, Hr. cbn [fst snd negb].
    rewrite exec_bind, exec_write_buf by exact Hlen.
    cbn [exec]. rewrite app_nil_r. reflexivity.
  - unfold OWI.skip_rom. rewrite exec_bind, exec_reset, Hr. reflexivity.
Qed.

Lemma match_skip_rom_present_witness :
  exec (Sim.handler Sim.crc8_bit) (OWI.match_rom (rom 0x28))
       (Sim.init [checked_rom]) =
    (true,
     write_bytes (Sim.handler Sim.crc8_bit)
       (OWI.MATCH_ROM :: firstn OWI.ROM_MAX (rom 0x28))
       (mkOwi 0 (Sim.mkBus [checked_rom] [rom_bits checked_rom]
                   Sim.RomCommand)),
     EvReset true
     :: map (fun b => EvWrite b 8)
          (OWI.MATCH_ROM :: firstn OWI.ROM_MAX (rom 0x28))).
Proof.
  apply (@match_skip_rom_present _ (Sim.handler Sim.crc8_bit)
           (Sim.init [checked_rom])
           (mkOwi 0 (Sim.mkBus [checked_rom] [rom_bits checked_rom]
                       Sim.RomCommand))
           (rom 0x28) eq_refl).
  unfold OWI.ROM_MAX, rom; simpl; lia.
Defined.

(** X3.  When [reset()] reports presence, [read_rom] sends READ_ROM (0x33),
    reads eight bytes and writes them over the first eight bytes of the
    buffer whether or not the check succeeds; the result is whether [m_crc],
    set to 0 before the first read, is 0 after the last. *)
Theorem read_rom_present {D} (h : phy D) (s s1 : owi D) (code : list Z) :
  phy_reset h s = (true, s1) ->
  (OWI.ROM_MAX <= length code)%nat ->
  let '(vs, s') :=
    read_bytes h OWI.ROM_MAX (with_crc 0 (phy_write h OWI.READ_ROM 8 s1)) in
  exec h (OWI.read_rom code) s =
    ((m_crc s' =? 0, vs ++ skipn OWI.ROM_MAX code), s',
     EvReset true :: EvWrite OWI.READ_ROM 8 :: map (EvRead 8) vs)
  /\ length vs = OWI.ROM_MAX.
Proof.
  intros Hr Hlen.
  pose proof (read_bytes_length h OWI.ROM_MAX
                (with_crc 0 (phy_write h OWI.READ_ROM 8 s1))) as Hl.
  pose proof (@exec_read_buf D h (phy_write h OWI.READ_ROM 8 s1) code
                OWI.ROM_MAX Hlen) as Hrb.
  destruct (read_bytes h OWI.ROM_MAX
              (with_crc 0 (phy_write h OWI.READ_ROM 8 s1))) as [vs s'].
  split; [|exact Hl].
  unfold OWI.read_rom. rewrite exec_bind, exec_reset, Hr. cbn [fst snd negb].
  rewrite exec_bind, exec_write.
  change (phy_write h OWI.READ_ROM OWI.CHARBITS s1)
    with (phy_write h OWI.READ_ROM 8 s1).
  rewrite Hrb. reflexivity.
Qed.

Lemma read_rom_present_witness :
  exec glitch (OWI.read_rom (rom 0)) (mkOwi 5 0%nat) =
    ((true, [255; 255; 255; 255; 255; 255; 255; 255]), mkOwi 0 0%nat,
     EvReset true :: EvWrite OWI.READ_ROM 8
     :: map (EvRead 8) [255; 255; 255; 255; 255; 255; 255; 255])
  /\ length [255; 255; 255; 255; 255; 255; 255; 255] = OWI.ROM_MAX.
Proof.
  apply (@read_rom_present _ glitch (mkOwi 5 0%nat) (mkOwi 5 0%nat) (rom 0)
           eq_refl).
  unfold OWI.ROM_MAX, rom; simpl; lia.
Defined.

(** ** When [search_rom] returns *)

(** X4.  On any bus, when [search_rom] returns a position then one of these
    holds: it is ERROR after a failed reset; it is LAST; the family asked
    for is 0; or the first byte of the buffer is the family asked for.  It
    never returns an intermediate position with a code of another family,
    but it does return LAST whatever family the last code has. *)
Theorem search_rom_return_condition {D} (h : phy D) (s : owi D)
    (fuel : nat) (family : Z) (code : list Z) (last : Z) :
  let x := exec h (OWI.search_rom fuel family code last) s in
  match fst (result x) with
  | Some r =>
      (r = OWI.ERROR /\ In (EvReset false) (trace x)) \/
      r = OWI.LAST \/ family = 0 \/ get (snd (result x)) 0 = family
  | None => True
  end.
Proof.
  revert family code last s.
  induction fuel as [|fuel IH]; intros family code last s; cbv zeta.
  - exact I.
  - rewrite exec_search_rom_S.
    destruct (phy_reset h s) as [[|] s1]; cbn [negb].
    + cbv zeta.
      destruct (exec h (OWI.search code last) _) as [[[last' code'] s3] t].
      destruct (Z.eqb_spec last' OWI.LAST) as [Hl|Hl];
        [unfold result; cbn [negb andb fst snd]; auto|].
      destruct (Z.eqb_spec family 0) as [Hf|Hf];
        [unfold result; cbn [negb andb fst snd]; auto|].
      destruct (Z.eqb_spec (get code' 0) family) as [Hc|Hc];
        [unfold result; cbn [negb andb fst snd]; auto|].
      cbn [negb andb].
      specialize (IH family code' last' s3). cbv zeta in IH.
      destruct (exec h (OWI.search_rom fuel family code' last') s3)
        as [[[r c] s4] t'].
      unfold result, trace in *. cbn [fst snd] in *.
      destruct r as [r|]; [|exact I].
      destruct IH as [[He Hin]|IH]; [|right; exact IH].
      left. split; [exact He|]. right. right. apply in_or_app. right.
      exact Hin.
    + unfold result, trace. cbn [fst snd]. left.
      split; [reflexivity | left; reflexivity].
Qed.

(** ** The buffer after a pass, on any bus *)

(** X5.  A pass that meets no fault leaves in the buffer exactly the
    directions it wrote: bit [p] of the code (bit [p mod 8] of byte [p / 8])
    is the bit written at position [p], and 0 where the pair read matched no
    case and nothing was written.  At an agreement the pass writes what the
    devices agree on (pair 1: a 1, pair 2: a 0).  Bytes after the eighth are
    not touched. *)
Theorem search_stores_directions {D} (h : phy D) (s : owi D)
    (code : list Z) (last : Z) :
  (OWI.ROM_MAX <= length code)%nat ->
  let x := exec h (OWI.search code last) s in
  let rds := rounds_of (trace x) in
  fst (result x) <> OWI.ERROR ->
  Forall legal_round rds /\
  (forall p, (p < 64)%nat -> codebit (snd (result x)) p = stored_at rds p) /\
  length (snd (result x)) = length code /\
  (forall i, (OWI.ROM_MAX <= i)%nat ->
             get (snd (result x)) i = get code i).
Proof.
  intros Hlen. cbv zeta. intros Hok.
  pose proof (search_pass_store h code last s Hlen) as Hst.
  destruct (exec h (OWI.search code last) s) as [[[r c] s'] t].
  unfold result, trace in *. cbn [fst snd] in *.
  destruct Hst as [Hlc [(He & _)|(rds & Ht & Hl & Hleg & Hbuf & Hbits)]];
    [contradiction|].
  rewrite Ht, rounds_of_blocks. repeat split; assumption.
Qed.

Lemma search_stores_directions_witness :
  let x := exec (Sim.handler Sim.crc8_bit) (OWI.search (rom 0xFF) 1)
                (Sim.searching three_devices) in
  Forall legal_round (rounds_of (trace x)) /\
  (forall p, (p < 64)%nat ->
             codebit (snd (result x)) p = stored_at (rounds_of (trace x)) p) /\
  length (snd (result x)) = length (rom 0xFF) /\
  (forall i, (OWI.ROM_MAX <= i)%nat ->
             get (snd (result x)) i = get (rom 0xFF) i).
Proof.
  apply (@search_stores_directions _ (Sim.handler Sim.crc8_bit)
           (Sim.searching three_devices) (rom 0xFF) 1).
  - unfold OWI.ROM_MAX, rom; simpl; lia.
  - vm_compute; discriminate.
Defined.

(** X6.  A pass returns ERROR exactly when a pair it read was (1,1).  That
    read is then its last bus operation, it came after fewer than 64
    complete rounds, and the buffer is left half done: the bytes before the
    one the fault happened in hold the directions written so far, that byte
    and all later ones are as the caller passed them. *)
Theorem search_fault_leaves_rest {D} (h : phy D) (s : owi D)
    (code : list Z) (last : Z) :
  (OWI.ROM_MAX <= length code)%nat ->
  let x := exec h (OWI.search code last) s in
  (fst (result x) = OWI.ERROR <-> In (EvRead 2 3) (trace x)) /\
  (fst (result x) = OWI.ERROR ->
   exists rds,
     trace x = flat_map block rds ++ [EvRead 2 3] /\
     (length rds < 64)%nat /\ Forall legal_round rds /\
     length (snd (result x)) = length code /\
     (forall i, (length rds / 8 <= i)%nat ->
                get (snd (result x)) i = get code i) /\
     (forall p, (p < 8 * (length rds / 8))%nat ->
                codebit (snd (result x)) p = stored_at rds p)).
Proof.
  intros Hlen. cbv zeta. split; [apply search_error_iff, Hlen|].
  intros He.
  pose proof (search_pass_store h code last s Hlen) as Hst.
  pose proof (search_error_iff h code last s Hlen) as Hiff. cbv zeta in Hiff.
  destruct (exec h (OWI.search code last) s) as [[[r c] s'] t].
  unfold result, trace in *. cbn [fst snd] in *.
  destruct Hst as [Hlc [(_ & rds & Ht & Hl & Hleg & Hbuf & Hbits)
                       |(rds & Ht & _ & Hleg & _)]].
  - exists rds. repeat split; assumption.
  - exfalso. apply (legal_no_fault_read 2 Hleg). rewrite <- Ht.
    apply Hiff, He.
Qed.

Lemma search_fault_leaves_rest_witness :
  let x := exec glitch (OWI.search (rom 0x28) OWI.FIRST) (mkOwi 0 1%nat) in
  (fst (result x) = OWI.ERROR <-> In (EvRead 2 3) (trace x)) /\
  (fst (result x) = OWI.ERROR ->
   exists rds,
     trace x = flat_map block rds ++ [EvRead 2 3] /\
     (length rds < 64)%nat /\ Forall legal_round rds /\
     length (snd (result x)) = length (rom 0x28) /\
     (forall i, (length rds / 8 <= i)%nat ->
                get (snd (result x)) i = get (rom 0x28) i) /\
     (forall p, (p < 8 * (length rds / 8))%nat ->
                codebit (snd (result x)) p = stored_at rds p)).
Proof.
  apply (@search_fault_leaves_rest _ glitch (mkOwi 0 1%nat) (rom 0x28)
           OWI.FIRST).
  unfold OWI.ROM_MAX, rom; simpl; lia.
Defined.

(** X7.  A pass started with a negative cursor ([FIRST], or the [ERROR] a
    faulted pass returned) never consults the caller's buffer: for any two
    8-byte buffers it performs the same bus operations, leaves the bus in
    the same state and returns the same position, and unless it faults it
    returns the same code. *)
Theorem search_first_ignores_buffer {D} (h : phy D) (s : owi D)
    (code1 code2 : list Z) (last : Z) :
  last < 0 ->
  length code1 = OWI.ROM_MAX -> length code2 = OWI.ROM_MAX ->
  let x1 := exec h (OWI.search code1 last) s in
  let x2 := exec h (OWI.search code2 last) s in
  fst (result x1) = fst (result x2) /\
  final x1 = final x2 /\
  trace x1 = trace x2 /\
  (fst (result x1) <> OWI.ERROR -> snd (result x1) = snd (result x2)).
Proof.
  intros Hl H1 H2. cbv zeta.
  pose proof (search_fresh h code1 code2 s Hl H1 H2) as Hf.
  destruct (exec h (OWI.search code1 last) s) as [[[r1 c1] s1] t1].
  destruct (exec h (OWI.search code2 last) s) as [[[r2 c2] s2] t2].
  exact Hf.
Qed.

Lemma search_first_ignores_buffer_witness :
  let x1 := exec (Sim.handler Sim.crc8_bit) (OWI.search (rom 0x00) OWI.FIRST)
                 (Sim.searching three_devices) in
  let x2 := exec (Sim.handler Sim.crc8_bit) (OWI.search (rom 0xFF) OWI.FIRST)
                 (Sim.searching three_devices) in
  fst (result x1) = fst (result x2) /\
  final x1 = final x2 /\
  trace x1 = trace x2 /\
  (fst (result x1) <> OWI.ERROR -> snd (result x1) = snd (result x2)).
Proof.
  apply (@search_first_ignores_buffer _ (Sim.handler Sim.crc8_bit)
           (Sim.searching three_devices) (rom 0x00) (rom 0xFF) OWI.FIRST).
  - unfold OWI.FIRST; lia.
  - reflexivity.
  - reflexivity.
Defined.

(** ** Searching a sound bus from any starting point *)

(** X8.  On a simulated bus with at least one device, [search_rom] called
    with any 8-byte buffer, any cursor and any family returns after at most
    one pass per device plus one, never with ERROR, and leaves in the buffer
    the ROM code of a device that is on the bus; unless it returns LAST that
    device is of the requested family. *)
Theorem search_rom_finds_device (crc_bit : Z -> bool -> Z)
    (ds : list (list Z)) (s : owi Sim.bus) (code : list Z)
    (family last : Z) (fuel : nat) :
  Sim.devices (dev s) = ds ->
  ds <> [] ->
  Forall rom_wf ds ->
  length code = OWI.ROM_MAX ->
  (length ds < fuel)%nat ->
  let x := exec (Sim.handler crc_bit)
                (OWI.search_rom fuel family code last) s in
  exists r,
    fst (result x) = Some r /\ 0 <= r <= OWI.LAST /\
    In (snd (result x)) ds /\
    (r = OWI.LAST \/ family = 0 \/ get (snd (result x)) 0 = family) /\
    Sim.devices (dev (final x)) = ds.
Proof.
  intros Hs Hne Hwf Hlen Hfuel. cbv zeta.
  assert (Hne' : nonempty ds = true)
    by (destruct ds; [exfalso; apply Hne; reflexivity|reflexivity]).
  destruct (@sim_search_rom_any crc_bit ds Hne' (rom_wf_length Hwf) family
              fuel code last s Hs Hlen Hfuel)
    as (z & s' & t & Hin & Hstop & Hz0 & Hex & Hs').
  pose proof (search_rom_range (Sim.handler crc_bit) fuel family code last s)
    as Hrange.
  rewrite Hex in *. unfold result, final in *. cbn [fst snd] in *.
  exists (snd z). split; [reflexivity|].
  split; [unfold OWI.LAST, OWI.ROMBITS; simpl; lia|].
  split; [apply (@search_order_in ds z Hwf Hin)|].
  split; [|exact Hs'].
  unfold stops in Hstop. apply orb_true_iff in Hstop.
  destruct Hstop as [Hstop|Hstop];
    [apply orb_true_iff in Hstop; destruct Hstop as [Hstop|Hstop]|];
    apply Z.eqb_eq in Hstop; auto.
Qed.

Lemma search_rom_finds_device_witness :
  let x := exec (Sim.handler Sim.crc8_bit)
                (OWI.search_rom 4 0 (rom 0xAB) 17) (Sim.init three_devices) in
  exists r,
    fst (result x) = Some r /\ 0 <= r <= OWI.LAST /\
    In (snd (result x)) three_devices /\
    (r = OWI.LAST \/ 0 = 0 \/ get (snd (result x)) 0 = 0) /\
    Sim.devices (dev (final x)) = three_devices.
Proof.
  apply (@search_rom_finds_device Sim.crc8_bit three_devices
           (Sim.init three_devices) (rom 0xAB) 0 17 4%nat).
  - reflexivity.
  - discriminate.
  - repeat constructor; simpl; lia.
  - reflexivity.
  - simpl; lia.
Defined.

(** X9.  The enumeration visits the devices in the order of their codes on
    the wire: of two codes visited, the earlier one has a 0 at the first
    position where they differ.  So no code is reported twice, also when
    several devices on the bus carry the same code. *)
Theorem enumeration_order (crc_bit : Z -> bool -> Z)
    (ds : list (list Z)) (s : owi Sim.bus) (code : list Z) (family : Z)
    (calls fuel : nat) :
  Sim.devices (dev s) = ds ->
  ds <> [] ->
  Forall (fun d => length d = OWI.ROM_MAX) ds ->
  length code = OWI.ROM_MAX ->
  (length ds <= calls)%nat -> (length ds <= fuel)%nat ->
  let x := exec (Sim.handler crc_bit)
                (enumerate calls fuel family code OWI.FIRST) s in
  ForallOrdPairs code_lt (snd (fst (result x))) /\
  NoDup (snd (fst (result x))).
Proof.
  intros Hs Hne Hl Hlen Hcalls Hfuel. cbv zeta.
  assert (Hne' : nonempty ds = true)
    by (destruct ds; [exfalso; apply Hne; reflexivity|reflexivity]).
  destruct (@sim_enumerate crc_bit ds Hne' Hl family calls fuel code s
              Hs Hlen Hcalls Hfuel) as (Hres & _ & _).
  rewrite Hres. cbn [snd].
  pose proof (visit_order_sorted family ds) as Hsorted.
  split; [exact Hsorted|].
  apply (ordpairs_NoDup (R := code_lt)); [|exact Hsorted].
  intros d Hd. unfold code_lt in Hd. rewrite bits_lt_irrefl in Hd.
  discriminate.
Qed.

Lemma enumeration_order_witness :
  let x := exec (Sim.handler Sim.crc8_bit)
                (enumerate 4 4 0x28 (rom 0) OWI.FIRST)
                (Sim.init four_devices) in
  ForallOrdPairs code_lt (snd (fst (result x))) /\
  NoDup (snd (fst (result x))).
Proof.
  apply (@enumeration_order Sim.crc8_bit four_devices
           (Sim.init four_devices) (rom 0) 0x28 4%nat 4%nat).
  - reflexivity.
  - discriminate.
  - repeat constructor.
  - reflexivity.
  - simpl; lia.
  - simpl; lia.
Defined.

(** X10.  What a family filter lets through.  The enumeration with a family
    argument visits every device of that family and only codes of devices
    on the bus; every code it visits except the last one is of the family
    (or the family is 0).  The last code visited is the one that ends the
    whole search, whatever its family. *)
Theorem enumeration_family_filter (crc_bit : Z -> bool -> Z)
    (ds : list (list Z)) (s : owi Sim.bus) (code : list Z) (family : Z)
    (calls fuel : nat) :
  Sim.devices (dev s) = ds ->
  ds <> [] ->
  Forall rom_wf ds ->
  length code = OWI.ROM_MAX ->
  (length ds <= calls)%nat -> (length ds <= fuel)%nat ->
  let x := exec (Sim.handler crc_bit)
                (enumerate calls fuel family code OWI.FIRST) s in
  let visited := snd (fst (result x)) in
  (forall d, In d ds -> get d 0 = family -> In d visited) /\
  (forall d, In d visited -> In d ds) /\
  exists front d,
    visited = front ++ [d] /\
    Forall (fun d' => family = 0 \/ get d' 0 = family) front.
Proof.
  intros Hs Hne Hwf Hlen Hcalls Hfuel. cbv zeta.
  assert (Hne' : nonempty ds = true)
    by (destruct ds; [exfalso; apply Hne; reflexivity|reflexivity]).
  destruct (@sim_enumerate crc_bit ds Hne' (rom_wf_length Hwf) family calls
              fuel code s Hs Hlen Hcalls Hfuel) as (Hres & _ & _).
  rewrite Hres. cbn [snd]. split; [|split].
  - intros d Hd Hfam.
    destruct (@search_order_complete ds d Hwf Hd) as (q & Hq).
    apply visit_order_in. exists (d, q).
    split; [exact Hq|]. split; [|reflexivity].
    unfold stops. change (fst (d, q)) with d. rewrite Hfam, Z.eqb_refl.
    apply orb_true_r.
  - intros d Hd. apply visit_order_in in Hd.
    destruct Hd as (z & Hz & _ & <-).
    apply (@search_order_in ds z Hwf Hz).
  - destruct (@visit_order_shape family ds (rom_wf_length Hwf) Hne')
      as (front & z & HE & _ & Hfront).
    exists front, (fst z). split; assumption.
Qed.

Lemma enumeration_family_filter_witness :
  let x := exec (Sim.handler Sim.crc8_bit)
                (enumerate 4 4 0x28 (rom 0) OWI.FIRST)
                (Sim.init four_devices) in
  let visited := snd (fst (result x)) in
  (forall d, In d four_devices -> get d 0 = 0x28 -> In d visited) /\
  (forall d, In d visited -> In d four_devices) /\
  exists front d,
    visited = front ++ [d] /\
    Forall (fun d' => 0x28 = 0 \/ get d' 0 = 0x28) front.
Proof.
  apply (@enumeration_family_filter Sim.crc8_bit four_devices
           (Sim.init four_devices) (rom 0) 0x28 4%nat 4%nat).
  - reflexivity.
  - discriminate.
  - repeat constructor; simpl; lia.
  - reflexivity.
  - simpl; lia.
  - simpl; lia.
Defined.

(** X11.  The code a pass returns has a 0 at the position it returns: when
    the result is neither ERROR nor LAST it is a position below 64, and the
    bit of the returned code there is 0.  (The next pass, given this code
    and this position, writes a 1 there.) *)
Theorem search_cursor_bit_zero {D} (h : phy D) (s : owi D)
    (code : list Z) (last : Z) :
  (OWI.ROM_MAX <= length code)%nat ->
  let x := exec h (OWI.search code last) s in
  fst (result x) <> OWI.ERROR -> fst (result x) <> OWI.LAST ->
  0 <= fst (result x) < 64 /\
  codebit (snd (result x)) (Z.to_nat (fst (result x))) = false.
Proof.
  intros Hlen. cbv zeta. intros Hok Hnl.
  pose proof (search_pass_store h code last s Hlen) as Hst.
  pose proof (search_pass h code last s) as Hp.
  destruct (exec h (OWI.search code last) s) as [[[r c] s'] t].
  unfold result in *. cbn [fst snd] in *.
  destruct Hp as [[He _]|Hinv]; [contradiction|].
  pose proof (@pass_inv_range 64 r t ltac:(lia) Hinv) as Hr.
  destruct Hr as [Hr|Hr]; [contradiction|]. split; [exact Hr|].
  destruct Hinv as (rds & Ht & Hl & Hnx & _).
  destruct Hst as [_ [(He & _)|(rds' & Ht' & _ & _ & _ & Hbits)]];
    [contradiction|].
  assert (Hsame : rds' = rds).
  { rewrite <- (rounds_of_blocks rds'), <- Ht', Ht. apply rounds_of_blocks. }
  subst rds'. rewrite (Hbits (Z.to_nat r)) by lia.
  assert (Hin : In r (zero_branches 0 rds)).
  { rewrite Hnx. apply last_in. intros Hnil. rewrite Hnil in Hnx.
    cbn [List.last] in Hnx. contradiction. }
  apply zero_branches_nth in Hin. destruct Hin as [_ Hn].
  rewrite Z.sub_0_r in Hn. unfold stored_at. rewrite Hn. reflexivity.
Qed.

Lemma search_cursor_bit_zero_witness :
  let x := exec (Sim.handler Sim.crc8_bit) (OWI.search (rom 0xFF) OWI.FIRST)
                (Sim.searching three_devices) in
  0 <= fst (result x) < 64 /\
  codebit (snd (result x)) (Z.to_nat (fst (result x))) = false.
Proof.
  apply (@search_cursor_bit_zero _ (Sim.handler Sim.crc8_bit)
           (Sim.searching three_devices) (rom 0xFF) OWI.FIRST).
  - unfold OWI.ROM_MAX, rom; simpl; lia.
  - vm_compute; discriminate.
  - vm_compute; discriminate.
Defined.

(** ** Faults in an alarm search *)


